(** * PalmSim: assimilate partitioning, trunk and generative cohorts

    A shallow embedding of the core of the PalmSim oil-palm simulation
    (palmsim/components: assimilates.py, trunk.py, generative/*.py)
    together with the properties its specification states about it.

    Numbers.  The program computes with Python numbers.  They are
    embedded as exact rationals [Q]: every finite float is a rational,
    and the arithmetic is taken without rounding, so a statement "within
    floating-point tolerance" is read as an exact equation [==].
    Python's [/] raises [ZeroDivisionError] on a zero divisor and an
    [assert] raises [AssertionError]; both are embedded as [None].

    [math.exp] is a parameter of the development, the class [MathLib]:
    the program relies on its values only through the assertions it
    makes on them, and so do the proofs.

    Objects.  Bunch components are mutable objects reached along more
    than one path ([cohort.stalk] and [cohort.components]) and copied at
    sex differentiation; they live in a heap and are named by
    references.  A parent back-reference ([component._cohort],
    [cohort._container], [container._palm]) is embedded by passing the
    parent to the method that reads it, [None] standing for the
    stand-alone mode of the source. *)

From Stdlib Require Import QArith Qminmax Qabs Lqa List Bool Lia.
From stdpp Require Import base list.
Import ListNotations.
Open Scope Q_scope.

(** ** Python numbers *)

Module Py.

(** [a < b] as a boolean test. *)
Definition ltb (a b : Q) : bool := negb (Qle_bool b a).
Definition leb (a b : Q) : bool := Qle_bool a b.
Definition eqb (a b : Q) : bool := Qeq_bool a b.
Definition gtb (a b : Q) : bool := ltb b a.
Definition geb (a b : Q) : bool := leb b a.

(** [a / b], raising on a zero divisor. *)
Definition div (a b : Q) : option Q :=
  if eqb b 0 then None else Some (a / b).

(** [min(a, b)] returns its first argument unless the second is smaller,
    [max(a, b)] its first argument unless the second is larger. *)
Definition min (a b : Q) : Q := if ltb b a then b else a.
Definition max (a b : Q) : Q := if ltb a b then b else a.

(** [sum(xs)]: left to right, starting from 0. *)
Definition sum (xs : list Q) : Q := fold_left Qplus xs 0.

(** [assert b]. *)
Definition assert (b : bool) : option unit :=
  if b then Some tt else None.

(** [x ** 2] and [x ** 4]. *)
Definition sq (x : Q) : Q := x * x.
Definition pow4 (x : Q) : Q := sq (sq x).

End Py.

(** [math.exp] *)
Class MathLib := exp : Q -> Q.

Notation "'let?' x ':=' e 'in' k" :=
  (match e with Some x => k | None => None end)
  (at level 10, x pattern, e at level 200, k at level 200, only parsing).

(** ** assimilates.py: the partitioning functions *)

(** One turn of the loop of [prioritized_partitioning]; the state is the
    output list [Ss] and the remaining supply [S]. *)
Definition prioritized_step (st : list Q * Q) (D : Q) : list Q * Q :=
  let Ss := fst st in
  let S := snd st in
  if Py.ltb D S then (Ss ++ [D], S - D) else (Ss ++ [S], 0).

(** [Ss[Ss < 0] = 0] *)
Definition clamp_negative (Ss : list Q) : list Q :=
  map (fun s => if Py.ltb s 0 then 0 else s) Ss.

(** [for D in Ds[:-1]: ...; Ss.append(S); Ss[Ss < 0] = 0] *)
Definition prioritized_partitioning (S : Q) (Ds : list Q) : list Q :=
  let st := fold_left prioritized_step (removelast Ds) ([], S) in
  clamp_negative (fst st ++ [snd st]).

Definition proportionate_partitioning (S : Q) (Ds : list Q) : option (list Q) :=
  let total_demand := Py.sum Ds in
  let? scalar := Py.div S total_demand in
  Some (map (fun D => scalar * D) Ds).

(** Scalar multiple and sum of arrays.  The two arrays added in
    [parametrized_partitioning] have the same length whenever both exist
    (see [partitionings_same_length]), so the sum is taken pointwise. *)
Definition array_scale (k : Q) (xs : list Q) : list Q := map (Qmult k) xs.

Fixpoint array_add (xs ys : list Q) : list Q :=
  match xs, ys with
  | x :: xs', y :: ys' => (x + y) :: array_add xs' ys'
  | _, _ => []
  end.

Definition parametrized_partitioning (S : Q) (Ds : list Q) (k : Q)
  : option (list Q) :=
  let prio := prioritized_partitioning S Ds in
  let? prop := proportionate_partitioning S Ds in
  Some (array_add (array_scale k prio) (array_scale (1 - k) prop)).

(** [Assimilates.parameters['vegetative_priority']['value']] *)
Definition vegetative_priority : Q := 0.8.

(** [x[i]] on an array, raising when out of range. *)
Definition item (xs : list Q) (i : nat) : option Q := xs !! i.

(** [Assimilates.get_assim_growth_vegetative], as a function of the
    attributes it reads. *)
Definition get_assim_growth_vegetative
    (assim_growth_total potential_sink_strength_vegetative
     potential_sink_strength_generative : Q) : option Q :=
  let S := assim_growth_total in
  let Ds := [potential_sink_strength_vegetative;
             potential_sink_strength_generative] in
  let k := vegetative_priority in
  let? Ss := parametrized_partitioning S Ds k in
  let? res := item Ss 0 in
  if Py.leb res 0 then Some 0 else Some res.

(** [Assimilates.get_assim_growth_generative] *)
Definition get_assim_growth_generative
    (assim_growth_total potential_sink_strength_vegetative
     potential_sink_strength_generative : Q) : option Q :=
  let S := assim_growth_total in
  let potential := potential_sink_strength_generative in
  let Ds := [potential_sink_strength_vegetative;
             potential_sink_strength_generative] in
  let k := vegetative_priority in
  let? Ss := parametrized_partitioning S Ds k in
  let? res := item Ss 1 in
  Some (Py.min res potential).

(** [Assimilates.get_assim_growth_total] *)
Definition get_assim_growth_total (assim_produced assim_maintenance_total : Q) : Q :=
  let assim_growth_total := assim_produced - assim_maintenance_total in
  if Py.leb 0 assim_growth_total then assim_growth_total else 0.


(** The potential sink strengths of the fronds, the trunk and the roots,
    as [Assimilates] reads them from its palm. *)
Record vegetative_sinks := {
  fronds_potential_sink_strength : Q;
  trunk_potential_sink_strength : Q;
  roots_potential_sink_strength : Q
}.

(** [Assimilates.get_potential_sink_strength_vegetative] *)
Definition get_potential_sink_strength_vegetative
    (palm : option vegetative_sinks) : Q :=
  match palm with
  | None => 0
  | Some p =>
      fronds_potential_sink_strength p + trunk_potential_sink_strength p
      + roots_potential_sink_strength p
  end.

(** [Assimilates.assim_veg_growth_fraction_fronds], [_trunk] and
    [_roots]; [potential_sink_strength_vegetative] is the attribute of
    that name, and the stand-alone values are the ones [__init__] sets. *)
Definition assim_veg_growth_fraction_fronds (palm : option vegetative_sinks)
    (potential_sink_strength_vegetative : Q) : option Q :=
  match palm with
  | None => Some 0.8
  | Some p => Py.div (fronds_potential_sink_strength p)
                potential_sink_strength_vegetative
  end.

Definition assim_veg_growth_fraction_trunk (palm : option vegetative_sinks)
    (potential_sink_strength_vegetative : Q) : option Q :=
  match palm with
  | None => Some 0.1
  | Some p => Py.div (trunk_potential_sink_strength p)
                potential_sink_strength_vegetative
  end.

Definition assim_veg_growth_fraction_roots (palm : option vegetative_sinks)
    (potential_sink_strength_vegetative : Q) : option Q :=
  match palm with
  | None => Some 0.1
  | Some p => Py.div (roots_potential_sink_strength p)
                potential_sink_strength_vegetative
  end.

(** [Assimilates.get_assim_growth_fronds], [_roots] and [_trunk] *)
Definition get_assim_growth_fronds (palm : option vegetative_sinks)
    (potential_sink_strength_vegetative assim_growth_vegetative : Q)
  : option Q :=
  let? f := assim_veg_growth_fraction_fronds palm
              potential_sink_strength_vegetative in
  Some (f * assim_growth_vegetative).

Definition get_assim_growth_roots (palm : option vegetative_sinks)
    (potential_sink_strength_vegetative assim_growth_vegetative : Q)
  : option Q :=
  let? f := assim_veg_growth_fraction_roots palm
              potential_sink_strength_vegetative in
  Some (f * assim_growth_vegetative).

Definition get_assim_growth_trunk (palm : option vegetative_sinks)
    (potential_sink_strength_vegetative assim_growth_vegetative : Q)
  : option Q :=
  let? f := assim_veg_growth_fraction_trunk palm
              potential_sink_strength_vegetative in
  Some (f * assim_growth_vegetative).
(** ** palm.py: what the components read from the palm field *)

Module Palm.

Record t := {
  planting_density : Q;
  dt : Q;
  DAP : Q;
  MAP : Q;
  YAP : Q;
  _days_in_month : Q;
  _days_in_year : Q;
  (** [palm.fronds.initiation_rate] *)
  fronds_initiation_rate : Q;
  (** [palm.assimilates.assim_growth_trunk] *)
  assim_growth_trunk : Q;
  (** [palm.assimilates.assim_growth_generative] *)
  assim_growth_generative : Q
}.

End Palm.

(** ** trunk.py *)

Module Trunk.

(** [Trunk.parameters] and [Trunk.initial_values] *)
Definition density_a : Q := 7.62.
Definition density_b : Q := 83.
Definition specific_maintenance : Q := 0.0005.
Definition conversion_efficiency : Q := 0.69.
Definition lignification_rate : Q := 0.74.
Definition mass_loss_rate_value : Q := 0.0.
Definition initial_mass : Q := 0.1.

(** The state of a trunk.  The spline of potential growth rates built by
    [__init__] is left out: [update] does not read it. *)
Record t := {
  mass : Q;
  lignified_mass : Q;
  _assim_growth_ : Q
}.

(** [self._planting_density]: dereferences the palm. *)
Definition _planting_density (palm : option Palm.t) : option Q :=
  let? p := palm in Some (Palm.planting_density p).

Definition init (palm : option Palm.t) : option t :=
  let mass_per_palm := initial_mass in
  let? d := _planting_density palm in
  Some {| mass := d * mass_per_palm; lignified_mass := 0; _assim_growth_ := 0 |}.

Definition _YAP (palm : option Palm.t) : Q :=
  match palm with None => 0 | Some p => Palm.YAP p end.

Definition assim_growth (palm : option Palm.t) (self : t) : Q :=
  match palm with
  | None => _assim_growth_ self
  | Some p => Palm.assim_growth_trunk p
  end.

Definition mass_growth_rate (palm : option Palm.t) (self : t) : Q :=
  let c := conversion_efficiency in
  c * assim_growth palm self.

Definition mass_loss_rate : Q := mass_loss_rate_value.

Definition mass_change_rate (palm : option Palm.t) (self : t) : Q :=
  mass_growth_rate palm self - mass_loss_rate.

Definition density (palm : option Palm.t) : Q :=
  let a := density_a in
  let b := density_b in
  a * _YAP palm + b.

Definition volume (palm : option Palm.t) (self : t) : option Q :=
  Py.div (mass self) (density palm).

Definition lignified_mass_change_rate (palm : option Palm.t) (self : t)
  : option Q :=
  let c := lignification_rate in
  let? V := volume palm self in
  let? p := palm in
  let? r := Py.div c (Palm._days_in_month p) in
  Some (V * r).

Definition maintenance_requirement (self : t) : Q :=
  let c := specific_maintenance in
  let x := mass self in
  let active_mass := x - lignified_mass self in
  c * active_mass.

(** [Trunk.update]: the lignified mass first, from the mass before the
    step, then the mass, then the two assertions. *)
Definition update (palm : option Palm.t) (dt : Q) (self : t) : option t :=
  let? rate := lignified_mass_change_rate palm self in
  let lignified_mass' := lignified_mass self + rate * dt in
  let self1 := {| mass := mass self; lignified_mass := lignified_mass';
                  _assim_growth_ := _assim_growth_ self |} in
  let mass' := mass self1 + mass_change_rate palm self1 * dt in
  let self2 := {| mass := mass'; lignified_mass := lignified_mass self1;
                  _assim_growth_ := _assim_growth_ self1 |} in
  let? _ := Py.assert (Py.geb (mass self2) 0) in
  let? _ := Py.assert (Py.gtb (lignified_mass self2) 0) in
  Some self2.

(** A simulated trajectory: one [update] per step, each with the palm
    field as it stands at that step and the step's [dt]. *)
Fixpoint run (steps : list (Palm.t * Q)) (self : t) : option t :=
  match steps with
  | [] => Some self
  | (palm, dt) :: steps' =>
      let? self' := update (Some palm) dt self in run steps' self'
  end.

End Trunk.

(** ** helpers.py *)

Module Quadratic.

(** The closure returned by [make_quadratic_function]. *)
Record t := { x1 : Q; x2 : Q; h : Q; hw : Q }.

Definition make_quadratic_function (x1 x2 A : Q) : option t :=
  let W := x2 - x1 in
  let? h := Py.div (1.5 * A) W in
  let hw := 0.5 * (x2 - x1) in
  Some {| x1 := x1; x2 := x2; h := h; hw := hw |}.

(** [func(x)] *)
Definition func (f : t) (x : Q) : option Q :=
  if Py.leb x (x1 f) then Some 0
  else if Py.geb x (x2 f) then Some 0
  else
    let? q := Py.div (- h f * (x - x1 f) * (x - x2 f)) (Py.sq (hw f)) in
    Some (Py.max 0 q).

End Quadratic.

(** ** generative/bunch_components.py *)

Module BunchComponent.

(** The concrete sub-classes. *)
Inductive kind := Stalk | MesocarpFibers | MesocarpOil | Kernels.

Record parameters_t := {
  conversion_efficiency : Q;
  potential_mass_fraction : Q;
  specific_maintenance : Q;
  t_growth_start : Q;
  t_growth_end : Q
}.

(** The [parameters] of each sub-class. *)
Definition parameters (k : kind) : parameters_t :=
  match k with
  | Stalk =>
      {| conversion_efficiency := 0.69; potential_mass_fraction := 0.25;
         specific_maintenance := 0.0022;
         t_growth_start := 0; t_growth_end := 0.75 |}
  | MesocarpFibers =>
      {| conversion_efficiency := 0.69; potential_mass_fraction := 0.35;
         specific_maintenance := 0.0022;
         t_growth_start := 0.825; t_growth_end := 0.95 |}
  | MesocarpOil =>
      {| conversion_efficiency := 0.42; potential_mass_fraction := 0.35;
         specific_maintenance := 0.0022;
         t_growth_start := 0.9; t_growth_end := 0.95 |}
  | Kernels =>
      {| conversion_efficiency := 0.42; potential_mass_fraction := 0.05;
         specific_maintenance := 0.0022;
         t_growth_start := 0.875; t_growth_end := 0.975 |}
  end.

Record t := {
  cls : kind;
  potential_mass : Q;
  t_maturity : Q;
  _potential_growth_function : Quadratic.t;
  mass : Q;
  age : Q;
  potential_sink_strength : Q;
  _assim_growth : Q;
  _total_mass : Q
}.

Definition set_mass (v : Q) (self : t) : t :=
  {| cls := cls self; potential_mass := potential_mass self;
     t_maturity := t_maturity self;
     _potential_growth_function := _potential_growth_function self;
     mass := v; age := age self;
     potential_sink_strength := potential_sink_strength self;
     _assim_growth := _assim_growth self; _total_mass := _total_mass self |}.

Definition set_age (v : Q) (self : t) : t :=
  {| cls := cls self; potential_mass := potential_mass self;
     t_maturity := t_maturity self;
     _potential_growth_function := _potential_growth_function self;
     mass := mass self; age := v;
     potential_sink_strength := potential_sink_strength self;
     _assim_growth := _assim_growth self; _total_mass := _total_mass self |}.

Definition set_potential_sink_strength (v : Q) (self : t) : t :=
  {| cls := cls self; potential_mass := potential_mass self;
     t_maturity := t_maturity self;
     _potential_growth_function := _potential_growth_function self;
     mass := mass self; age := age self;
     potential_sink_strength := v;
     _assim_growth := _assim_growth self; _total_mass := _total_mass self |}.

(** What a component reads from the cohort that owns it, at the time it
    reads it: [self._cohort.potential_sink_strength] and
    [self._cohort.assim_growth_organ]. *)
Record owner := {
  owner_potential_sink_strength : Q;
  owner_assim_growth_organ : Q
}.

Definition mass_growth_rate_potential (self : t) : option Q :=
  Quadratic.func (_potential_growth_function self) (age self).

Definition get_potential_sink_strength (self : t) : option Q :=
  let c := conversion_efficiency (parameters (cls self)) in
  let? r := mass_growth_rate_potential self in
  Py.div r c.

(** [get_potential_mass], given [self._cohort.potential_mass] when there
    is a cohort.  Without one the source reads [self._total_mass], which
    [__init__] has not set yet at that point. *)
Definition get_potential_mass (k : kind) (cohort_potential_mass : option Q)
  : option Q :=
  let c := potential_mass_fraction (parameters k) in
  let? total := cohort_potential_mass in
  Some (c * total).

(** [__init__(cohort, age, potential_mass, t_maturity)] of the sub-class
    [k]; [cohort_potential_mass] is [cohort.potential_mass], [None] when
    [cohort] is. *)
Definition init (k : kind) (cohort_potential_mass : option Q) (age0 : Q)
    (potential_mass0 : option Q) (t_maturity0 : Q) : option t :=
  let? pm :=
    match potential_mass0 with
    | None => get_potential_mass k cohort_potential_mass
    | Some pm => Some pm
    end in
  let t_growth_start := t_maturity0 * t_growth_start (parameters k) in
  let t_growth_end := t_maturity0 * t_growth_end (parameters k) in
  let? f := Quadratic.make_quadratic_function t_growth_start t_growth_end pm in
  let self :=
    {| cls := k; potential_mass := pm; t_maturity := t_maturity0;
       _potential_growth_function := f;
       mass := 0; age := age0; potential_sink_strength := 0;
       _assim_growth := 0; _total_mass := 0 |} in
  let? pss := get_potential_sink_strength self in
  Some (set_potential_sink_strength pss self).

Definition relative_sink_strength (cohort : option owner) (self : t) : Q :=
  match cohort with
  | None => 1
  | Some o =>
      if Py.gtb (owner_potential_sink_strength o) 0
      then potential_sink_strength self / owner_potential_sink_strength o
      else 0
  end.

Definition assim_growth (cohort : option owner) (self : t) : Q :=
  match cohort with
  | None => _assim_growth self
  | Some o =>
      let total := owner_assim_growth_organ o in
      relative_sink_strength cohort self * total
  end.

Definition mass_growth_rate (cohort : option owner) (self : t) : option Q :=
  let c := conversion_efficiency (parameters (cls self)) in
  let res := c * assim_growth cohort self in
  let? cap := mass_growth_rate_potential self in
  Some (Py.min cap res).

Definition maintenance_requirement (self : t) : Q :=
  let c := specific_maintenance (parameters (cls self)) in
  c * mass self.

Definition update_mass (cohort : option owner) (dt : Q) (self : t)
  : option t :=
  let? r := mass_growth_rate cohort self in
  Some (set_mass (mass self + r * dt) self).

Definition update_age (dt : Q) (self : t) : option t :=
  let self := set_age (age self + dt) self in
  let? pss := get_potential_sink_strength self in
  Some (set_potential_sink_strength pss self).

(** [copy]: a new component of the same sub-class, without cohort. *)
Definition copy (self : t) : option t :=
  let t_maturity0 := t_maturity self in
  let? duplicate :=
    init (cls self) None 0 (Some (potential_mass self)) t_maturity0 in
  let duplicate := set_mass (mass self) duplicate in
  let duplicate := set_age (age self) duplicate in
  let? pss := get_potential_sink_strength duplicate in
  Some (set_potential_sink_strength pss duplicate).

End BunchComponent.

(** ** The heap of bunch components *)

Abbreviation ref := nat (only parsing).
Abbreviation Heap := (list BunchComponent.t) (only parsing).

(** A method that may allocate or mutate components, or raise. *)
Definition M (A : Type) : Type := Heap -> option (A * Heap).

Definition ret {A} (a : A) : M A := fun h => Some (a, h).

Definition bind {A B} (m : M A) (f : A -> M B) : M B :=
  fun h => match m h with Some (a, h') => f a h' | None => None end.

Notation "'let!' x ':=' e 'in' k" := (bind e (fun x => k))
  (at level 10, x pattern, e at level 200, k at level 200, only parsing).

(** A computation that only reads the heap, or raises. *)
Definition get {A} (f : Heap -> option A) : M A :=
  fun h => match f h with Some a => Some (a, h) | None => None end.

Definition lift {A} (o : option A) : M A := get (fun _ => o).

(** A new object. *)
Definition alloc (c : BunchComponent.t) : M ref :=
  fun h => Some (length h, h ++ [c]).

Definition deref (h : Heap) (r : ref) : option BunchComponent.t := h !! r.

(** Assignment to the attributes of an existing object. *)
Definition store (r : ref) (c : BunchComponent.t) : M unit :=
  fun h => match h !! r with
           | Some _ => Some (tt, <[r := c]> h)
           | None => None
           end.

(** [for x in xs: f(x)] *)
Fixpoint for_each {A} (f : A -> M unit) (xs : list A) : M unit :=
  match xs with
  | [] => ret tt
  | x :: xs' => let! _ := f x in for_each f xs'
  end.

(** [[f(x) for x in xs]] *)
Fixpoint map_M {A B} (f : A -> M B) (xs : list A) : M (list B) :=
  match xs with
  | [] => ret []
  | x :: xs' => let! y := f x in let! ys := map_M f xs' in ret (y :: ys)
  end.

(** [[f(x) for x in xs]] when [f] only reads. *)
Fixpoint map_opt {A B} (f : A -> option B) (xs : list A) : option (list B) :=
  match xs with
  | [] => Some []
  | x :: xs' => let? y := f x in let? ys := map_opt f xs' in Some (y :: ys)
  end.

(** ** generative/cohorts_container.py: the container as its cohorts see it

    The attributes of [Cohorts] and the properties that do not go through
    the list of cohorts.  [C] is the type of the cohorts. *)

Module Container.

Definition bunch_development_asymptote_t0 : Q := 1500.
Definition bunch_development_slope : Q := 27.
Definition bunch_FM_to_DM_ratio : Q := 1.9.
Definition female_fraction_b : Q := 2.
Definition female_fraction_k : Q := 0.22.
Definition female_fraction_a : Q := 15.8.
Definition onset_time : Q := 28.
Definition onset_steepness : Q := 0.1.
Definition stress_female_fraction_asymptote : Q := 0.6.

Section Container.

Context {C : Type} `{MathLib}.

Record t := {
  cohorts : list C;
  _palm : option Palm.t;
  _assim_growth : Q;
  assim_growth : Q;
  potential_sink_strength : Q;
  _initiation_rate : Q;
  to_delete : list C;
  _bunches : list C
}.

(** [__init__(palm)] *)
Definition init (palm : option Palm.t) : t :=
  {| cohorts := []; _palm := palm; _assim_growth := 0; assim_growth := 0;
     potential_sink_strength := 0; _initiation_rate := 0;
     to_delete := []; _bunches := [] |}.

Definition set_cohorts (v : list C) (self : t) : t :=
  {| cohorts := v; _palm := _palm self; _assim_growth := _assim_growth self;
     assim_growth := assim_growth self;
     potential_sink_strength := potential_sink_strength self;
     _initiation_rate := _initiation_rate self;
     to_delete := to_delete self; _bunches := _bunches self |}.

Definition set_assim_growth (v : Q) (self : t) : t :=
  {| cohorts := cohorts self; _palm := _palm self;
     _assim_growth := _assim_growth self; assim_growth := v;
     potential_sink_strength := potential_sink_strength self;
     _initiation_rate := _initiation_rate self;
     to_delete := to_delete self; _bunches := _bunches self |}.

Definition set_potential_sink_strength (v : Q) (self : t) : t :=
  {| cohorts := cohorts self; _palm := _palm self;
     _assim_growth := _assim_growth self; assim_growth := assim_growth self;
     potential_sink_strength := v;
     _initiation_rate := _initiation_rate self;
     to_delete := to_delete self; _bunches := _bunches self |}.

Definition set__bunches (v : list C) (self : t) : t :=
  {| cohorts := cohorts self; _palm := _palm self;
     _assim_growth := _assim_growth self; assim_growth := assim_growth self;
     potential_sink_strength := potential_sink_strength self;
     _initiation_rate := _initiation_rate self;
     to_delete := to_delete self; _bunches := v |}.

Definition _DAP (self : t) : Q :=
  match _palm self with None => 0 | Some p => Palm.DAP p end.

Definition _MAP (self : t) : Q :=
  match _palm self with None => 0 | Some p => Palm.MAP p end.

Definition _YAP (self : t) : Q :=
  match _palm self with None => 0 | Some p => Palm.YAP p end.

Definition _dt (self : t) : Q :=
  match _palm self with None => 1 | Some p => Palm.dt p end.

(** [t_maturity]: reads [self._palm._days_in_year] whatever [_palm] is. *)
Definition t_maturity (self : t) : option Q :=
  let? p := _palm self in
  let? t := Py.div (_DAP self) (Palm._days_in_year p) in
  let a0 := bunch_development_asymptote_t0 in
  let s := bunch_development_slope in
  let? e := Py.div (-4 * s * t) a0 in
  let? r := Py.div 1 (1 + exp e) in
  let maturity := a0 * r in
  let? _ := Py.assert (Py.gtb maturity 0) in
  Some maturity.

Definition Ic (self : t) : Q :=
  let res :=
    if Py.eqb (potential_sink_strength self) 0 then 1
    else assim_growth self / potential_sink_strength self in
  Py.min 1 res.

Definition stress_index (self : t) : Q := 1 - Ic self.

Definition frond_initiation_rate (self : t) : Q :=
  match _palm self with
  | None => 0
  | Some p => Palm.fronds_initiation_rate p
  end.

Definition get_assim_growth (self : t) : Q :=
  match _palm self with
  | None => _assim_growth self
  | Some p => Palm.assim_growth_generative p
  end.

Definition female_fraction_baseline (self : t) : option Q :=
  let? p := _palm self in
  let? t := Py.div (_DAP self) (Palm._days_in_year p) in
  let k := female_fraction_k in
  let a := female_fraction_a in
  let b := female_fraction_b in
  let female_fraction_boundary := a * (1 + b * exp (- k * t)) in
  let leaf_initiation := 21.28 * (1 + 1.56 * exp (-0.24 * t)) in
  Py.div female_fraction_boundary leaf_initiation.

Definition calc_female_fraction_decrease (x : Q) : Q :=
  let a := stress_female_fraction_asymptote in
  exp (- a * x).

Definition female_fraction (self : t) : option Q :=
  let x := stress_index self in
  let? baseline := female_fraction_baseline self in
  let stress_effect := calc_female_fraction_decrease x in
  Some (baseline * stress_effect).

Definition calc_onset_multiplicity (self : t) (MAP steepness : Q) : option Q :=
  let? T := t_maturity self in
  let? p := _palm self in
  let? m := Py.div T (Palm._days_in_month p) in
  let t0 := onset_time - m in
  if Py.ltb MAP t0 then Some 0
  else
    let? r := Py.div 1 (1 + steepness * Py.pow4 (MAP - t0)) in
    Some (1 - r).

Definition onset_multiplicity_factor (self : t) : option Q :=
  let MAP := _MAP self in
  let steepness := onset_steepness in
  calc_onset_multiplicity self MAP steepness.

Definition _planting_density (self : t) : Q :=
  match _palm self with None => 1 | Some p => Palm.planting_density p end.

Definition initiation_rate (self : t) : option Q :=
  match _palm self with
  | None => Some (_initiation_rate self)
  | Some _ =>
      let? o := onset_multiplicity_factor self in
      Some (frond_initiation_rate self * _planting_density self * o)
  end.

End Container.

Arguments t C : clear implicits.

End Container.

(** ** generative/cohorts.py *)

Module Cohort.

(** The concrete sub-classes of [Cohort], told apart by their [sex]. *)
Inductive sex_t := indeterminate | female | male.

Definition sex_eqb (a b : sex_t) : bool :=
  match a, b with
  | indeterminate, indeterminate | female, female | male, male => true
  | _, _ => false
  end.

(** One record for the three sub-classes.  An attribute that a sub-class
    does not have is set to a default by its [__init__] below and is read
    by none of its methods.  [_components] and [_potential_mass] are the
    attributes [components] and [potential_mass] of [Female] and [Male];
    [Indeterminate] has properties of these names instead. *)
Record t := {
  sex : sex_t;
  num_inflorescences : Q;
  age : Q;
  relative_sink_strength : Q;
  stalk : ref;
  _components : list ref;
  _potential_mass : Q;
  t_maturity : Q;
  has_flowered : bool;
  _abortion_fraction : Q;
  t_maturity_ : Q;
  _female_fraction : Q;
  _days_in_year : Q;
  t_differentiation : Q;
  t_anthesis : Q;
  inflorescence_abortion_t0 : Q;
  inflorescence_abortion_dt : Q;
  inflorescence_abortion_t1 : Q;
  bunch_failure_t0 : Q;
  bunch_failure_dt : Q;
  bunch_failure_t1 : Q;
  _stress_index_ : Q;
  mesocarp_oil : option ref;
  mesocarp_fibers : option ref;
  kernel : option ref
}.

Definition set_num_inflorescences (v : Q) (self : t) : t :=
  {| sex := sex self;
     num_inflorescences := v;
     age := age self;
     relative_sink_strength := relative_sink_strength self;
     stalk := stalk self;
     _components := _components self;
     _potential_mass := _potential_mass self;
     t_maturity := t_maturity self;
     has_flowered := has_flowered self;
     _abortion_fraction := _abortion_fraction self;
     t_maturity_ := t_maturity_ self;
     _female_fraction := _female_fraction self;
     _days_in_year := _days_in_year self;
     t_differentiation := t_differentiation self;
     t_anthesis := t_anthesis self;
     inflorescence_abortion_t0 := inflorescence_abortion_t0 self;
     inflorescence_abortion_dt := inflorescence_abortion_dt self;
     inflorescence_abortion_t1 := inflorescence_abortion_t1 self;
     bunch_failure_t0 := bunch_failure_t0 self;
     bunch_failure_dt := bunch_failure_dt self;
     bunch_failure_t1 := bunch_failure_t1 self;
     _stress_index_ := _stress_index_ self;
     mesocarp_oil := mesocarp_oil self;
     mesocarp_fibers := mesocarp_fibers self;
     kernel := kernel self |}.

Definition set_age (v : Q) (self : t) : t :=
  {| sex := sex self;
     num_inflorescences := num_inflorescences self;
     age := v;
     relative_sink_strength := relative_sink_strength self;
     stalk := stalk self;
     _components := _components self;
     _potential_mass := _potential_mass self;
     t_maturity := t_maturity self;
     has_flowered := has_flowered self;
     _abortion_fraction := _abortion_fraction self;
     t_maturity_ := t_maturity_ self;
     _female_fraction := _female_fraction self;
     _days_in_year := _days_in_year self;
     t_differentiation := t_differentiation self;
     t_anthesis := t_anthesis self;
     inflorescence_abortion_t0 := inflorescence_abortion_t0 self;
     inflorescence_abortion_dt := inflorescence_abortion_dt self;
     inflorescence_abortion_t1 := inflorescence_abortion_t1 self;
     bunch_failure_t0 := bunch_failure_t0 self;
     bunch_failure_dt := bunch_failure_dt self;
     bunch_failure_t1 := bunch_failure_t1 self;
     _stress_index_ := _stress_index_ self;
     mesocarp_oil := mesocarp_oil self;
     mesocarp_fibers := mesocarp_fibers self;
     kernel := kernel self |}.

Definition set_relative_sink_strength_attr (v : Q) (self : t) : t :=
  {| sex := sex self;
     num_inflorescences := num_inflorescences self;
     age := age self;
     relative_sink_strength := v;
     stalk := stalk self;
     _components := _components self;
     _potential_mass := _potential_mass self;
     t_maturity := t_maturity self;
     has_flowered := has_flowered self;
     _abortion_fraction := _abortion_fraction self;
     t_maturity_ := t_maturity_ self;
     _female_fraction := _female_fraction self;
     _days_in_year := _days_in_year self;
     t_differentiation := t_differentiation self;
     t_anthesis := t_anthesis self;
     inflorescence_abortion_t0 := inflorescence_abortion_t0 self;
     inflorescence_abortion_dt := inflorescence_abortion_dt self;
     inflorescence_abortion_t1 := inflorescence_abortion_t1 self;
     bunch_failure_t0 := bunch_failure_t0 self;
     bunch_failure_dt := bunch_failure_dt self;
     bunch_failure_t1 := bunch_failure_t1 self;
     _stress_index_ := _stress_index_ self;
     mesocarp_oil := mesocarp_oil self;
     mesocarp_fibers := mesocarp_fibers self;
     kernel := kernel self |}.

Definition set_stalk (v : ref) (self : t) : t :=
  {| sex := sex self;
     num_inflorescences := num_inflorescences self;
     age := age self;
     relative_sink_strength := relative_sink_strength self;
     stalk := v;
     _components := _components self;
     _potential_mass := _potential_mass self;
     t_maturity := t_maturity self;
     has_flowered := has_flowered self;
     _abortion_fraction := _abortion_fraction self;
     t_maturity_ := t_maturity_ self;
     _female_fraction := _female_fraction self;
     _days_in_year := _days_in_year self;
     t_differentiation := t_differentiation self;
     t_anthesis := t_anthesis self;
     inflorescence_abortion_t0 := inflorescence_abortion_t0 self;
     inflorescence_abortion_dt := inflorescence_abortion_dt self;
     inflorescence_abortion_t1 := inflorescence_abortion_t1 self;
     bunch_failure_t0 := bunch_failure_t0 self;
     bunch_failure_dt := bunch_failure_dt self;
     bunch_failure_t1 := bunch_failure_t1 self;
     _stress_index_ := _stress_index_ self;
     mesocarp_oil := mesocarp_oil self;
     mesocarp_fibers := mesocarp_fibers self;
     kernel := kernel self |}.

Definition set_components (v : list ref) (self : t) : t :=
  {| sex := sex self;
     num_inflorescences := num_inflorescences self;
     age := age self;
     relative_sink_strength := relative_sink_strength self;
     stalk := stalk self;
     _components := v;
     _potential_mass := _potential_mass self;
     t_maturity := t_maturity self;
     has_flowered := has_flowered self;
     _abortion_fraction := _abortion_fraction self;
     t_maturity_ := t_maturity_ self;
     _female_fraction := _female_fraction self;
     _days_in_year := _days_in_year self;
     t_differentiation := t_differentiation self;
     t_anthesis := t_anthesis self;
     inflorescence_abortion_t0 := inflorescence_abortion_t0 self;
     inflorescence_abortion_dt := inflorescence_abortion_dt self;
     inflorescence_abortion_t1 := inflorescence_abortion_t1 self;
     bunch_failure_t0 := bunch_failure_t0 self;
     bunch_failure_dt := bunch_failure_dt self;
     bunch_failure_t1 := bunch_failure_t1 self;
     _stress_index_ := _stress_index_ self;
     mesocarp_oil := mesocarp_oil self;
     mesocarp_fibers := mesocarp_fibers self;
     kernel := kernel self |}.

Definition set_fruit_attrs (oil : option ref) (fibers : option ref) (kern : option ref) (comps : list ref) (flowered : bool) (self : t) : t :=
  {| sex := sex self;
     num_inflorescences := num_inflorescences self;
     age := age self;
     relative_sink_strength := relative_sink_strength self;
     stalk := stalk self;
     _components := comps;
     _potential_mass := _potential_mass self;
     t_maturity := t_maturity self;
     has_flowered := flowered;
     _abortion_fraction := _abortion_fraction self;
     t_maturity_ := t_maturity_ self;
     _female_fraction := _female_fraction self;
     _days_in_year := _days_in_year self;
     t_differentiation := t_differentiation self;
     t_anthesis := t_anthesis self;
     inflorescence_abortion_t0 := inflorescence_abortion_t0 self;
     inflorescence_abortion_dt := inflorescence_abortion_dt self;
     inflorescence_abortion_t1 := inflorescence_abortion_t1 self;
     bunch_failure_t0 := bunch_failure_t0 self;
     bunch_failure_dt := bunch_failure_dt self;
     bunch_failure_t1 := bunch_failure_t1 self;
     _stress_index_ := _stress_index_ self;
     mesocarp_oil := oil;
     mesocarp_fibers := fibers;
     kernel := kern |}.

(** [self._container] *)
Definition container : Type := option (Container.t t).

(** [self.components]: a property of [Indeterminate], an attribute of
    the other two. *)
Definition components (self : t) : list ref :=
  match sex self with
  | indeterminate => [stalk self]
  | _ => _components self
  end.

(** [[x for x in self.components]] as objects. *)
Definition component_objects (h : Heap) (self : t)
  : option (list BunchComponent.t) :=
  map_opt (deref h) (components self).

Definition potential_sink_strength (h : Heap) (self : t) : option Q :=
  let? xs := component_objects h self in
  Some (Py.sum (map BunchComponent.potential_sink_strength xs)).

Definition cohort_sink_strength (h : Heap) (self : t) : option Q :=
  let? p := potential_sink_strength h self in
  Some (num_inflorescences self * p).

Definition get_relative_sink_strength (ctr : container) (h : Heap) (self : t)
  : option Q :=
  match ctr with
  | None => Some 1
  | Some c =>
      let total_sink_strength := Container.potential_sink_strength c in
      if Py.eqb total_sink_strength 0 then Some 0
      else
        let? s := cohort_sink_strength h self in
        Some (s / total_sink_strength)
  end.

Definition assim_growth_cohort (ctr : container) (h : Heap) (self : t)
  : option Q :=
  match ctr with
  | None => cohort_sink_strength h self
  | Some c =>
      let assim_growth_generative := Container.assim_growth c in
      Some (relative_sink_strength self * assim_growth_generative)
  end.

Definition assim_growth_organ (ctr : container) (h : Heap) (self : t)
  : option Q :=
  if Py.gtb (num_inflorescences self) 0 then
    let? a := assim_growth_cohort ctr h self in
    Some (a / num_inflorescences self)
  else Some 0.

Definition mass (h : Heap) (self : t) : option Q :=
  let? xs := component_objects h self in
  Some (Py.sum (map BunchComponent.mass xs)).

Definition maintenance_requirement (h : Heap) (self : t) : option Q :=
  let? xs := component_objects h self in
  Some (Py.sum (map BunchComponent.maintenance_requirement xs)).

(** What the components of [self] read from it: see
    [BunchComponent.owner]. *)
Definition owner (ctr : container) (h : Heap) (self : t)
  : option BunchComponent.owner :=
  let? total := assim_growth_organ ctr h self in
  let? p := potential_sink_strength h self in
  Some {| BunchComponent.owner_potential_sink_strength := p;
          BunchComponent.owner_assim_growth_organ := total |}.

(** [component.mass_growth_rate] for the component [x] of [self]. *)
Definition component_mass_growth_rate (ctr : container) (h : Heap) (self : t)
    (x : BunchComponent.t) : option Q :=
  let? o := owner ctr h self in
  BunchComponent.mass_growth_rate (Some o) x.

(** [component.update_mass(dt=dt)] for the component at [r]. *)
Definition component_update_mass (ctr : container) (self : t) (dt : Q)
    (r : ref) : M unit :=
  let! x := get (fun h => deref h r) in
  let! o := get (fun h => owner ctr h self) in
  let! x' := lift (BunchComponent.update_mass (Some o) dt x) in
  store r x'.

(** [component.update_age(dt=dt)] for the component at [r]. *)
Definition component_update_age (dt : Q) (r : ref) : M unit :=
  let! x := get (fun h => deref h r) in
  let! x' := lift (BunchComponent.update_age dt x) in
  store r x'.

(** The two loops of [_update]. *)
Definition update_masses (ctr : container) (dt : Q) (self : t) : M unit :=
  for_each (component_update_mass ctr self dt) (components self).

Definition update_ages (dt : Q) (self : t) : M unit :=
  for_each (component_update_age dt) (components self).

(** [_update].  [abortion_fraction] is the property of that name of the
    class of [self]: [Female] overrides it. *)
Definition _update (abortion_fraction : container -> t -> option Q)
    (ctr : container) (dt : Q) (self : t) : M t :=
  let! _ := update_masses ctr dt self in
  let! _ := update_ages dt self in
  let! a := lift (abortion_fraction ctr self) in
  let survival_fraction := Py.max 0 (1 - a * dt) in
  let self :=
    set_num_inflorescences (num_inflorescences self * survival_fraction)
      self in
  ret (set_age (age self + dt) self).

(** [Cohort.abortion_fraction] *)
Definition abortion_fraction (ctr : container) (self : t) : option Q :=
  Some (_abortion_fraction self).

(** [Cohort.update] *)
Definition update (ctr : container) (dt : Q) (self : t) : M t :=
  _update abortion_fraction ctr dt self.

(** [set_relative_sink_strength] *)
Definition set_relative_sink_strength (ctr : container) (self : t) : M t :=
  let! res := get (fun h => get_relative_sink_strength ctr h self) in
  ret (set_relative_sink_strength_attr res self).

End Cohort.

Module Female.

Import Cohort.

(** [Female.parameters] *)
Definition p_inflorescence_abortion_t0 : Q := 0.75.
Definition p_inflorescence_abortion_dt : Q := 0.03.
Definition p_bunch_failure_t0 : Q := 0.92.
Definition p_bunch_failure_dt : Q := 0.03.
Definition p_t_anthesis : Q := 0.82.
Definition stress_bunch_failure_asymptote : Q := 0.95.
Definition stress_inflorescence_abortion : Q := 1.
Definition stress_bunch_failure : Q := 1.
Definition stress_inflorescence_abortion_asymptote : Q := 0.95.

Section Female.

Context `{MathLib}.

(** [__init__(container, potential_mass, t_maturity)], with
    [set_event_timings] inlined. *)
Definition init (ctr : container) (potential_mass0 t_maturity0 : Q) : M t :=
  let! x := lift (BunchComponent.init BunchComponent.Stalk
                    (Some potential_mass0) 0 None 1200) in
  let! r := alloc x in
  let T := t_maturity0 in
  let t0 := T * p_inflorescence_abortion_t0 in
  let dt := T * p_inflorescence_abortion_dt in
  let b0 := T * p_bunch_failure_t0 in
  let bdt := T * p_bunch_failure_dt in
  ret {| sex := female;
         num_inflorescences := 1;
         _potential_mass := potential_mass0;
         stalk := r;
         _components := [r];
         age := 0;
         has_flowered := false;
         t_maturity := t_maturity0;
         relative_sink_strength := 0;
         t_anthesis := T * p_t_anthesis;
         inflorescence_abortion_t0 := t0;
         inflorescence_abortion_dt := dt;
         inflorescence_abortion_t1 := t0 + dt;
         bunch_failure_t0 := b0;
         bunch_failure_dt := bdt;
         bunch_failure_t1 := b0 + bdt;
         _stress_index_ := 1;
         (* not attributes of a Female, or not yet *)
         _abortion_fraction := 0; t_maturity_ := 0; _female_fraction := 0;
         _days_in_year := 0; t_differentiation := 0;
         mesocarp_oil := None; mesocarp_fibers := None; kernel := None |}.

Definition _stress_index (ctr : container) (self : t) : Q :=
  match ctr with
  | None => _stress_index_ self
  | Some parent => Container.stress_index parent
  end.

Definition _inflorescence_abortion_fraction (ctr : container) (self : t)
  : option Q :=
  let x := _stress_index ctr self in
  let a := stress_inflorescence_abortion_asymptote in
  let? q := Py.div 1 (exp (a * x)) in
  let res := 1 - q in
  let? _ := Py.assert (Py.geb res 0) in
  let? _ := Py.assert (Py.ltb res 1) in
  Some res.

Definition inflorescence_abortion_fraction (ctr : container) (self : t)
  : option Q :=
  let b := stress_inflorescence_abortion in
  if negb (Py.eqb b 1) then Some 0
  else
    let t := age self in
    let t0 := inflorescence_abortion_t0 self in
    let t1 := inflorescence_abortion_t1 self in
    if Py.geb t t0 && Py.ltb t t1
    then _inflorescence_abortion_fraction ctr self
    else Some 0.

Definition _bunch_failure_fraction (ctr : container) (self : t) : option Q :=
  let x := _stress_index ctr self in
  let a := stress_bunch_failure_asymptote in
  let res := 1 - exp (- a * x) in
  let? _ := Py.assert (Py.geb res 0) in
  let? _ := Py.assert (Py.ltb res 1) in
  Some res.

Definition bunch_failure_fraction (ctr : container) (self : t) : option Q :=
  let b := stress_bunch_failure in
  if negb (Py.eqb b 1) then Some 0
  else
    let t := age self in
    let t0 := bunch_failure_t0 self in
    let t1 := bunch_failure_t1 self in
    if Py.geb t t0 && Py.ltb t t1
    then _bunch_failure_fraction ctr self
    else Some 0.

(** [Female.abortion_fraction] *)
Definition abortion_fraction (ctr : container) (self : t) : option Q :=
  let? i := inflorescence_abortion_fraction ctr self in
  let? b := bunch_failure_fraction ctr self in
  Some (i + b).

Definition set_fruit (self : t) : M t :=
  let pm := Some (_potential_mass self) in
  let! oil := lift (BunchComponent.init BunchComponent.MesocarpOil pm
                      (age self) None (t_maturity self)) in
  let! mesocarp_oil := alloc oil in
  let! fibers := lift (BunchComponent.init BunchComponent.MesocarpFibers pm
                         (age self) None (t_maturity self)) in
  let! mesocarp_fibers := alloc fibers in
  let! kern := lift (BunchComponent.init BunchComponent.Kernels pm
                       (age self) None (t_maturity self)) in
  let! kernel := alloc kern in
  ret (set_fruit_attrs (Some mesocarp_oil) (Some mesocarp_fibers)
         (Some kernel)
         [stalk self; mesocarp_fibers; mesocarp_oil; kernel] true self).

Definition should_trigger_flowering (self : t) : bool :=
  Py.gtb (age self) (t_anthesis self) && negb (has_flowered self).

(** [Female.update] *)
Definition update (ctr : container) (dt : Q) (self : t) : M t :=
  let! self := _update abortion_fraction ctr dt self in
  if should_trigger_flowering self then set_fruit self else ret self.

Definition is_harvestible (self : t) : bool :=
  Py.geb (age self) (t_maturity self).

Definition is_deletable (self : t) : bool :=
  Py.geb (age self) (t_maturity self).

End Female.

End Female.

Module Male.

Import Cohort.

(** [__init__(container, potential_mass, t_maturity)] *)
Definition init (ctr : container) (potential_mass0 t_maturity0 : Q) : M t :=
  let! x := lift (BunchComponent.init BunchComponent.Stalk
                    (Some potential_mass0) 0 None 1200) in
  let! r := alloc x in
  ret {| sex := male;
         _potential_mass := potential_mass0;
         num_inflorescences := 1;
         stalk := r;
         _components := [r];
         age := 0;
         has_flowered := false;
         t_maturity := t_maturity0;
         relative_sink_strength := 0;
         _abortion_fraction := 0;
         (* not attributes of a Male *)
         t_maturity_ := 0; _female_fraction := 0; _days_in_year := 0;
         t_differentiation := 0; t_anthesis := 0;
         inflorescence_abortion_t0 := 0; inflorescence_abortion_dt := 0;
         inflorescence_abortion_t1 := 0; bunch_failure_t0 := 0;
         bunch_failure_dt := 0; bunch_failure_t1 := 0; _stress_index_ := 0;
         mesocarp_oil := None; mesocarp_fibers := None; kernel := None |}.

Definition is_deletable (self : t) : bool :=
  Py.gtb (age self) (t_maturity self).

End Male.

Module Indeterminate.

Import Cohort.

(** [Indeterminate.parameters] *)
Definition p_abortion_fraction : Q := 0.
Definition potential_mass_a : Q := 31.
Definition potential_mass_b : Q := 0.10.
Definition p_t_differentiation : Q := 0.2.
Definition p_bunch_FM_to_DM_ratio : Q := 1.9.

Section Indeterminate.

Context `{MathLib}.

Definition _DAP (ctr : container) : Q :=
  match ctr with
  | None => 0
  | Some c =>
      match Container._palm c with
      | None => 0
      | Some p => Palm.DAP p
      end
  end.

Definition _t_maturity (ctr : container) (self : t) : option Q :=
  match ctr with
  | None => Some (t_maturity_ self)
  | Some parent => Container.t_maturity parent
  end.

Definition days_in_year (ctr : container) (self : t) : option Q :=
  match ctr with
  | None => Some (_days_in_year self)
  | Some c => let? p := Container._palm c in Some (Palm._days_in_year p)
  end.

Definition bunch_FM_to_DM_ratio (ctr : container) : Q :=
  match ctr with
  | None => p_bunch_FM_to_DM_ratio
  | Some _ => Container.bunch_FM_to_DM_ratio
  end.

Definition should_differentiate (self : t) : bool :=
  Py.geb (age self) (t_differentiation self).

Definition potential_mass (ctr : container) (self : t) : option Q :=
  let a := potential_mass_a in
  let b := potential_mass_b in
  let? T := _t_maturity ctr self in
  let? d := days_in_year ctr self in
  let? x := Py.div (_DAP ctr + T - T * p_t_differentiation) d in
  let res_FM := a * (1 - exp (- b * x)) in
  let? res_DM := Py.div res_FM (bunch_FM_to_DM_ratio ctr) in
  let? _ := Py.assert (Py.geb res_DM 0) in
  Some res_DM.

Definition female_fraction (ctr : container) (self : t) : option Q :=
  match ctr with
  | None => Some (_female_fraction self)
  | Some c => Container.female_fraction c
  end.

(** The object under construction by [__init__], given the two
    attributes set last. *)
Definition make (stalk0 : ref) (t_differentiation0 : Q) : t :=
  {| sex := indeterminate;
     num_inflorescences := 1;
     t_maturity_ := 1200;
     _female_fraction := 0.9;
     _days_in_year := 365;
     stalk := stalk0;
     age := 0;
     relative_sink_strength := 0;
     _abortion_fraction := p_abortion_fraction;
     t_differentiation := t_differentiation0;
     (* not attributes of an Indeterminate *)
     _components := []; _potential_mass := 0; t_maturity := 0;
     has_flowered := false; t_anthesis := 0;
     inflorescence_abortion_t0 := 0; inflorescence_abortion_dt := 0;
     inflorescence_abortion_t1 := 0; bunch_failure_t0 := 0;
     bunch_failure_dt := 0; bunch_failure_t1 := 0; _stress_index_ := 0;
     mesocarp_oil := None; mesocarp_fibers := None; kernel := None |}.

(** [__init__(container)] *)
Definition init (ctr : container) : M t :=
  let self := make 0%nat 0 in
  let! x := lift (BunchComponent.init BunchComponent.Stalk
                    (potential_mass ctr self) 0 None 1200) in
  let! r := alloc x in
  let! T := lift (_t_maturity ctr self) in
  ret (make r (T * p_t_differentiation)).

Definition to_male (ctr : container) (self : t) : M t :=
  let! pm := lift (potential_mass ctr self) in
  let! T := lift (_t_maturity ctr self) in
  let! cohort := Male.init ctr pm T in
  let! x := get (fun h => deref h (stalk self)) in
  let! duplicate := lift (BunchComponent.copy x) in
  let! r := alloc duplicate in
  let cohort := set_stalk r cohort in
  let cohort := set_components [stalk cohort] cohort in
  let cohort := set_age (age self) cohort in
  let! ff := lift (female_fraction ctr self) in
  let f := 1 - ff in
  let cohort := set_num_inflorescences (f * num_inflorescences self) cohort in
  ret (set_relative_sink_strength_attr (f * relative_sink_strength self)
         cohort).

Definition to_female (ctr : container) (self : t) : M t :=
  let! pm := lift (potential_mass ctr self) in
  let! T := lift (_t_maturity ctr self) in
  let! cohort := Female.init ctr pm T in
  let! x := get (fun h => deref h (stalk self)) in
  let! duplicate := lift (BunchComponent.copy x) in
  let! r := alloc duplicate in
  let cohort := set_stalk r cohort in
  let cohort := set_components [stalk cohort] cohort in
  let cohort := set_age (age self) cohort in
  let! ff := lift (female_fraction ctr self) in
  let f := ff in
  let cohort := set_num_inflorescences (f * num_inflorescences self) cohort in
  ret (set_relative_sink_strength_attr (f * relative_sink_strength self)
         cohort).

Definition is_deletable (self : t) : bool :=
  Py.gtb (age self) (t_differentiation self).

End Indeterminate.

End Indeterminate.

(** ** generative/cohorts_container.py: the methods over the cohorts *)

Module Cohorts.

Import Cohort.

Section Cohorts.

Context `{MathLib}.

Definition t : Type := Container.t Cohort.t.

(** [cohort.update(dt=dt)] and [cohort.is_deletable], by the class of
    the cohort. *)
Definition cohort_update (ctr : container) (dt : Q) (cohort : Cohort.t)
  : M Cohort.t :=
  match sex cohort with
  | female => Female.update ctr dt cohort
  | _ => Cohort.update ctr dt cohort
  end.

Definition cohort_is_deletable (cohort : Cohort.t) : bool :=
  match sex cohort with
  | indeterminate => Indeterminate.is_deletable cohort
  | female => Female.is_deletable cohort
  | male => Male.is_deletable cohort
  end.

Definition _females (self : t) : list Cohort.t :=
  List.filter (fun x => sex_eqb (sex x) female) (Container.cohorts self).

Definition _males (self : t) : list Cohort.t :=
  List.filter (fun x => sex_eqb (sex x) male) (Container.cohorts self).

Definition _indeterminates (self : t) : list Cohort.t :=
  List.filter (fun x => sex_eqb (sex x) indeterminate) (Container.cohorts self).

Definition get_potential_sink_strength (h : Heap) (self : t) : option Q :=
  let? xs := map_opt (cohort_sink_strength h) (Container.cohorts self) in
  Some (Py.sum xs).

(** [for cohort in self.cohorts: cohort.update(dt=dt)].  The cohorts are
    updated in place, in list order; what a cohort reads from the
    container is none of the cohorts. *)
Definition update_existing_cohorts (dt : Q) (self : t) : M t :=
  let! cs := map_M (cohort_update (Some self) dt) (Container.cohorts self) in
  ret (Container.set_cohorts cs self).

(** The loop of [update_sex], [cohorts_] being the list built so far. *)
Fixpoint update_sex_loop (ctr : container) (cs cohorts_ : list Cohort.t)
  : M (list Cohort.t) :=
  match cs with
  | [] => ret cohorts_
  | cohort :: cs' =>
      if sex_eqb (sex cohort) indeterminate
         && Py.gtb (age cohort) (t_differentiation cohort)
      then
        let! f := Indeterminate.to_female ctr cohort in
        let! m := Indeterminate.to_male ctr cohort in
        update_sex_loop ctr cs' (cohorts_ ++ [f; m])
      else update_sex_loop ctr cs' (cohorts_ ++ [cohort])
  end.

Definition update_sex (self : t) : M t :=
  let! cohorts_ := update_sex_loop (Some self) (Container.cohorts self) [] in
  ret (Container.set_cohorts cohorts_ self).

Definition update_new_cohorts (dt : Q) (self : t) : M t :=
  let! new_cohort := Indeterminate.init (Some self) in
  let! r := lift (Container.initiation_rate self) in
  let new_cohort := set_num_inflorescences (r * dt) new_cohort in
  ret (Container.set_cohorts (Container.cohorts self ++ [new_cohort]) self).

Definition set_relative_sink_strengths (self : t) : M t :=
  let! cs := map_M (set_relative_sink_strength (Some self))
               (Container.cohorts self) in
  ret (Container.set_cohorts cs self).

(** [harvest = [x for x in self._females if x.is_harvestible]] *)
Definition harvest (self : t) : list Cohort.t :=
  List.filter Female.is_harvestible (_females self).

(** [if harvest: last_cohort = harvest[0]; self._bunches = [last_cohort]] *)
Definition record_harvest (self : t) : t :=
  match harvest self with
  | last_cohort :: _ => Container.set__bunches [last_cohort] self
  | [] => self
  end.

(** [self.cohorts = [x for x in self.cohorts if not x.is_deletable]] *)
Definition delete_deletable (self : t) : t :=
  Container.set_cohorts
    (List.filter (fun x => negb (cohort_is_deletable x))
       (Container.cohorts self)) self.

(** [update], up to and including the new cohort of the step. *)
Definition update_population (dt : Q) (self : t) : M t :=
  let self := Container.set_assim_growth (Container.get_assim_growth self) self in
  let! self := update_existing_cohorts dt self in
  let! self := update_sex self in
  update_new_cohorts dt self.

(** [update] *)
Definition update (dt : Q) (self : t) : M t :=
  let! self := update_population dt self in
  let self := record_harvest self in
  let self := delete_deletable self in
  let! pss := get (fun h => get_potential_sink_strength h self) in
  let self := Container.set_potential_sink_strength pss self in
  set_relative_sink_strengths self.

(** The yield figures read the recorded harvest. *)
Definition bunch_count_daily (self : t) : option Q :=
  let N := Py.sum (map num_inflorescences (Container._bunches self)) in
  let dt := Container._dt self in
  Py.div N dt.

End Cohorts.

End Cohorts.

(** ** A rational stand-in for [math.exp]

    Used to run the model on concrete inputs only: positive, 1 at 0,
    increasing, and [exp_approx (- x) = 1 / exp_approx x]. *)

Definition exp_approx (x : Q) : Q :=
  if Py.leb 0 x then 1 + x + x * x / 2
  else 1 / (1 - x + x * x / 2).

Definition approx_lib : MathLib := exp_approx.

(** ** Quantities named in the statements *)

(** The lignification rate: the volume, [mass / density], times the
    monthly rate per day.  There is no other term in it. *)
Definition lignification (p : Palm.t) (self : Trunk.t) : Q :=
  Trunk.mass self / Trunk.density (Some p)
  * (Trunk.lignification_rate / Palm._days_in_month p).

(** What a run without growth adds to the lignified mass, per unit of
    trunk mass. *)
Definition lignification_per_mass (steps : list (Palm.t * Q)) : Q :=
  Py.sum (map (fun '(p, dt) =>
                 1 / Trunk.density (Some p)
                 * (Trunk.lignification_rate / Palm._days_in_month p) * dt)
              steps).

(** The steps of a run without growth. *)
Definition no_growth_step (st : Palm.t * Q) : Prop :=
  Palm.assim_growth_trunk (fst st) == 0 /\ 0 <= Palm.YAP (fst st) /\
  0 < Palm._days_in_month (fst st) /\ 0 < snd st.

(** ** The zero-light scenario for the trunk

    A field planted at the default density of 143 palms and run at
    [dt = 10] days with no assimilates for growth: step [i] is taken
    [10 * (i + 1)] days after planting, in a month of 30 days. *)

Definition zero_light_palm (i : nat) : Palm.t :=
  let days := (Z.of_nat (S i) * 10)%Z in
  {| Palm.planting_density := 143;
     Palm.dt := 10;
     Palm.DAP := inject_Z days;
     Palm.MAP := inject_Z (days / 30);
     Palm.YAP := inject_Z (days / 365);
     Palm._days_in_month := 30;
     Palm._days_in_year := 365;
     Palm.fronds_initiation_rate := 0;
     Palm.assim_growth_trunk := 0;
     Palm.assim_growth_generative := 0 |}.

Definition zero_light_steps (n : nat) : list (Palm.t * Q) :=
  map (fun i => (zero_light_palm i, 10)) (seq 0 n).

(** ** A container in a step of short supply

    Growth assimilates 6, vegetative demand 5, generative demand 10: the
    container holds the allocation the partitioner returns for them. *)

Definition short_supply_allocation : Q :=
  match get_assim_growth_generative 6 5 10 with Some a => a | None => 0 end.

Definition short_supply_container : Container.t unit :=
  Container.set_potential_sink_strength 10
    (Container.set_assim_growth short_supply_allocation (Container.init None)).

(** Two components that differ in their masses at most. *)
Definition same_but_mass (x y : BunchComponent.t) : Prop :=
  BunchComponent.set_mass 0 x = BunchComponent.set_mass 0 y.

(** ** A stand-alone female cohort

    A female cohort without container, of potential mass 10 and
    [t_maturity = 1200], after a first update of 100 days: its stalk is
    100 days old and has a positive potential sink strength. *)

Definition young_female : option (Cohort.t * list BunchComponent.t) :=
  (let! c := Female.init None 10 1200 in
   @Female.update approx_lib None 100 c) [].

Definition young_female_cohort : Cohort.t :=
  match young_female with
  | Some (c, _) => c
  | None => Indeterminate.make 0%nat 0
  end.

Definition young_female_heap : list BunchComponent.t :=
  match young_female with Some (_, h) => h | None => [] end.

(** ** The life of a cohort in its container

    At every step of the container a cohort is updated, by the [update]
    of its class, and then has its relative sink strength set; a step
    is the container at the update, the [dt] of the update and the
    container when the relative sink strength is set. *)

Definition life_step : Type := Cohort.container * Q * Cohort.container.

Definition step_dt (s : life_step) : Q := snd (fst s).

Fixpoint life (update : Cohort.container -> Q -> Cohort.t -> M Cohort.t)
    (steps : list life_step) (self : Cohort.t) : M Cohort.t :=
  match steps with
  | [] => ret self
  | (ctr, dt, ctr') :: steps' =>
      let! self := update ctr dt self in
      let! self := Cohort.set_relative_sink_strength ctr' self in
      life update steps' self
  end.

(** The age windows of a female cohort. *)
Definition in_inflorescence_abortion_window (self : Cohort.t) : Prop :=
  Cohort.inflorescence_abortion_t0 self <= Cohort.age self /\
  Cohort.age self < Cohort.inflorescence_abortion_t1 self.

Definition in_bunch_failure_window (self : Cohort.t) : Prop :=
  Cohort.bunch_failure_t0 self <= Cohort.age self /\
  Cohort.age self < Cohort.bunch_failure_t1 self.

(** The same cohort after a first update of 900 days instead: it is at
    the start of its inflorescence-abortion window. *)

Definition aborting_female : option (Cohort.t * list BunchComponent.t) :=
  (let! c := Female.init None 10 1200 in
   @Female.update approx_lib None 900 c) [].

Definition aborting_female_cohort : Cohort.t :=
  match aborting_female with
  | Some (c, _) => c
  | None => Indeterminate.make 0%nat 0
  end.

Definition aborting_female_heap : list BunchComponent.t :=
  match aborting_female with Some (_, h) => h | None => [] end.

(** ** A stand-alone indeterminate cohort

    An indeterminate cohort without container after two updates, of 100
    and of 200 days: it is past its [t_differentiation] of 240 days and
    its stalk has gained mass. *)

Definition mature_indeterminate : option (Cohort.t * list BunchComponent.t) :=
  (let! c := @Indeterminate.init approx_lib None in
   let! c := Cohort.update None 100 c in
   Cohort.update None 200 c) [].

Definition mature_indeterminate_cohort : Cohort.t :=
  match mature_indeterminate with
  | Some (c, _) => c
  | None => Indeterminate.make 0%nat 0
  end.

Definition mature_indeterminate_heap : list BunchComponent.t :=
  match mature_indeterminate with Some (_, h) => h | None => [] end.

(** Two components of the same sub-class. *)
Definition same_class (x y : BunchComponent.t) : Prop :=
  BunchComponent.cls x = BunchComponent.cls y.

(** The same female cohort, newly made; a first update of 985 days
    takes it past its [t_anthesis] of 984 days. *)

Definition flowering_female : option (Cohort.t * list BunchComponent.t) :=
  (let! c := Female.init None 10 1200 in ret c) [].

Definition flowering_female_cohort : Cohort.t :=
  match flowering_female with
  | Some (c, _) => c
  | None => Indeterminate.make 0%nat 0
  end.

Definition flowering_female_heap : list BunchComponent.t :=
  match flowering_female with Some (_, h) => h | None => [] end.

(** ** A population with two female cohorts about to ripen

    A container in a field ten years after planting, with two female
    cohorts of [t_maturity = 1200] days, the first 1195 and the second
    1191 days old: a step of 10 days makes both of them harvestible. *)

Definition ripening_palm : Palm.t :=
  {| Palm.planting_density := 143;
     Palm.dt := 10;
     Palm.DAP := 3650;
     Palm.MAP := 120;
     Palm.YAP := 10;
     Palm._days_in_month := 30;
     Palm._days_in_year := 365;
     Palm.fronds_initiation_rate := 0.06;
     Palm.assim_growth_trunk := 5;
     Palm.assim_growth_generative := 20 |}.

Definition ripening : option (Container.t Cohort.t * list BunchComponent.t) :=
  let c0 : Container.t Cohort.t := Container.init (Some ripening_palm) in
  (let! f1 := Female.init (Some c0) 10 1200 in
   let! f1 := @Female.update approx_lib (Some c0) 1195 f1 in
   let! f2 := Female.init (Some c0) 10 1200 in
   let! f2 := @Female.update approx_lib (Some c0) 1191 f2 in
   ret (Container.set_cohorts [f1; f2] c0)) [].

Definition ripening_container : Container.t Cohort.t :=
  match ripening with
  | Some (c, _) => c
  | None => Container.init None
  end.

Definition ripening_heap : list BunchComponent.t :=
  match ripening with Some (_, h) => h | None => [] end.

(** What a step of the zero-light scenario adds to the lignified mass,
    per unit of trunk mass, when the palm is [Y] years old. *)
Definition zero_light_gain (Y : Z) : Q :=
  1 / (Trunk.density_a * inject_Z Y + Trunk.density_b)
  * (Trunk.lignification_rate / 30) * 10.

(** ** Components as the constructors leave them

    The closure of potential growth is the one made from the attributes
    [t_maturity] and [potential_mass], the potential sink strength is
    the one of the age, and the two prototyping attributes are 0. *)

Definition well_formed (x : BunchComponent.t) : Prop :=
  Quadratic.make_quadratic_function
    (BunchComponent.t_maturity x
     * BunchComponent.t_growth_start
         (BunchComponent.parameters (BunchComponent.cls x)))
    (BunchComponent.t_maturity x
     * BunchComponent.t_growth_end
         (BunchComponent.parameters (BunchComponent.cls x)))
    (BunchComponent.potential_mass x)
  = Some (BunchComponent._potential_growth_function x) /\
  BunchComponent.get_potential_sink_strength x
  = Some (BunchComponent.potential_sink_strength x) /\
  BunchComponent._assim_growth x = 0 /\
  BunchComponent._total_mass x = 0.


(** What a run adds to the mass of the trunk: the growth assimilates of
    each step, converted, times the length of the step. *)
Definition trunk_growth (steps : list (Palm.t * Q)) : Q :=
  Py.sum (map (fun '(p, dt) =>
                 Trunk.conversion_efficiency * Palm.assim_growth_trunk p * dt)
              steps).

(** ** The heap between two points of a run

    No object has gone and none has changed its sub-class; and if every
    component was well formed, every component is. *)
Definition heap_kept (h h' : list BunchComponent.t) : Prop :=
  (forall r x, h !! r = Some x ->
     exists x', h' !! r = Some x' /\
                BunchComponent.cls x' = BunchComponent.cls x) /\
  (Forall well_formed h -> Forall well_formed h').

(** ** The population and its components

    The components of the cohorts of a population, cohort by cohort. *)
Definition population_components (cs : list Cohort.t) : list nat :=
  List.concat (map Cohort.components cs).

(** No component belongs to two cohorts, or twice to one; every
    component is an object of the heap; and the stalk of a cohort is
    one of its components. *)
Definition separate (h : list BunchComponent.t) (cs : list Cohort.t) : Prop :=
  List.NoDup (population_components cs) /\
  Forall (fun r => (r < length h)%nat) (population_components cs) /\
  Forall (fun c => In (Cohort.stalk c) (Cohort.components c)) cs.

(** ** A consistent state of the population

    The cohorts are separate, every component is well formed, and no
    female cohort has a time to maturity of 0. *)
Definition consistent (h : list BunchComponent.t) (cs : list Cohort.t)
  : Prop :=
  separate h cs /\ Forall well_formed h /\
  Forall (fun c => Cohort.sex c = Cohort.female ->
                   ~ Cohort.t_maturity c == 0) cs.

(** A field in which the container can be updated: its year and its
    month have days, and it has been planted. *)
Definition field_ok (p : Palm.t) : Prop :=
  0 < Palm._days_in_year p /\ ~ Palm._days_in_month p == 0 /\
  0 <= Palm.DAP p.
(** ** Facts on Python numbers *)

Lemma ltb_true (a b : Q) : Py.ltb a b = true <-> a < b.
Proof.
  unfold Py.ltb. destruct (Qle_bool b a) eqn:E; simpl.
  - apply Qle_bool_iff in E. split; [discriminate | lra].
  - split; [intros _ | reflexivity].
    destruct (Qlt_le_dec a b) as [H | H]; [exact H |].
    apply Qle_bool_iff in H. congruence.
Qed.

Lemma ltb_false (a b : Q) : Py.ltb a b = false <-> b <= a.
Proof.
  destruct (Py.ltb a b) eqn:E.
  - apply ltb_true in E. split; [discriminate | lra].
  - split; [intros _ | reflexivity].
    destruct (Qlt_le_dec a b) as [H | H]; [| exact H].
    apply ltb_true in H. congruence.
Qed.

Lemma leb_true (a b : Q) : Py.leb a b = true <-> a <= b.
Proof. apply Qle_bool_iff. Qed.

Lemma leb_false (a b : Q) : Py.leb a b = false <-> b < a.
Proof.
  unfold Py.leb. destruct (Qle_bool a b) eqn:E.
  - apply Qle_bool_iff in E. split; [discriminate | lra].
  - split; [intros _ | reflexivity].
    destruct (Qlt_le_dec b a) as [H | H]; [exact H |].
    apply Qle_bool_iff in H. congruence.
Qed.

Lemma eqb_true (a b : Q) : Py.eqb a b = true <-> a == b.
Proof. apply Qeq_bool_iff. Qed.

Lemma eqb_false (a b : Q) : Py.eqb a b = false <-> ~ a == b.
Proof.
  unfold Py.eqb. destruct (Qeq_bool a b) eqn:E.
  - apply Qeq_bool_iff in E. split; [discriminate | tauto].
  - split; [intros _ H | reflexivity].
    apply Qeq_bool_iff in H. congruence.
Qed.

Lemma min_spec (a b : Q) :
  (b < a /\ Py.min a b = b) \/ (a <= b /\ Py.min a b = a).
Proof.
  unfold Py.min. destruct (Py.ltb b a) eqn:E.
  - left. apply ltb_true in E. auto.
  - right. apply ltb_false in E. auto.
Qed.

Lemma max_spec (a b : Q) :
  (a < b /\ Py.max a b = b) \/ (b <= a /\ Py.max a b = a).
Proof.
  unfold Py.max. destruct (Py.ltb a b) eqn:E.
  - left. apply ltb_true in E. auto.
  - right. apply ltb_false in E. auto.
Qed.

Lemma min_Qmin (a b : Q) : Py.min a b == Qmin a b.
Proof.
  destruct (min_spec a b) as [[H ->] | [H ->]].
  - rewrite Q.min_r; lra.
  - rewrite Q.min_l; lra.
Qed.

Lemma max_Qmax (a b : Q) : Py.max a b == Qmax a b.
Proof.
  destruct (max_spec a b) as [[H ->] | [H ->]].
  - rewrite Q.max_r; lra.
  - rewrite Q.max_l; lra.
Qed.

Lemma div_Some (a b q : Q) : Py.div a b = Some q -> ~ b == 0 /\ q = a / b.
Proof.
  unfold Py.div. destruct (Py.eqb b 0) eqn:E; [discriminate |].
  intros [= <-]. apply eqb_false in E. auto.
Qed.

Lemma div_nonzero (a b : Q) : ~ b == 0 -> Py.div a b = Some (a / b).
Proof.
  intros H. unfold Py.div. apply eqb_false in H. now rewrite H.
Qed.

Lemma div_zero (a b : Q) : b == 0 -> Py.div a b = None.
Proof.
  intros H. unfold Py.div. apply eqb_true in H. now rewrite H.
Qed.

(** *** Sums *)

Lemma fold_left_Qplus (xs : list Q) (a : Q) :
  fold_left Qplus xs a == a + Py.sum xs.
Proof.
  unfold Py.sum. revert a. induction xs as [| x xs IH]; intros a; simpl.
  - lra.
  - rewrite IH, (IH (0 + x)). lra.
Qed.

Lemma sum_nil : Py.sum [] == 0.
Proof. reflexivity. Qed.

Lemma sum_cons (x : Q) (xs : list Q) : Py.sum (x :: xs) == x + Py.sum xs.
Proof. unfold Py.sum at 1. simpl. rewrite fold_left_Qplus. lra. Qed.

Lemma sum_app (xs ys : list Q) : Py.sum (xs ++ ys) == Py.sum xs + Py.sum ys.
Proof.
  induction xs as [| x xs IH]; simpl.
  - rewrite sum_nil. lra.
  - rewrite !sum_cons, IH. lra.
Qed.

Lemma sum_nonneg (xs : list Q) : Forall (Qle 0) xs -> 0 <= Py.sum xs.
Proof.
  induction 1 as [| x xs Hx _ IH].
  - rewrite sum_nil. lra.
  - rewrite sum_cons. lra.
Qed.

Lemma sum_scale (k : Q) (xs : list Q) :
  Py.sum (array_scale k xs) == k * Py.sum xs.
Proof.
  induction xs as [| x xs IH]; simpl.
  - rewrite sum_nil. lra.
  - rewrite !sum_cons, IH. lra.
Qed.

Lemma sum_array_add (xs ys : list Q) :
  length xs = length ys ->
  Py.sum (array_add xs ys) == Py.sum xs + Py.sum ys.
Proof.
  revert ys. induction xs as [| x xs IH]; intros [| y ys] Hlen;
    simpl in *; try discriminate.
  - rewrite sum_nil. lra.
  - rewrite !sum_cons, IH by congruence. lra.
Qed.

(** ** Partitioning *)

Lemma clamp_negative_nonneg (Ss : list Q) :
  Forall (Qle 0) Ss -> clamp_negative Ss = Ss.
Proof.
  induction 1 as [| s Ss Hs _ IH]; simpl; [reflexivity |].
  apply ltb_false in Hs. rewrite Hs. f_equal. exact IH.
Qed.

Lemma Forall_removelast {A} (P : A -> Prop) (xs : list A) :
  Forall P xs -> Forall P (removelast xs).
Proof.
  induction 1 as [| x xs Hx Hxs IH]; simpl; [constructor |].
  destruct xs; [constructor | constructor; assumption].
Qed.

Lemma length_removelast {A} (xs : list A) :
  xs <> [] -> S (length (removelast xs)) = length xs.
Proof.
  induction xs as [| x xs IH]; intros Hne; [congruence |].
  destruct xs as [| y ys]; [reflexivity |].
  change (removelast (x :: y :: ys)) with (x :: removelast (y :: ys)).
  simpl length. f_equal. apply IH. discriminate.
Qed.

Lemma prioritized_step_eq (Ss : list Q) (S0 D : Q) :
  prioritized_step (Ss, S0) D
  = if Py.ltb D S0 then (Ss ++ [D], S0 - D) else (Ss ++ [S0], 0).
Proof. reflexivity. Qed.

(** The loop keeps: the shares handed out so far and the supply left are
    nonnegative and add up to what there was. *)
Lemma prioritized_loop_inv (Ds acc : list Q) (S0 : Q) :
  Forall (Qle 0) Ds -> Forall (Qle 0) acc -> 0 <= S0 ->
  let st := fold_left prioritized_step Ds (acc, S0) in
  Forall (Qle 0) (fst st) /\ 0 <= snd st /\
  Py.sum (fst st) + snd st == Py.sum acc + S0 /\
  length (fst st) = (length acc + length Ds)%nat.
Proof.
  intros HDs. revert acc S0.
  induction HDs as [| D Ds HD _ IH]; intros acc S0 Hacc HS0;
    cbv zeta; simpl fold_left.
  - simpl. split; [assumption |]. split; [assumption |]. split; [lra | lia].
  - rewrite prioritized_step_eq.
    destruct (Py.ltb D S0) eqn:E.
    + apply ltb_true in E.
      destruct (IH (acc ++ [D]) (S0 - D)) as (H1 & H2 & H3 & H4).
      { apply Forall_app. split; [assumption | repeat constructor; assumption]. }
      { lra. }
      split; [assumption |]. split; [assumption |]. split.
      * rewrite H3, sum_app, sum_cons, sum_nil. lra.
      * rewrite H4, length_app. simpl. lia.
    + apply ltb_false in E.
      destruct (IH (acc ++ [S0]) 0) as (H1 & H2 & H3 & H4).
      { apply Forall_app. split; [assumption | repeat constructor; assumption]. }
      { lra. }
      split; [assumption |]. split; [assumption |]. split.
      * rewrite H3, sum_app, sum_cons, sum_nil. lra.
      * rewrite H4, length_app. simpl. lia.
Qed.

Lemma prioritized_partitioning_sum (S0 : Q) (Ds : list Q) :
  0 <= S0 -> Forall (Qle 0) Ds ->
  Py.sum (prioritized_partitioning S0 Ds) == S0 /\
  Forall (Qle 0) (prioritized_partitioning S0 Ds).
Proof.
  intros HS HDs. unfold prioritized_partitioning.
  pose proof (prioritized_loop_inv (removelast Ds) [] S0
                (Forall_removelast _ _ HDs) (List.Forall_nil _) HS) as H.
  cbv zeta in H. destruct H as (H1 & H2 & H3 & _).
  assert (Hall : Forall (Qle 0)
    (fst (fold_left prioritized_step (removelast Ds) ([], S0)) ++
     [snd (fold_left prioritized_step (removelast Ds) ([], S0))])).
  { apply Forall_app. split; [assumption | repeat constructor; assumption]. }
  rewrite clamp_negative_nonneg by exact Hall.
  split; [| exact Hall].
  rewrite sum_app, sum_cons, sum_nil. rewrite sum_nil in H3. lra.
Qed.

Lemma prioritized_partitioning_length (S0 : Q) (Ds : list Q) :
  Ds <> [] -> length (prioritized_partitioning S0 Ds) = length Ds.
Proof.
  intros Hne. unfold prioritized_partitioning, clamp_negative.
  rewrite length_map, length_app. simpl.
  assert (H : forall l acc s,
    length (fst (fold_left prioritized_step l (acc, s)))
    = (length acc + length l)%nat).
  { induction l as [| D l IH]; intros acc s; simpl fold_left; [simpl; lia |].
    rewrite prioritized_step_eq.
    destruct (Py.ltb D s); rewrite IH, length_app; simpl; lia. }
  rewrite H. simpl. rewrite <- (length_removelast Ds Hne). lia.
Qed.

Lemma proportionate_partitioning_Some (S0 : Q) (Ds : list Q) :
  ~ Py.sum Ds == 0 ->
  proportionate_partitioning S0 Ds
  = Some (map (fun D => S0 / Py.sum Ds * D) Ds).
Proof.
  intros H. unfold proportionate_partitioning.
  now rewrite div_nonzero.
Qed.

Lemma sum_map_scale (c : Q) (Ds : list Q) :
  Py.sum (map (fun D => c * D) Ds) == c * Py.sum Ds.
Proof. exact (sum_scale c Ds). Qed.

(** The two arrays blended by [parametrized_partitioning] have the same
    length whenever the proportionate one exists. *)
Lemma partitionings_same_length (S0 : Q) (Ds prop : list Q) :
  proportionate_partitioning S0 Ds = Some prop ->
  length (prioritized_partitioning S0 Ds) = length prop.
Proof.
  unfold proportionate_partitioning.
  destruct (Py.div S0 (Py.sum Ds)) as [scalar |] eqn:E; [| discriminate].
  intros [= <-]. rewrite length_map.
  apply prioritized_partitioning_length.
  intros ->. apply div_Some in E. destruct E as [E _]. apply E. reflexivity.
Qed.

Lemma parametrized_partitioning_sum (S0 : Q) (Ds : list Q) (k : Q) :
  0 <= S0 -> Forall (Qle 0) Ds -> 0 < Py.sum Ds ->
  exists Ss, parametrized_partitioning S0 Ds k = Some Ss /\ Py.sum Ss == S0.
Proof.
  intros HS HDs Hpos.
  assert (Hnz : ~ Py.sum Ds == 0) by lra.
  unfold parametrized_partitioning.
  pose proof (partitionings_same_length S0 Ds) as Hlen.
  rewrite (proportionate_partitioning_Some S0 Ds Hnz) in *.
  eexists. split; [reflexivity |].
  rewrite sum_array_add.
  2:{ unfold array_scale. rewrite !length_map.
      rewrite (Hlen _ eq_refl). now rewrite length_map. }
  rewrite !sum_scale, sum_map_scale.
  destruct (prioritized_partitioning_sum S0 Ds HS HDs) as [-> _].
  field. exact Hnz.
Qed.

(** ** The claims on partitioning *)

(** C1, as amended.  For a supply [S >= 0] and demands [Ds], each
    nonnegative and of positive sum, [parametrized_partitioning S Ds k]
    returns an allocation whose sum is the supply [S], for every [k]; it
    is [min(S, sum(Ds))] exactly when the supply does not exceed the
    total demand. *)
Theorem parametrized_partitioning_conserves_supply (S0 : Q) (Ds : list Q) (k : Q) :
  0 <= S0 -> Forall (Qle 0) Ds -> 0 < Py.sum Ds ->
  exists Ss,
    parametrized_partitioning S0 Ds k = Some Ss /\
    Py.sum Ss == S0 /\
    (S0 <= Py.sum Ds -> Py.sum Ss == Qmin S0 (Py.sum Ds)).
Proof.
  intros HS HDs Hpos.
  destruct (parametrized_partitioning_sum S0 Ds k HS HDs Hpos) as (Ss & E & Hsum).
  exists Ss. split; [exact E |]. split; [exact Hsum |].
  intros Hle. rewrite Hsum, Q.min_l; [reflexivity | exact Hle].
Qed.

Lemma parametrized_partitioning_conserves_supply_witness :
  exists Ss,
    parametrized_partitioning 4 [2; 1] 0.8 = Some Ss /\
    Py.sum Ss == 4 /\
    (4 <= Py.sum [2; 1] -> Py.sum Ss == Qmin 4 (Py.sum [2; 1])).
Proof.
  apply (parametrized_partitioning_conserves_supply 4 [2; 1] 0.8).
  - vm_compute. discriminate.
  - repeat constructor; vm_compute; discriminate.
  - vm_compute. reflexivity.
Defined.

(** C1, as stated, fails when the supply exceeds the total demand: with
    supply 4, demands [2, 1] and the program's own [k = 0.8] the
    allocation sums to 4, and [min(4, 3) = 3]. *)
Lemma parametrized_partitioning_exceeds_total_demand :
  0 <= 4 /\ Forall (Qle 0) [2; 1] /\ 0 < Py.sum [2; 1] /\
  0 <= vegetative_priority <= 1 /\
  exists Ss,
    parametrized_partitioning 4 [2; 1] vegetative_priority = Some Ss /\
    Py.sum Ss == 4 /\
    Qmin 4 (Py.sum [2; 1]) == 3 /\
    ~ Qabs (Py.sum Ss - Qmin 4 (Py.sum [2; 1])) <= 1e-9.
Proof.
  split; [vm_compute; discriminate |].
  split; [repeat constructor; vm_compute; discriminate |].
  split; [vm_compute; reflexivity |].
  split; [split; vm_compute; discriminate |].
  eexists. split; [vm_compute; reflexivity |].
  split; [vm_compute; reflexivity |].
  split; [vm_compute; reflexivity |].
  vm_compute. intros H. apply H. reflexivity.
Qed.

(** C9.  With a total demand of 0, [proportionate_partitioning] returns
    nothing: the division by the total demand raises, for every supply,
    and so does [parametrized_partitioning], which calls it. *)
Theorem proportionate_partitioning_zero_demand (S0 : Q) (Ds : list Q) :
  Py.sum Ds == 0 ->
  proportionate_partitioning S0 Ds = None /\
  forall k, parametrized_partitioning S0 Ds k = None.
Proof.
  intros H.
  assert (E : proportionate_partitioning S0 Ds = None).
  { unfold proportionate_partitioning. now rewrite div_zero. }
  split; [exact E |].
  intros k. unfold parametrized_partitioning. now rewrite E.
Qed.

Lemma proportionate_partitioning_zero_demand_witness :
  proportionate_partitioning 6 [0; 0] = None /\
  forall k, parametrized_partitioning 6 [0; 0] k = None.
Proof.
  apply (proportionate_partitioning_zero_demand 6 [0; 0]).
  vm_compute. reflexivity.
Defined.

(** C10.  The three examples of [prioritized_partitioning]. *)
Theorem prioritized_partitioning_examples :
  Forall2 Qeq (prioritized_partitioning 2 [1.5; 1]) [1.5; 0.5] /\
  Forall2 Qeq (prioritized_partitioning 2 [2; 1]) [2; 0] /\
  Forall2 Qeq (prioritized_partitioning 4 [2; 1]) [2; 2].
Proof.
  split; [| split]; vm_compute;
    (constructor; [reflexivity |]); (constructor; [reflexivity |]);
    constructor.
Qed.

(** ** The trunk *)

Lemma assert_Some (b : bool) (u : unit) : Py.assert b = Some u -> b = true.
Proof. destruct b; [reflexivity | discriminate]. Qed.

Lemma geb_true (a b : Q) : Py.geb a b = true <-> b <= a.
Proof. unfold Py.geb. apply leb_true. Qed.

Lemma gtb_true (a b : Q) : Py.gtb a b = true <-> b < a.
Proof. unfold Py.gtb. apply ltb_true. Qed.

Lemma geb_false (a b : Q) : Py.geb a b = false <-> a < b.
Proof. unfold Py.geb. apply leb_false. Qed.

Lemma gtb_false (a b : Q) : Py.gtb a b = false <-> a <= b.
Proof. unfold Py.gtb. apply ltb_false. Qed.

Lemma lignified_mass_change_rate_Some (palm : option Palm.t)
    (self : Trunk.t) (rate : Q) :
  Trunk.lignified_mass_change_rate palm self = Some rate ->
  exists p, palm = Some p /\ ~ Trunk.density palm == 0 /\
            ~ Palm._days_in_month p == 0 /\ rate = lignification p self.
Proof.
  unfold Trunk.lignified_mass_change_rate, Trunk.volume.
  destruct (Py.div (Trunk.mass self) (Trunk.density palm)) as [V |] eqn:EV;
    [| discriminate].
  destruct palm as [p |]; [| discriminate].
  destruct (Py.div Trunk.lignification_rate (Palm._days_in_month p))
    as [r |] eqn:Er; [| discriminate].
  intros [= <-]. apply div_Some in EV, Er.
  destruct EV as [Hd ->], Er as [Hm ->].
  exists p. repeat split; assumption.
Qed.

(** What a step of the trunk that returns has done. *)
Lemma trunk_update_Some (palm : option Palm.t) (dt : Q) (self self' : Trunk.t) :
  Trunk.update palm dt self = Some self' ->
  exists p,
    palm = Some p /\ ~ Trunk.density palm == 0 /\
    ~ Palm._days_in_month p == 0 /\
    Trunk.lignified_mass self'
    = Trunk.lignified_mass self + lignification p self * dt /\
    Trunk.mass self'
    = Trunk.mass self
      + (Trunk.conversion_efficiency * Palm.assim_growth_trunk p
         - Trunk.mass_loss_rate) * dt /\
    0 <= Trunk.mass self' /\ 0 < Trunk.lignified_mass self'.
Proof.
  unfold Trunk.update.
  destruct (Trunk.lignified_mass_change_rate palm self) as [rate |] eqn:E;
    [| discriminate].
  apply lignified_mass_change_rate_Some in E.
  destruct E as (p & -> & Hd & Hm & ->).
  cbv zeta.
  match goal with
  | |- context [Py.assert ?b] => destruct (Py.assert b) as [u1 |] eqn:A1
  end; [| discriminate].
  match goal with
  | |- context [Py.assert (Py.gtb ?a ?b)] =>
      destruct (Py.assert (Py.gtb a b)) as [u2 |] eqn:A2
  end; [| discriminate].
  intros [= <-]. apply assert_Some in A1, A2.
  apply geb_true in A1. apply gtb_true in A2. simpl in A1, A2.
  exists p. simpl. repeat split; assumption.
Qed.

(** A step returns when its divisors are not zero and its two assertions
    hold. *)
Lemma trunk_update_returns (p : Palm.t) (dt : Q) (self : Trunk.t) :
  ~ Trunk.density (Some p) == 0 -> ~ Palm._days_in_month p == 0 ->
  0 <= Trunk.mass self
       + (Trunk.conversion_efficiency * Palm.assim_growth_trunk p
          - Trunk.mass_loss_rate) * dt ->
  0 < Trunk.lignified_mass self + lignification p self * dt ->
  exists self', Trunk.update (Some p) dt self = Some self'.
Proof.
  intros Hd Hm Hmass Hlig.
  unfold Trunk.update, Trunk.lignified_mass_change_rate, Trunk.volume.
  rewrite (div_nonzero _ _ Hd), (div_nonzero _ _ Hm). cbv zeta.
  apply geb_true in Hmass. apply gtb_true in Hlig.
  unfold lignification in Hlig.
  simpl. unfold Trunk.mass_change_rate, Trunk.mass_growth_rate. simpl.
  rewrite Hmass. simpl. rewrite Hlig. simpl. eauto.
Qed.

Lemma trunk_density_pos (p : Palm.t) :
  0 <= Palm.YAP p -> 0 < Trunk.density (Some p).
Proof.
  intros H. unfold Trunk.density, Trunk._YAP, Trunk.density_a, Trunk.density_b.
  assert (0 <= 7.62 * Palm.YAP p) by (apply Qmult_le_0_compat; [lra | exact H]).
  lra.
Qed.

Lemma lignification_nonneg (p : Palm.t) (self : Trunk.t) :
  0 <= Palm.YAP p -> 0 < Palm._days_in_month p -> 0 <= Trunk.mass self ->
  0 <= lignification p self.
Proof.
  intros HY Hm Hmass. unfold lignification.
  pose proof (trunk_density_pos p HY) as Hd.
  apply Qmult_le_0_compat.
  - apply Qle_shift_div_l; [exact Hd | lra].
  - apply Qle_shift_div_l; [exact Hm |]. unfold Trunk.lignification_rate. lra.
Qed.

(** After [__init__], and after any number of steps, the mass is not
    negative: [update] asserts it. *)
Lemma trunk_mass_nonneg (palm0 : Palm.t) (steps : list (Palm.t * Q))
    (s0 s : Trunk.t) :
  0 <= Palm.planting_density palm0 ->
  Trunk.init (Some palm0) = Some s0 ->
  Trunk.run steps s0 = Some s ->
  0 <= Trunk.mass s.
Proof.
  intros Hpd Hinit.
  assert (H0 : 0 <= Trunk.mass s0).
  { unfold Trunk.init in Hinit. simpl in Hinit. injection Hinit as <-. simpl.
    unfold Trunk.initial_mass.
    apply Qmult_le_0_compat; [exact Hpd | lra]. }
  clear Hinit. revert s0 H0.
  induction steps as [| [p dt] steps IH]; intros s0 H0 Hrun; simpl in Hrun.
  - injection Hrun as <-. exact H0.
  - destruct (Trunk.update (Some p) dt s0) as [s1 |] eqn:E; [| discriminate].
    apply trunk_update_Some in E.
    destruct E as (_ & _ & _ & _ & _ & _ & Hm & _).
    exact (IH s1 Hm Hrun).
Qed.

Lemma lignification_pos (p : Palm.t) (self : Trunk.t) :
  0 <= Palm.YAP p -> 0 < Palm._days_in_month p -> 0 < Trunk.mass self ->
  0 < lignification p self.
Proof.
  intros HY Hm Hmass. unfold lignification.
  pose proof (trunk_density_pos p HY) as Hd.
  apply Qmult_lt_0_compat.
  - apply Qlt_shift_div_l; [exact Hd | lra].
  - apply Qlt_shift_div_l; [exact Hm |]. unfold Trunk.lignification_rate. lra.
Qed.

(** Without assimilates for growth the run goes through, the mass stays
    and the lignified mass adds up step after step, whatever it has
    reached. *)
Lemma zero_growth_run (steps : list (Palm.t * Q)) (s : Trunk.t) :
  Forall no_growth_step steps ->
  0 < Trunk.mass s -> 0 <= Trunk.lignified_mass s ->
  exists s',
    Trunk.run steps s = Some s' /\
    Trunk.mass s' == Trunk.mass s /\
    Trunk.lignified_mass s'
    == Trunk.lignified_mass s + Trunk.mass s * lignification_per_mass steps.
Proof.
  intros Hsteps. revert s.
  induction Hsteps as [| [p dt] steps (Hag & HY & Hm & Hdt) _ IH];
    intros s Hmass Hlig.
  - exists s. split; [reflexivity |]. split; [reflexivity |].
    unfold lignification_per_mass. simpl. rewrite sum_nil. lra.
  - simpl in Hag, HY, Hm, Hdt.
    pose proof (trunk_density_pos p HY) as Hd.
    pose proof (lignification_pos p s HY Hm Hmass) as Hl.
    assert (Hzero : (Trunk.conversion_efficiency * Palm.assim_growth_trunk p
                     - Trunk.mass_loss_rate) * dt == 0).
    { rewrite Hag. unfold Trunk.mass_loss_rate, Trunk.mass_loss_rate_value,
        Trunk.conversion_efficiency. ring. }
    assert (Hgain : 0 < lignification p s * dt)
      by (apply Qmult_lt_0_compat; assumption).
    destruct (trunk_update_returns p dt s) as [s1 E1].
    { intros Hd0. rewrite Hd0 in Hd. lra. }
    { intros Hm0. rewrite Hm0 in Hm. lra. }
    { rewrite Hzero. lra. }
    { lra. }
    pose proof (trunk_update_Some _ _ _ _ E1)
      as (p' & [= <-] & _ & _ & EL & EM & _ & _).
    assert (EM' : Trunk.mass s1 == Trunk.mass s) by (rewrite EM, Hzero; ring).
    destruct (IH s1) as (s' & Erun & Hm' & Hl');
      [rewrite EM'; exact Hmass | rewrite EL; lra |].
    exists s'. simpl. rewrite E1. split; [exact Erun |].
    split; [rewrite Hm'; exact EM' |].
    rewrite Hl', EM', EL.
    unfold lignification_per_mass. simpl map. rewrite sum_cons.
    fold (lignification_per_mass steps).
    unfold lignification. field.
    split; lra.
Qed.

Lemma zero_light_steps_no_growth (n : nat) :
  Forall no_growth_step (zero_light_steps n).
Proof.
  unfold zero_light_steps. apply List.Forall_forall. intros st Hin.
  apply in_map_iff in Hin. destruct Hin as (i & <- & _).
  unfold no_growth_step. simpl.
  split; [reflexivity |]. split; [| split; reflexivity].
  change 0 with (inject_Z 0). rewrite <- Zle_Qle.
  apply Z.div_pos; lia.
Qed.

(** C3, as amended.  Along every trajectory of a field planted with a
    nonnegative density, a step taken at a nonnegative palm age, in a
    month of positive length and with [dt >= 0], adds to the lignified
    mass [mass / density * (lignification_rate / days_in_month) * dt],
    computed from the mass before the step: the lignified mass does not
    decrease.  The rate has no cap, see
    [lignified_mass_exceeds_mass]. *)
Theorem lignified_mass_never_decreases
    (palm0 : Palm.t) (steps : list (Palm.t * Q)) (s0 s : Trunk.t)
    (p : Palm.t) (dt : Q) (s' : Trunk.t) :
  0 <= Palm.planting_density palm0 ->
  Trunk.init (Some palm0) = Some s0 ->
  Trunk.run steps s0 = Some s ->
  0 <= Palm.YAP p -> 0 < Palm._days_in_month p -> 0 <= dt ->
  Trunk.update (Some p) dt s = Some s' ->
  Trunk.lignified_mass s'
  = Trunk.lignified_mass s
    + Trunk.mass s / Trunk.density (Some p)
      * (Trunk.lignification_rate / Palm._days_in_month p) * dt /\
  Trunk.lignified_mass s <= Trunk.lignified_mass s'.
Proof.
  intros Hpd Hinit Hrun HY Hm Hdt E.
  pose proof (trunk_mass_nonneg palm0 steps s0 s Hpd Hinit Hrun) as Hmass.
  pose proof (trunk_update_Some _ _ _ _ E)
    as (p' & [= <-] & _ & _ & EL & _ & _ & _).
  split; [exact EL |].
  rewrite EL.
  pose proof (lignification_nonneg p s HY Hm Hmass) as Hl.
  assert (0 <= lignification p s * dt)
    by (apply Qmult_le_0_compat; assumption).
  lra.
Qed.

Lemma lignified_mass_never_decreases_witness :
  exists s0 s',
    Trunk.init (Some (zero_light_palm 0)) = Some s0 /\
    Trunk.update (Some (zero_light_palm 0)) 10 s0 = Some s' /\
    Trunk.lignified_mass s0 <= Trunk.lignified_mass s'.
Proof.
  eexists. eexists.
  split; [reflexivity |]. split; [vm_compute; reflexivity |].
  refine (proj2 (lignified_mass_never_decreases
                   (zero_light_palm 0) [] _ _ (zero_light_palm 0) 10 _
                   _ eq_refl eq_refl _ _ _ _)).
  - vm_compute. discriminate.
  - vm_compute. discriminate.
  - vm_compute. reflexivity.
  - vm_compute. discriminate.
  - vm_compute. reflexivity.
Defined.

Lemma lignification_per_mass_cons (st : Palm.t * Q) (steps : list (Palm.t * Q)) :
  lignification_per_mass (st :: steps)
  == 1 / Trunk.density (Some (fst st))
     * (Trunk.lignification_rate / Palm._days_in_month (fst st)) * snd st
     + lignification_per_mass steps.
Proof.
  unfold lignification_per_mass. simpl map. rewrite sum_cons.
  destruct st as [p dt]. reflexivity.
Qed.

Lemma lignification_per_mass_app (l1 l2 : list (Palm.t * Q)) :
  lignification_per_mass (l1 ++ l2)
  == lignification_per_mass l1 + lignification_per_mass l2.
Proof.
  unfold lignification_per_mass. rewrite map_app. apply sum_app.
Qed.

(** A step of the scenario taken before the palm is [Y + 1] years old
    adds at least what a step at [Y] years adds: the density grows with
    the age. *)
Lemma zero_light_gain_le (i : nat) (Y : Z) :
  (Z.of_nat (S i) * 10 < 365 * (Y + 1))%Z ->
  zero_light_gain Y
  <= 1 / Trunk.density (Some (zero_light_palm i))
     * (Trunk.lignification_rate / Palm._days_in_month (zero_light_palm i))
     * 10.
Proof.
  intros Hlt. unfold zero_light_gain, Trunk.density, Trunk._YAP. simpl.
  set (y := (Z.of_nat (S i) * 10 / 365)%Z).
  assert (Hy0 : (0 <= y)%Z) by (apply Z.div_pos; lia).
  assert (HyY : (y <= Y)%Z).
  { assert (y < Y + 1)%Z; [| lia].
    apply Z.div_lt_upper_bound; lia. }
  assert (H0 : 0 <= inject_Z y)
    by (change 0 with (inject_Z 0); rewrite <- Zle_Qle; exact Hy0).
  assert (H1 : inject_Z y <= inject_Z Y) by (rewrite <- Zle_Qle; exact HyY).
  unfold Trunk.density_a, Trunk.density_b, Trunk.lignification_rate.
  set (d := 7.62 * inject_Z y + 83). set (D := 7.62 * inject_Z Y + 83).
  assert (Hd : 0 < d) by (unfold d; lra).
  assert (HD : d <= D) by (unfold d, D; lra).
  assert (Hinv : 1 / D <= 1 / d).
  { apply Qle_shift_div_l; [exact Hd |].
    assert (E : 1 / D * d == d / D) by (field; lra).
    rewrite E. apply Qle_shift_div_r; lra. }
  apply Qmult_le_compat_r; [| vm_compute; discriminate].
  apply Qmult_le_compat_r; [exact Hinv | vm_compute; discriminate].
Qed.

Lemma zero_light_block (Y : Z) (n : nat) :
  forall a : nat,
    (Z.of_nat (a + n) * 10 < 365 * (Y + 1))%Z ->
    inject_Z (Z.of_nat n) * zero_light_gain Y
    <= lignification_per_mass
         (map (fun i => (zero_light_palm i, 10)) (seq a n)).
Proof.
  induction n as [| n IH]; intros a Hlt.
  - simpl. unfold lignification_per_mass. simpl. rewrite sum_nil.
    change (inject_Z (Z.of_nat 0)) with 0. rewrite Qmult_0_l.
    apply Qle_refl.
  - simpl seq. simpl map. rewrite lignification_per_mass_cons. simpl fst.
    simpl snd.
    pose proof (zero_light_gain_le a Y) as Hterm.
    pose proof (IH (S a)) as Hrest.
    rewrite Nat2Z.inj_succ. unfold Z.succ. rewrite inject_Z_plus.
    assert (H1 : (Z.of_nat (S a) * 10 < 365 * (Y + 1))%Z) by lia.
    assert (H2 : (Z.of_nat (S a + n) * 10 < 365 * (Y + 1))%Z) by lia.
    specialize (Hterm H1). specialize (Hrest H2).
    set (g := zero_light_gain Y) in *. clearbody g.
    change (inject_Z 1) with 1. lra.
Qed.

(** C3, as stated, fails in its second half: nothing caps the lignified
    mass at the mass.  In the zero-light scenario the mass stays at its
    initial 14.3 while the lignified mass keeps growing, and after 20
    years (720 steps of 10 days) it is above the mass. *)
Lemma lignified_mass_exceeds_mass :
  exists s0 s,
    Trunk.init (Some (zero_light_palm 0)) = Some s0 /\
    Trunk.run (zero_light_steps 720) s0 = Some s /\
    Trunk.mass s == 14.3 /\
    Trunk.mass s < Trunk.lignified_mass s.
Proof.
  eexists.
  destruct (zero_growth_run (zero_light_steps 720)
              {| Trunk.mass := 143 * Trunk.initial_mass;
                 Trunk.lignified_mass := 0; Trunk._assim_growth_ := 0 |})
    as (s & Erun & Hm & Hl).
  - apply zero_light_steps_no_growth.
  - vm_compute. reflexivity.
  - vm_compute. discriminate.
  - exists s. split; [reflexivity |]. split; [exact Erun |].
    simpl in Hm, Hl.
    assert (Hsum : 1 < lignification_per_mass (zero_light_steps 720)).
    { unfold zero_light_steps.
      change 720%nat with (180 + (180 + (180 + 180)))%nat.
      rewrite !seq_app, !map_app, !lignification_per_mass_app.
      pose proof (zero_light_block 4 180 0) as B0.
      pose proof (zero_light_block 9 180 (0 + 180)) as B1.
      pose proof (zero_light_block 14 180 (0 + 180 + 180)) as B2.
      pose proof (zero_light_block 19 180 (0 + 180 + 180 + 180)) as B3.
      specialize (B0 ltac:(vm_compute; reflexivity)).
      specialize (B1 ltac:(vm_compute; reflexivity)).
      specialize (B2 ltac:(vm_compute; reflexivity)).
      specialize (B3 ltac:(vm_compute; reflexivity)).
      assert (Hk : 1 < inject_Z (Z.of_nat 180)
                       * (zero_light_gain 4 + zero_light_gain 9
                          + zero_light_gain 14 + zero_light_gain 19))
        by (vm_compute; reflexivity).
      set (g4 := zero_light_gain 4) in *. set (g9 := zero_light_gain 9) in *.
      set (g14 := zero_light_gain 14) in *.
      set (g19 := zero_light_gain 19) in *.
      set (n := inject_Z (Z.of_nat 180)) in *.
      clearbody g4 g9 g14 g19 n. lra. }
    set (k := lignification_per_mass (zero_light_steps 720)) in *.
    clearbody k. unfold Trunk.initial_mass in *.
    split; [rewrite Hm; reflexivity |].
    rewrite Hm, Hl. lra.
Qed.

(** ** The stress index *)

(** The allocation to the generative sink is at most its demand. *)
Lemma get_assim_growth_generative_le_potential (S0 veg gen ag : Q) :
  get_assim_growth_generative S0 veg gen = Some ag -> ag <= gen.
Proof.
  unfold get_assim_growth_generative.
  destruct (parametrized_partitioning S0 [veg; gen] vegetative_priority)
    as [Ss |]; [| discriminate].
  destruct (item Ss 1) as [res |]; [| discriminate].
  intros [= <-].
  destruct (min_spec res gen) as [[H ->] | [H ->]]; lra.
Qed.

Lemma Ic_bounds {C : Type} (self : Container.t C) :
  0 <= Container.assim_growth self ->
  0 <= Container.potential_sink_strength self ->
  0 <= Container.Ic self <= 1.
Proof.
  intros Hag Hpss. unfold Container.Ic.
  destruct (Py.eqb (Container.potential_sink_strength self) 0) eqn:E.
  - destruct (min_spec 1 1) as [[H ->] | [H ->]]; lra.
  - apply eqb_false in E.
    assert (Hpos : 0 < Container.potential_sink_strength self).
    { destruct (Qlt_le_dec 0 (Container.potential_sink_strength self))
        as [Hlt | Hle]; [exact Hlt |].
      exfalso. apply E. lra. }
    assert (Hq : 0 <= Container.assim_growth self
                      / Container.potential_sink_strength self)
      by (apply Qle_shift_div_l; [exact Hpos | lra]).
    match goal with
    | |- context [Py.min ?a ?b] =>
        destruct (min_spec a b) as [[H ->] | [H ->]]
    end; lra.
Qed.

(** C8.  When the allocation of growth assimilates to the generative
    sink, as [Assimilates.get_assim_growth_generative] computes it from
    the container's potential sink strength, is nonnegative, [Ic] is
    [min(1, assim_growth / potential_sink_strength)], with 1 for the
    ratio when the potential sink strength is 0, and it lies in [0, 1];
    so does [stress_index = 1 - Ic]. *)
Theorem stress_index_in_unit_interval {C : Type} (self : Container.t C)
    (assim_growth_total potential_sink_strength_vegetative : Q) :
  get_assim_growth_generative assim_growth_total
    potential_sink_strength_vegetative (Container.potential_sink_strength self)
  = Some (Container.assim_growth self) ->
  0 <= Container.assim_growth self ->
  Container.Ic self
  == Qmin 1 (if Py.eqb (Container.potential_sink_strength self) 0 then 1
             else Container.assim_growth self
                  / Container.potential_sink_strength self) /\
  0 <= Container.Ic self <= 1 /\
  Container.stress_index self == 1 - Container.Ic self /\
  0 <= Container.stress_index self <= 1.
Proof.
  intros Halloc Hag.
  pose proof (get_assim_growth_generative_le_potential _ _ _ _ Halloc) as Hle.
  assert (Hpss : 0 <= Container.potential_sink_strength self) by lra.
  pose proof (Ic_bounds self Hag Hpss) as HIc.
  split; [unfold Container.Ic; apply min_Qmin |].
  split; [exact HIc |].
  unfold Container.stress_index. split; [reflexivity | lra].
Qed.

Lemma stress_index_in_unit_interval_witness :
  Container.Ic short_supply_container == 0.16 /\
  0 <= Container.stress_index short_supply_container <= 1.
Proof.
  split; [vm_compute; reflexivity |].
  refine (proj2 (proj2 (proj2
    (stress_index_in_unit_interval short_supply_container 6 5 _ _)))).
  - vm_compute. reflexivity.
  - vm_compute. discriminate.
Defined.

(** ** Methods on the heap *)

Lemma bind_Some {A B} (m : M A) (f : A -> M B) (h h' : Heap) (b : B) :
  bind m f h = Some (b, h') <->
  exists a h1, m h = Some (a, h1) /\ f a h1 = Some (b, h').
Proof.
  unfold bind. split.
  - destruct (m h) as [[a h1] |]; [| discriminate]. eauto.
  - intros (a & h1 & -> & E). exact E.
Qed.

Lemma ret_Some {A} (a b : A) (h h' : Heap) :
  ret a h = Some (b, h') <-> b = a /\ h' = h.
Proof.
  unfold ret. split.
  - intros [= -> ->]. auto.
  - intros [-> ->]. reflexivity.
Qed.

Lemma get_Some {A} (f : Heap -> option A) (h h' : Heap) (a : A) :
  get f h = Some (a, h') <-> f h = Some a /\ h' = h.
Proof.
  unfold get. split.
  - destruct (f h); [| discriminate]. intros [= -> ->]. auto.
  - intros [-> ->]. reflexivity.
Qed.

Lemma lift_Some {A} (o : option A) (h h' : Heap) (a : A) :
  lift o h = Some (a, h') <-> o = Some a /\ h' = h.
Proof. unfold lift. apply get_Some. Qed.

Lemma alloc_Some (c : BunchComponent.t) (h h' : Heap) (r : ref) :
  alloc c h = Some (r, h') <-> r = length h /\ h' = h ++ [c].
Proof.
  unfold alloc. split.
  - intros [= <- <-]. auto.
  - intros [-> ->]. reflexivity.
Qed.

Lemma store_Some (r : ref) (c : BunchComponent.t) (h h' : Heap) (u : unit) :
  store r c h = Some (u, h') <->
  (exists x, h !! r = Some x) /\ h' = <[r := c]> h.
Proof.
  unfold store. split.
  - destruct (h !! r) as [x |] eqn:E; [| discriminate].
    intros [= <-]. eauto.
  - intros [[x ->] ->]. now destruct u.
Qed.

(** Taking a method apart, step by step. *)
Ltac inv_M H :=
  repeat match type of H with
  | bind _ _ _ = Some _ =>
      let a := fresh "a" in let h := fresh "h" in
      let E := fresh "E" in
      apply bind_Some in H; destruct H as (a & h & E & H)
  end.

Lemma for_each_cons {A} (f : A -> M unit) (x : A) (xs : list A) (h h' : Heap)
    (u : unit) :
  for_each f (x :: xs) h = Some (u, h') <->
  exists h1, f x h = Some (tt, h1) /\ for_each f xs h1 = Some (u, h').
Proof.
  simpl. rewrite bind_Some. split.
  - intros ([] & h1 & E1 & E2). eauto.
  - intros (h1 & E1 & E2). eauto.
Qed.

Lemma map_opt_Some {A B} (f : A -> option B) (xs : list A) (ys : list B) :
  map_opt f xs = Some ys <-> Forall2 (fun x y => f x = Some y) xs ys.
Proof.
  revert ys. induction xs as [| x xs IH]; intros ys; simpl.
  - split.
    + intros [= <-]. constructor.
    + intros Hf. inversion Hf. reflexivity.
  - split.
    + destruct (f x) as [y |] eqn:E; [| discriminate].
      destruct (map_opt f xs) as [ys' |]; [| discriminate].
      intros [= <-]. constructor; [exact E | now apply IH].
    + intros Hf. inversion Hf as [| x0 y xs0 ys' E Hrest]; subst.
      rewrite E. apply IH in Hrest. now rewrite Hrest.
Qed.

Lemma map_opt_ext {A B} (f g : A -> option B) (xs : list A) :
  (forall x, In x xs -> f x = g x) -> map_opt f xs = map_opt g xs.
Proof.
  induction xs as [| x xs IH]; intros Hfg; simpl; [reflexivity |].
  rewrite (Hfg x) by (left; reflexivity).
  rewrite IH by (intros y Hy; apply Hfg; right; exact Hy).
  reflexivity.
Qed.

(** ** The order of the updates within a cohort *)

Lemma same_but_mass_refl (x : BunchComponent.t) : same_but_mass x x.
Proof. reflexivity. Qed.

Lemma same_but_mass_set_mass (v : Q) (x y : BunchComponent.t) :
  same_but_mass x y -> same_but_mass x (BunchComponent.set_mass v y).
Proof. unfold same_but_mass. intros ->. reflexivity. Qed.

Lemma same_but_mass_sink (x y : BunchComponent.t) :
  same_but_mass x y ->
  BunchComponent.potential_sink_strength x
  = BunchComponent.potential_sink_strength y.
Proof.
  intros H. apply (f_equal BunchComponent.potential_sink_strength) in H.
  exact H.
Qed.

(** The growth rate of a component does not read its mass. *)
Lemma mass_growth_rate_same_but_mass (o : option BunchComponent.owner)
    (x y : BunchComponent.t) :
  same_but_mass x y ->
  BunchComponent.mass_growth_rate o x = BunchComponent.mass_growth_rate o y.
Proof.
  destruct x, y. unfold same_but_mass, BunchComponent.set_mass. simpl.
  intros [= -> -> -> -> -> -> -> ->]. reflexivity.
Qed.

Lemma component_sinks_same_but_mass (h hc : Heap) (rs : list ref) :
  Forall2 same_but_mass h hc ->
  option_map (map BunchComponent.potential_sink_strength)
    (map_opt (deref hc) rs)
  = option_map (map BunchComponent.potential_sink_strength)
      (map_opt (deref h) rs).
Proof.
  intros Hh. induction rs as [| r rs IH]; simpl; [reflexivity |].
  unfold deref at 1 3.
  pose proof (proj1 (Forall2_lookup _ h hc) Hh r) as Hr.
  inversion Hr as [x y Hxy Ex Ey | Ex Ey]; [| reflexivity].
  destruct (map_opt (deref hc) rs) as [ys |],
           (map_opt (deref h) rs) as [xs |]; simpl in *;
    try discriminate; [| reflexivity].
  injection IH as IH. now rewrite IH, (same_but_mass_sink x y Hxy).
Qed.

Lemma potential_sink_strength_same_but_mass (h hc : Heap) (self : Cohort.t) :
  Forall2 same_but_mass h hc ->
  Cohort.potential_sink_strength hc self
  = Cohort.potential_sink_strength h self.
Proof.
  intros Hh. unfold Cohort.potential_sink_strength, Cohort.component_objects.
  pose proof (component_sinks_same_but_mass h hc (Cohort.components self) Hh)
    as E.
  destruct (map_opt (deref hc) (Cohort.components self)),
           (map_opt (deref h) (Cohort.components self)); simpl in E;
    try discriminate; [| reflexivity].
  injection E as ->. reflexivity.
Qed.

(** What the components read from their cohort does not depend on the
    masses in the heap. *)
Lemma owner_same_but_mass (ctr : Cohort.container) (h hc : Heap)
    (self : Cohort.t) :
  Forall2 same_but_mass h hc ->
  Cohort.owner ctr hc self = Cohort.owner ctr h self.
Proof.
  intros Hh.
  unfold Cohort.owner, Cohort.assim_growth_organ, Cohort.assim_growth_cohort,
    Cohort.cohort_sink_strength.
  now rewrite (potential_sink_strength_same_but_mass h hc self Hh).
Qed.

Lemma component_update_mass_Some (ctr : Cohort.container) (self : Cohort.t)
    (dt : Q) (r : ref) (h h' : Heap) (u : unit) :
  Cohort.component_update_mass ctr self dt r h = Some (u, h') ->
  exists x g,
    h !! r = Some x /\
    Cohort.component_mass_growth_rate ctr h self x = Some g /\
    h' = <[r := BunchComponent.set_mass (BunchComponent.mass x + g * dt) x]> h.
Proof.
  unfold Cohort.component_update_mass. intros H. inv_M H.
  apply get_Some in E. destruct E as [Ex ->].
  apply get_Some in E0. destruct E0 as [Eo ->].
  apply lift_Some in E1. destruct E1 as [Eu ->].
  apply store_Some in H. destruct H as [_ ->].
  unfold BunchComponent.update_mass in Eu.
  destruct (BunchComponent.mass_growth_rate (Some a0) a) as [g |] eqn:Eg;
    [| discriminate].
  injection Eu as <-.
  exists a, g. split; [exact Ex |]. split; [| reflexivity].
  unfold Cohort.component_mass_growth_rate. now rewrite Eo.
Qed.

(** The first loop of [_update], started on a heap [hc] that differs
    from [h] in masses only and agrees with it on the components still
    to come: every component gets the growth computed on [h]. *)
Lemma update_masses_loop (ctr : Cohort.container) (self : Cohort.t) (dt : Q)
    (h : Heap) (rs : list ref) :
  forall (hc h' : Heap),
    List.NoDup rs ->
    Forall2 same_but_mass h hc ->
    (forall r, In r rs -> hc !! r = h !! r) ->
    for_each (Cohort.component_update_mass ctr self dt) rs hc = Some (tt, h') ->
    Forall2 same_but_mass h h' /\
    (forall r, In r rs ->
       exists x g,
         h !! r = Some x /\
         Cohort.component_mass_growth_rate ctr h self x = Some g /\
         h' !! r
         = Some (BunchComponent.set_mass (BunchComponent.mass x + g * dt) x)) /\
    (forall r, ~ In r rs -> h' !! r = hc !! r).
Proof.
  induction rs as [| r rs IH]; intros hc h' Hnd Hh Hagree Hloop.
  - simpl in Hloop. apply ret_Some in Hloop. destruct Hloop as [_ ->].
    split; [exact Hh |]. split; [intros r [] | reflexivity].
  - apply for_each_cons in Hloop. destruct Hloop as (h1 & Hstep & Hloop).
    apply component_update_mass_Some in Hstep.
    destruct Hstep as (x & g & Ex & Eg & ->).
    inversion Hnd as [| r0 rs0 Hnotin Hnd']; subst.
    assert (Exh : h !! r = Some x)
      by (rewrite <- (Hagree r (or_introl eq_refl)); exact Ex).
    assert (Egh : Cohort.component_mass_growth_rate ctr h self x = Some g).
    { unfold Cohort.component_mass_growth_rate in *.
      now rewrite <- (owner_same_but_mass ctr h hc self Hh). }
    set (x' := BunchComponent.set_mass (BunchComponent.mass x + g * dt) x) in *.
    assert (Hh1 : Forall2 same_but_mass h (<[r := x']> hc)).
    { rewrite <- (list_insert_id h r x Exh).
      apply Forall2_insert; [exact Hh |].
      apply same_but_mass_set_mass, same_but_mass_refl. }
    assert (Hagree1 : forall r', In r' rs -> <[r := x']> hc !! r' = h !! r').
    { intros r' Hin. rewrite list_lookup_insert_ne.
      - apply Hagree. right. exact Hin.
      - intros ->. contradiction. }
    destruct (IH (<[r := x']> hc) h' Hnd' Hh1 Hagree1 Hloop)
      as (Hh' & Hin' & Hout').
    split; [exact Hh' |]. split.
    + intros r' [<- | Hin].
      * exists x, g. split; [exact Exh |]. split; [exact Egh |].
        rewrite (Hout' r Hnotin).
        apply list_lookup_insert_eq. eapply lookup_lt_Some. exact Ex.
      * apply Hin'. exact Hin.
    + intros r' Hr'.
      rewrite (Hout' r') by (intros Hin; apply Hr'; right; exact Hin).
      apply list_lookup_insert_ne. intros ->. apply Hr'. left. reflexivity.
Qed.

Lemma component_update_age_Some (dt : Q) (r : ref) (h h' : Heap) (u : unit) :
  Cohort.component_update_age dt r h = Some (u, h') ->
  exists x x',
    h !! r = Some x /\ BunchComponent.update_age dt x = Some x' /\
    h' = <[r := x']> h.
Proof.
  unfold Cohort.component_update_age. intros H. inv_M H.
  apply get_Some in E. destruct E as [Ex ->].
  apply lift_Some in E0. destruct E0 as [Eu ->].
  apply store_Some in H. destruct H as [_ ->].
  eauto.
Qed.

(** The second loop of [_update]. *)
Lemma update_ages_loop (dt : Q) (rs : list ref) :
  forall (hc h' : Heap),
    List.NoDup rs ->
    for_each (Cohort.component_update_age dt) rs hc = Some (tt, h') ->
    (forall r, In r rs ->
       exists x x',
         hc !! r = Some x /\ BunchComponent.update_age dt x = Some x' /\
         h' !! r = Some x') /\
    (forall r, ~ In r rs -> h' !! r = hc !! r).
Proof.
  induction rs as [| r rs IH]; intros hc h' Hnd Hloop.
  - simpl in Hloop. apply ret_Some in Hloop. destruct Hloop as [_ ->].
    split; [intros r [] | reflexivity].
  - apply for_each_cons in Hloop. destruct Hloop as (h1 & Hstep & Hloop).
    apply component_update_age_Some in Hstep.
    destruct Hstep as (x & x' & Ex & Eu & ->).
    inversion Hnd as [| r0 rs0 Hnotin Hnd']; subst.
    destruct (IH (<[r := x']> hc) h' Hnd' Hloop) as (Hin' & Hout').
    split.
    + intros r' [<- | Hin].
      * exists x, x'. split; [exact Ex |]. split; [exact Eu |].
        rewrite (Hout' r Hnotin).
        apply list_lookup_insert_eq. eapply lookup_lt_Some. exact Ex.
      * destruct (Hin' r' Hin) as (y & y' & Ey & Eyu & Ey').
        exists y, y'. split; [| split; assumption].
        rewrite list_lookup_insert_ne in Ey; [exact Ey |].
        intros ->. contradiction.
    + intros r' Hr'.
      rewrite (Hout' r') by (intros Hin; apply Hr'; right; exact Hin).
      apply list_lookup_insert_ne. intros ->. apply Hr'. left. reflexivity.
Qed.

Lemma _update_Some (af : Cohort.container -> Cohort.t -> option Q)
    (ctr : Cohort.container) (dt : Q) (self self' : Cohort.t) (h h' : Heap) :
  Cohort._update af ctr dt self h = Some (self', h') ->
  exists h1 a,
    Cohort.update_masses ctr dt self h = Some (tt, h1) /\
    Cohort.update_ages dt self h1 = Some (tt, h') /\
    af ctr self = Some a /\
    self' = Cohort.set_age (Cohort.age self + dt)
              (Cohort.set_num_inflorescences
                 (Cohort.num_inflorescences self * Py.max 0 (1 - a * dt))
                 self).
Proof.
  unfold Cohort._update. intros H. inv_M H.
  destruct a, a0.
  apply lift_Some in E1. destruct E1 as [Ea ->].
  apply ret_Some in H. destruct H as [-> ->].
  exists h0, a1. repeat split; assumption.
Qed.

(** C5.  [Cohort._update(dt)], for a cohort whose components are
    distinct objects, first gives every component its growth
    [min(potential growth rate at its age, conversion_efficiency *
    allocated assimilates) * dt], all of it computed in the state before
    the update; in the heap [h1] reached then, no object has changed its
    age or its potential sink strength.  Only then does it add [dt] to
    the age of every component and recompute its potential sink
    strength, at the new age, leaving the masses as they are in [h1]. *)
Theorem cohort_update_masses_before_ages
    (abortion_fraction : Cohort.container -> Cohort.t -> option Q)
    (ctr : Cohort.container) (dt : Q) (self self' : Cohort.t) (h h' : Heap) :
  List.NoDup (Cohort.components self) ->
  Cohort._update abortion_fraction ctr dt self h = Some (self', h') ->
  exists h1,
    Cohort.update_masses ctr dt self h = Some (tt, h1) /\
    Cohort.update_ages dt self h1 = Some (tt, h') /\
    (forall r, In r (Cohort.components self) ->
       exists x o cap,
         h !! r = Some x /\
         Cohort.owner ctr h self = Some o /\
         BunchComponent.mass_growth_rate_potential x = Some cap /\
         let growth :=
           Py.min cap
             (BunchComponent.conversion_efficiency
                (BunchComponent.parameters (BunchComponent.cls x))
              * BunchComponent.assim_growth (Some o) x) in
         let x1 :=
           BunchComponent.set_mass (BunchComponent.mass x + growth * dt) x in
         h1 !! r = Some x1 /\
         exists pss,
           BunchComponent.get_potential_sink_strength
             (BunchComponent.set_age (BunchComponent.age x + dt) x1)
           = Some pss /\
           h' !! r
           = Some (BunchComponent.set_potential_sink_strength pss
                     (BunchComponent.set_age (BunchComponent.age x + dt) x1))) /\
    (forall r x1, h1 !! r = Some x1 ->
       exists x,
         h !! r = Some x /\
         BunchComponent.age x1 = BunchComponent.age x /\
         BunchComponent.potential_sink_strength x1
         = BunchComponent.potential_sink_strength x).
Proof.
  intros Hnd Hup.
  apply _update_Some in Hup.
  destruct Hup as (h1 & a & Hmasses & Hages & _ & _).
  exists h1. split; [exact Hmasses |]. split; [exact Hages |].
  destruct (update_masses_loop ctr self dt h (Cohort.components self) h h1)
    as (Hsame & Hin & _);
    [exact Hnd | apply Forall2_same_length_lookup_2; [reflexivity |];
                 intros i x y E1 E2; rewrite E1 in E2; injection E2 as <-;
                 apply same_but_mass_refl
     | reflexivity | exact Hmasses |].
  destruct (update_ages_loop dt (Cohort.components self) h1 h' Hnd Hages)
    as (Hin' & _).
  split.
  - intros r Hr.
    destruct (Hin r Hr) as (x & g & Ex & Eg & E1).
    destruct (Hin' r Hr) as (y & y' & Ey & Eu & Ey').
    rewrite E1 in Ey. injection Ey as <-.
    unfold Cohort.component_mass_growth_rate in Eg.
    destruct (Cohort.owner ctr h self) as [o |] eqn:Eo; [| discriminate].
    unfold BunchComponent.mass_growth_rate in Eg.
    destruct (BunchComponent.mass_growth_rate_potential x) as [cap |] eqn:Ecap;
      [| discriminate].
    injection Eg as <-.
    exists x, o, cap. split; [exact Ex |]. split; [reflexivity |].
    split; [exact Ecap |]. cbv zeta. split; [exact E1 |].
    unfold BunchComponent.update_age in Eu.
    match type of Eu with
    | match ?e with _ => _ end = _ => destruct e as [pss |] eqn:Epss
    end; [| discriminate].
    injection Eu as <-.
    exists pss. split; [exact Epss | exact Ey'].
  - intros r x1 E1.
    destruct (Forall2_lookup_r _ _ _ _ _ Hsame E1) as (x & Ex & Hx).
    exists x. split; [exact Ex |].
    split.
    + apply (f_equal BunchComponent.age) in Hx. simpl in Hx. now symmetry.
    + symmetry. exact (same_but_mass_sink x x1 Hx).
Qed.

Lemma cohort_update_masses_before_ages_witness :
  exists self' h' h1,
    List.NoDup (Cohort.components young_female_cohort) /\
    Cohort._update (@Female.abortion_fraction approx_lib) None 50
      young_female_cohort young_female_heap = Some (self', h') /\
    Cohort.update_masses None 50 young_female_cohort young_female_heap
    = Some (tt, h1) /\
    Cohort.update_ages 50 young_female_cohort h1 = Some (tt, h').
Proof.
  assert (Hnd : List.NoDup (Cohort.components young_female_cohort))
    by (vm_compute; repeat constructor; intros []).
  destruct (Cohort._update (@Female.abortion_fraction approx_lib) None 50
              young_female_cohort young_female_heap)
    as [[self' h'] |] eqn:E; [| vm_compute in E; discriminate].
  destruct (cohort_update_masses_before_ages _ _ _ _ _ _ _ Hnd E)
    as (h1 & E1 & E2 & _).
  exists self', h', h1. repeat split; assumption.
Defined.

(** ** Abortion *)

Section Abortion.

Context `{MathLib}.

Lemma _inflorescence_abortion_fraction_bounds (ctr : Cohort.container)
    (self : Cohort.t) (a : Q) :
  Female._inflorescence_abortion_fraction ctr self = Some a -> 0 <= a < 1.
Proof.
  unfold Female._inflorescence_abortion_fraction.
  destruct (Py.div 1 _) as [q |]; [| discriminate]. cbv zeta.
  destruct (Py.assert (Py.geb (1 - q) 0)) eqn:A1; [| discriminate].
  destruct (Py.assert (Py.ltb (1 - q) 1)) eqn:A2; [| discriminate].
  intros [= <-]. apply assert_Some in A1, A2.
  apply geb_true in A1. apply ltb_true in A2. split; assumption.
Qed.

Lemma _bunch_failure_fraction_bounds (ctr : Cohort.container)
    (self : Cohort.t) (a : Q) :
  Female._bunch_failure_fraction ctr self = Some a -> 0 <= a < 1.
Proof.
  unfold Female._bunch_failure_fraction. cbv zeta.
  match goal with
  | |- context [Py.assert (Py.geb ?r 0)] =>
      destruct (Py.assert (Py.geb r 0)) eqn:A1; [| discriminate];
      destruct (Py.assert (Py.ltb r 1)) eqn:A2; [| discriminate]
  end.
  intros [= <-]. apply assert_Some in A1, A2.
  apply geb_true in A1. apply ltb_true in A2. split; assumption.
Qed.

Lemma inflorescence_abortion_fraction_Some (ctr : Cohort.container)
    (self : Cohort.t) (a : Q) :
  Female.inflorescence_abortion_fraction ctr self = Some a ->
  0 <= a < 1 /\ (~ a == 0 -> in_inflorescence_abortion_window self).
Proof.
  unfold Female.inflorescence_abortion_fraction. cbv zeta.
  change (negb (Py.eqb Female.stress_inflorescence_abortion 1)) with false.
  cbv iota.
  destruct (Py.geb (Cohort.age self) (Cohort.inflorescence_abortion_t0 self))
    eqn:E0; simpl.
  - destruct (Py.ltb (Cohort.age self) (Cohort.inflorescence_abortion_t1 self))
      eqn:E1.
    + intros Ha. split.
      * eapply _inflorescence_abortion_fraction_bounds. exact Ha.
      * intros _. apply geb_true in E0. apply ltb_true in E1.
        split; assumption.
    + intros [= <-]. split; [lra |]. intros Hn. exfalso. apply Hn. reflexivity.
  - intros [= <-]. split; [lra |]. intros Hn. exfalso. apply Hn. reflexivity.
Qed.

Lemma bunch_failure_fraction_Some (ctr : Cohort.container)
    (self : Cohort.t) (a : Q) :
  Female.bunch_failure_fraction ctr self = Some a ->
  0 <= a < 1 /\ (~ a == 0 -> in_bunch_failure_window self).
Proof.
  unfold Female.bunch_failure_fraction. cbv zeta.
  change (negb (Py.eqb Female.stress_bunch_failure 1)) with false.
  cbv iota.
  destruct (Py.geb (Cohort.age self) (Cohort.bunch_failure_t0 self))
    eqn:E0; simpl.
  - destruct (Py.ltb (Cohort.age self) (Cohort.bunch_failure_t1 self)) eqn:E1.
    + intros Ha. split.
      * eapply _bunch_failure_fraction_bounds. exact Ha.
      * intros _. apply geb_true in E0. apply ltb_true in E1.
        split; assumption.
    + intros [= <-]. split; [lra |]. intros Hn. exfalso. apply Hn. reflexivity.
  - intros [= <-]. split; [lra |]. intros Hn. exfalso. apply Hn. reflexivity.
Qed.

(** The abortion fraction of a female cohort: not negative, and zero
    outside the two age windows. *)
Lemma female_abortion_fraction_Some (ctr : Cohort.container)
    (self : Cohort.t) (a : Q) :
  Female.abortion_fraction ctr self = Some a ->
  0 <= a /\
  (~ a == 0 ->
   in_inflorescence_abortion_window self \/ in_bunch_failure_window self).
Proof.
  unfold Female.abortion_fraction.
  destruct (Female.inflorescence_abortion_fraction ctr self) as [i |] eqn:Ei;
    [| discriminate].
  destruct (Female.bunch_failure_fraction ctr self) as [b |] eqn:Eb;
    [| discriminate].
  intros [= <-].
  apply inflorescence_abortion_fraction_Some in Ei.
  apply bunch_failure_fraction_Some in Eb.
  destruct Ei as [Hi Wi], Eb as [Hb Wb].
  split; [lra |]. intros Hn.
  destruct (Qeq_dec i 0) as [Hi0 | Hi0].
  - right. apply Wb. intros Hb0. apply Hn. rewrite Hi0, Hb0. reflexivity.
  - left. apply Wi. exact Hi0.
Qed.

Lemma survival_fraction_bounds (a dt : Q) :
  0 <= a -> 0 <= dt -> 0 <= Py.max 0 (1 - a * dt) <= 1.
Proof.
  intros Ha Hdt.
  assert (0 <= a * dt) by (apply Qmult_le_0_compat; assumption).
  destruct (max_spec 0 (1 - a * dt)) as [[Hlt ->] | [Hle ->]]; lra.
Qed.

Lemma scaled_count_bounds (n s : Q) :
  0 <= n -> 0 <= s <= 1 -> 0 <= n * s <= n.
Proof.
  intros Hn [Hs0 Hs1]. split.
  - apply Qmult_le_0_compat; assumption.
  - pose proof (Qmult_le_compat_r s 1 n Hs1 Hn). lra.
Qed.

Lemma set_fruit_Some (self self' : Cohort.t) (h h' : Heap) :
  Female.set_fruit self h = Some (self', h') ->
  exists oil fibers kern,
    BunchComponent.init BunchComponent.MesocarpOil
      (Some (Cohort._potential_mass self)) (Cohort.age self) None
      (Cohort.t_maturity self) = Some oil /\
    BunchComponent.init BunchComponent.MesocarpFibers
      (Some (Cohort._potential_mass self)) (Cohort.age self) None
      (Cohort.t_maturity self) = Some fibers /\
    BunchComponent.init BunchComponent.Kernels
      (Some (Cohort._potential_mass self)) (Cohort.age self) None
      (Cohort.t_maturity self) = Some kern /\
    h' = h ++ [oil; fibers; kern] /\
    self' = Cohort.set_fruit_attrs
              (Some (length h)) (Some (S (length h)))
              (Some (S (S (length h))))
              [Cohort.stalk self; S (length h); length h; S (S (length h))]
              true self.
Proof.
  unfold Female.set_fruit. intros H0. inv_M H0.
  apply lift_Some in E. destruct E as [Eoil ->].
  apply alloc_Some in E0. destruct E0 as [-> ->].
  apply lift_Some in E1. destruct E1 as [Efib ->].
  apply alloc_Some in E2. destruct E2 as [-> ->].
  apply lift_Some in E3. destruct E3 as [Eker ->].
  apply alloc_Some in E4. destruct E4 as [-> ->].
  apply ret_Some in H0. destruct H0 as [-> ->].
  exists a, a1, a3. split; [exact Eoil |]. split; [exact Efib |].
  split; [exact Eker |].
  rewrite !length_app. simpl length.
  replace (length h + 1)%nat with (S (length h)) by lia.
  replace (S (length h) + 1)%nat with (S (S (length h))) by lia.
  split; [| reflexivity].
  rewrite <- !app_assoc. reflexivity.
Qed.

Lemma female_update_Some (ctr : Cohort.container) (dt : Q)
    (self self' : Cohort.t) (h h' : Heap) :
  Female.update ctr dt self h = Some (self', h') ->
  exists c1 h1,
    Cohort._update Female.abortion_fraction ctr dt self h = Some (c1, h1) /\
    if Female.should_trigger_flowering c1
    then Female.set_fruit c1 h1 = Some (self', h')
    else self' = c1 /\ h' = h1.
Proof.
  unfold Female.update. intros H0. inv_M H0.
  exists a, h0. split; [exact E |].
  destruct (Female.should_trigger_flowering a); [exact H0 |].
  apply ret_Some in H0. exact H0.
Qed.

(** An update of a female cohort: what becomes of its count. *)
Lemma female_update_count (ctr : Cohort.container) (dt : Q)
    (self self' : Cohort.t) (h h' : Heap) :
  Female.update ctr dt self h = Some (self', h') ->
  exists a,
    Female.abortion_fraction ctr self = Some a /\
    Cohort.num_inflorescences self'
    = Cohort.num_inflorescences self * Py.max 0 (1 - a * dt).
Proof.
  intros H0. apply female_update_Some in H0.
  destruct H0 as (c1 & h1 & Hup & Hfl).
  apply _update_Some in Hup. destruct Hup as (h2 & a & _ & _ & Ea & ->).
  exists a. split; [exact Ea |].
  destruct (Female.should_trigger_flowering _).
  - apply set_fruit_Some in Hfl.
    destruct Hfl as (oil & fib & ker & _ & _ & _ & _ & ->). reflexivity.
  - destruct Hfl as [-> _]. reflexivity.
Qed.

Lemma set_relative_sink_strength_Some (ctr : Cohort.container)
    (self self' : Cohort.t) (h h' : Heap) :
  Cohort.set_relative_sink_strength ctr self h = Some (self', h') ->
  exists res,
    Cohort.get_relative_sink_strength ctr h self = Some res /\
    self' = Cohort.set_relative_sink_strength_attr res self /\ h' = h.
Proof.
  unfold Cohort.set_relative_sink_strength. intros H0. inv_M H0.
  apply get_Some in E. destruct E as [E ->].
  apply ret_Some in H0. destruct H0 as [-> ->]. eauto.
Qed.

(** Over its life the count of a female cohort does not increase. *)
Lemma female_life_count (steps : list life_step) :
  forall (self self' : Cohort.t) (h h' : Heap),
    Forall (fun s => 0 <= step_dt s) steps ->
    0 <= Cohort.num_inflorescences self ->
    life Female.update steps self h = Some (self', h') ->
    0 <= Cohort.num_inflorescences self' <= Cohort.num_inflorescences self.
Proof.
  induction steps as [| [[ctr dt] ctr'] steps IH];
    intros self self' h h' Hdts Hn Hlife.
  - simpl in Hlife. apply ret_Some in Hlife. destruct Hlife as [-> _]. lra.
  - simpl in Hlife. inv_M Hlife.
    inversion Hdts as [| s ss Hdt Hdts']; subst. unfold step_dt in Hdt.
    simpl in Hdt.
    apply female_update_count in E. destruct E as (a1 & Ea & En).
    apply female_abortion_fraction_Some in Ea. destruct Ea as [Ha _].
    apply set_relative_sink_strength_Some in E0.
    destruct E0 as (res & _ & -> & ->).
    pose proof (scaled_count_bounds _ _ Hn (survival_fraction_bounds a1 dt Ha Hdt))
      as Hb.
    rewrite <- En in Hb.
    destruct (IH (Cohort.set_relative_sink_strength_attr res a) _ _ _
                Hdts' (proj1 Hb) Hlife) as [H1 H2].
    simpl in H2. lra.
Qed.

End Abortion.

Lemma male_init_Some (ctr : Cohort.container) (pm T : Q)
    (m : Cohort.t) (h h' : Heap) :
  Male.init ctr pm T h = Some (m, h') ->
  exists x,
    BunchComponent.init BunchComponent.Stalk (Some pm) 0 None 1200 = Some x /\
    h' = h ++ [x] /\
    Cohort.sex m = Cohort.male /\
    Cohort._abortion_fraction m = 0 /\
    Cohort.t_maturity m = T /\ Cohort._potential_mass m = pm.
Proof.
  unfold Male.init. intros H0. inv_M H0.
  apply lift_Some in E. destruct E as [Ex ->].
  apply alloc_Some in E0. destruct E0 as [-> ->].
  apply ret_Some in H0. destruct H0 as [-> ->].
  exists a. repeat split; try reflexivity. exact Ex.
Qed.

(** An update of a cohort of a class that does not override
    [abortion_fraction]. *)
Lemma cohort_update_count (ctr : Cohort.container) (dt : Q)
    (self self' : Cohort.t) (h h' : Heap) :
  Cohort.update ctr dt self h = Some (self', h') ->
  Cohort.num_inflorescences self'
  = Cohort.num_inflorescences self
    * Py.max 0 (1 - Cohort._abortion_fraction self * dt) /\
  Cohort._abortion_fraction self' = Cohort._abortion_fraction self /\
  Cohort.sex self' = Cohort.sex self.
Proof.
  unfold Cohort.update. intros H0. apply _update_Some in H0.
  destruct H0 as (h1 & a & _ & _ & Ea & ->).
  unfold Cohort.abortion_fraction in Ea. injection Ea as <-.
  repeat split; reflexivity.
Qed.

Lemma no_abortion_survival (dt : Q) : Py.max 0 (1 - 0 * dt) == 1.
Proof.
  destruct (max_spec 0 (1 - 0 * dt)) as [[Hlt ->] | [Hle ->]]; lra.
Qed.

(** Over its life the count of a cohort with [_abortion_fraction = 0]
    stays what it is. *)
Lemma male_life_count (steps : list life_step) :
  forall (self self' : Cohort.t) (h h' : Heap),
    Cohort._abortion_fraction self = 0 ->
    life Cohort.update steps self h = Some (self', h') ->
    Cohort.num_inflorescences self' == Cohort.num_inflorescences self /\
    Cohort._abortion_fraction self' = 0.
Proof.
  induction steps as [| [[ctr dt] ctr'] steps IH];
    intros self self' h h' Ha Hlife.
  - simpl in Hlife. apply ret_Some in Hlife. destruct Hlife as [-> _].
    split; [reflexivity | exact Ha].
  - simpl in Hlife. inv_M Hlife.
    apply cohort_update_count in E. destruct E as (En & Ea' & _).
    apply set_relative_sink_strength_Some in E0.
    destruct E0 as (res & _ & -> & ->).
    destruct (IH (Cohort.set_relative_sink_strength_attr res a) _ _ _
                (eq_trans Ea' Ha) Hlife) as [H1 H2].
    split; [| exact H2].
    rewrite H1. simpl. rewrite En, Ha, no_abortion_survival. ring.
Qed.

(** ** Sex differentiation *)

Lemma female_init_Some (ctr : Cohort.container) (pm T : Q)
    (f : Cohort.t) (h h' : Heap) :
  Female.init ctr pm T h = Some (f, h') ->
  exists x,
    BunchComponent.init BunchComponent.Stalk (Some pm) 0 None 1200 = Some x /\
    h' = h ++ [x] /\
    Cohort.sex f = Cohort.female /\
    Cohort.has_flowered f = false /\
    Cohort.t_maturity f = T /\ Cohort._potential_mass f = pm.
Proof.
  unfold Female.init. intros H0. inv_M H0.
  apply lift_Some in E. destruct E as [Ex ->].
  apply alloc_Some in E0. destruct E0 as [-> ->].
  apply ret_Some in H0. destruct H0 as [-> ->].
  exists a. repeat split; try reflexivity. exact Ex.
Qed.

(** A copy has the class, the mass and the age of its original. *)
Lemma copy_Some (x d : BunchComponent.t) :
  BunchComponent.copy x = Some d ->
  BunchComponent.cls d = BunchComponent.cls x /\
  BunchComponent.mass d = BunchComponent.mass x /\
  BunchComponent.age d = BunchComponent.age x /\
  BunchComponent.potential_mass d = BunchComponent.potential_mass x /\
  BunchComponent.t_maturity d = BunchComponent.t_maturity x.
Proof.
  unfold BunchComponent.copy, BunchComponent.init. cbv zeta.
  destruct (Quadratic.make_quadratic_function _ _ _) as [q |];
    [| discriminate].
  match goal with
  | |- context [BunchComponent.get_potential_sink_strength ?y] =>
      destruct (BunchComponent.get_potential_sink_strength y) as [p0 |]
  end; [| discriminate].
  match goal with
  | |- match ?e with _ => _ end = _ -> _ => destruct e as [p1 |]
  end; [| discriminate].
  intros [= <-]. repeat split; reflexivity.
Qed.

Section Split.

Context `{MathLib}.

(** What [to_male] returns, and the heap it leaves: the stalk made by
    [Male.__init__], not used any more, and the copy of the stalk of the
    indeterminate cohort, which is the stalk of the male one. *)
Lemma to_male_Some (ctr : Cohort.container) (self m : Cohort.t) (h h' : Heap) :
  Indeterminate.to_male ctr self h = Some (m, h') ->
  exists x0 x d ff,
    (h ++ [x0]) !! Cohort.stalk self = Some x /\
    BunchComponent.copy x = Some d /\
    Indeterminate.female_fraction ctr self = Some ff /\
    h' = h ++ [x0; d] /\
    Cohort.sex m = Cohort.male /\
    Cohort.stalk m = S (length h) /\
    Cohort.components m = [S (length h)] /\
    Cohort.age m = Cohort.age self /\
    Cohort.num_inflorescences m = (1 - ff) * Cohort.num_inflorescences self /\
    Cohort.relative_sink_strength m
    = (1 - ff) * Cohort.relative_sink_strength self /\
    Cohort._abortion_fraction m = 0.
Proof.
  unfold Indeterminate.to_male. intros H0. inv_M H0.
  apply lift_Some in E. destruct E as [Epm ->].
  apply lift_Some in E0. destruct E0 as [ET ->].
  apply male_init_Some in E1.
  destruct E1 as (x0 & Ex0 & -> & Hsex & Hab & HT & Hpm).
  apply get_Some in E2. destruct E2 as [Ex ->].
  apply lift_Some in E3. destruct E3 as [Ed ->].
  apply alloc_Some in E4. destruct E4 as [-> ->].
  apply lift_Some in E5. destruct E5 as [Eff ->].
  apply ret_Some in H0. destruct H0 as [-> ->].
  exists x0, a2, a3, a5.
  rewrite length_app. simpl length.
  replace (length h + 1)%nat with (S (length h)) by lia.
  split; [exact Ex |]. split; [exact Ed |]. split; [exact Eff |].
  split; [rewrite <- app_assoc; reflexivity |].
  unfold Cohort.components. simpl. rewrite Hsex.
  repeat split; try reflexivity. exact Hab.
Qed.

Lemma to_female_Some (ctr : Cohort.container) (self f : Cohort.t)
    (h h' : Heap) :
  Indeterminate.to_female ctr self h = Some (f, h') ->
  exists x0 x d ff,
    (h ++ [x0]) !! Cohort.stalk self = Some x /\
    BunchComponent.copy x = Some d /\
    Indeterminate.female_fraction ctr self = Some ff /\
    h' = h ++ [x0; d] /\
    Cohort.sex f = Cohort.female /\
    Cohort.stalk f = S (length h) /\
    Cohort.components f = [S (length h)] /\
    Cohort.age f = Cohort.age self /\
    Cohort.num_inflorescences f = ff * Cohort.num_inflorescences self /\
    Cohort.relative_sink_strength f = ff * Cohort.relative_sink_strength self /\
    Cohort.has_flowered f = false.
Proof.
  unfold Indeterminate.to_female. intros H0. inv_M H0.
  apply lift_Some in E. destruct E as [Epm ->].
  apply lift_Some in E0. destruct E0 as [ET ->].
  apply female_init_Some in E1.
  destruct E1 as (x0 & Ex0 & -> & Hsex & Hfl & HT & Hpm).
  apply get_Some in E2. destruct E2 as [Ex ->].
  apply lift_Some in E3. destruct E3 as [Ed ->].
  apply alloc_Some in E4. destruct E4 as [-> ->].
  apply lift_Some in E5. destruct E5 as [Eff ->].
  apply ret_Some in H0. destruct H0 as [-> ->].
  exists x0, a2, a3, a5.
  rewrite length_app. simpl length.
  replace (length h + 1)%nat with (S (length h)) by lia.
  split; [exact Ex |]. split; [exact Ed |]. split; [exact Eff |].
  split; [rewrite <- app_assoc; reflexivity |].
  unfold Cohort.components. simpl. rewrite Hsex.
  repeat split; try reflexivity. exact Hfl.
Qed.

Lemma lookup_second_new {A} (l : list A) (a b : A) :
  (l ++ [a; b]) !! S (length l) = Some b.
Proof.
  rewrite lookup_app_r by lia.
  replace (S (length l) - length l)%nat with 1%nat by lia. reflexivity.
Qed.

(** C4.  An indeterminate cohort with [num_inflorescences = N],
    [relative_sink_strength = r] and a stalk [x] is split as
    [update_sex] does it, by [to_female()] and then [to_male()].  The
    counts of the two children add up to [N] and their relative sink
    strengths to [r].  The stalks of the children are two new objects,
    different from each other and from the stalk of the parent, each the
    only component of its cohort, and each with the mass and the age of
    [x]; the stalk of the parent is left as it was. *)
Theorem sex_split_conserves (ctr : Cohort.container)
    (self f m : Cohort.t) (x : BunchComponent.t) (h hf hm : Heap) :
  h !! Cohort.stalk self = Some x ->
  Indeterminate.to_female ctr self h = Some (f, hf) ->
  Indeterminate.to_male ctr self hf = Some (m, hm) ->
  Cohort.sex f = Cohort.female /\ Cohort.sex m = Cohort.male /\
  Cohort.num_inflorescences m + Cohort.num_inflorescences f
  == Cohort.num_inflorescences self /\
  Cohort.relative_sink_strength m + Cohort.relative_sink_strength f
  == Cohort.relative_sink_strength self /\
  Cohort.components f = [Cohort.stalk f] /\
  Cohort.components m = [Cohort.stalk m] /\
  h !! Cohort.stalk f = None /\ h !! Cohort.stalk m = None /\
  Cohort.stalk f <> Cohort.stalk m /\
  hm !! Cohort.stalk self = Some x /\
  exists xf xm,
    hm !! Cohort.stalk f = Some xf /\ hm !! Cohort.stalk m = Some xm /\
    BunchComponent.cls xf = BunchComponent.cls x /\
    BunchComponent.cls xm = BunchComponent.cls x /\
    BunchComponent.mass xf = BunchComponent.mass x /\
    BunchComponent.mass xm = BunchComponent.mass x /\
    BunchComponent.age xf = BunchComponent.age x /\
    BunchComponent.age xm = BunchComponent.age x.
Proof.
  intros Hx Hf Hm.
  pose proof (lookup_lt_Some _ _ _ Hx) as Hlt.
  apply to_female_Some in Hf.
  destruct Hf as (x0f & xs & df & ff & Exs & Edf & Eff & -> & Hsf & Hstf
                  & Hcf & _ & Hnf & Hrf & _).
  rewrite lookup_app_l in Exs by exact Hlt.
  rewrite Hx in Exs. injection Exs as <-.
  apply to_male_Some in Hm.
  destruct Hm as (x0m & xs & dm & ff' & Exs & Edm & Eff' & -> & Hsm & Hstm
                  & Hcm & _ & Hnm & Hrm & _).
  rewrite Eff in Eff'. injection Eff' as <-.
  rewrite <- app_assoc in Exs.
  rewrite lookup_app_l in Exs by exact Hlt.
  rewrite Hx in Exs. injection Exs as <-.
  apply copy_Some in Edf, Edm.
  destruct Edf as (Hcf1 & Hmf & Haf & _), Edm as (Hcm1 & Hmm & Ham & _).
  rewrite length_app in Hstm, Hcm. simpl length in Hstm, Hcm.
  split; [exact Hsf |]. split; [exact Hsm |].
  split; [rewrite Hnm, Hnf; ring |].
  split; [rewrite Hrm, Hrf; ring |].
  split; [rewrite Hcf, Hstf; reflexivity |].
  split; [rewrite Hcm, Hstm; reflexivity |].
  split; [rewrite Hstf; apply lookup_ge_None; lia |].
  split; [rewrite Hstm; apply lookup_ge_None; lia |].
  split; [rewrite Hstf, Hstm; lia |].
  split.
  { rewrite <- app_assoc. rewrite lookup_app_l by exact Hlt. exact Hx. }
  exists df, dm.
  split.
  { rewrite Hstf. rewrite lookup_app_l by (rewrite length_app; simpl; lia).
    apply lookup_second_new. }
  split.
  { rewrite Hstm.
    replace (length h + 2)%nat with (length (h ++ [x0f; df]))
      by (rewrite length_app; reflexivity).
    apply lookup_second_new. }
  repeat split; assumption.
Qed.

End Split.

Lemma sex_split_conserves_witness :
  exists x f hf m hm,
    mature_indeterminate_heap !! Cohort.stalk mature_indeterminate_cohort
    = Some x /\
    0 < BunchComponent.mass x /\
    @Indeterminate.to_female approx_lib None mature_indeterminate_cohort
      mature_indeterminate_heap = Some (f, hf) /\
    @Indeterminate.to_male approx_lib None mature_indeterminate_cohort hf
    = Some (m, hm) /\
    Cohort.num_inflorescences m + Cohort.num_inflorescences f
    == Cohort.num_inflorescences mature_indeterminate_cohort /\
    Cohort.stalk f <> Cohort.stalk m.
Proof.
  destruct (mature_indeterminate_heap
              !! Cohort.stalk mature_indeterminate_cohort)
    as [x |] eqn:Ex; [| vm_compute in Ex; discriminate].
  destruct (@Indeterminate.to_female approx_lib None
              mature_indeterminate_cohort mature_indeterminate_heap)
    as [[f hf] |] eqn:Ef; [| vm_compute in Ef; discriminate].
  destruct (@Indeterminate.to_male approx_lib None
              mature_indeterminate_cohort hf)
    as [[m hm] |] eqn:Em.
  2:{ vm_compute in Ef. injection Ef as <- <-. vm_compute in Em.
      discriminate. }
  exists x, f, hf, m, hm.
  split; [reflexivity |].
  split; [vm_compute in Ex; injection Ex as <-; vm_compute; reflexivity |].
  split; [reflexivity |]. split; [exact Em |].
  destruct (sex_split_conserves None _ _ _ _ _ _ _ Ex Ef Em)
    as (_ & _ & Hn & _ & _ & _ & _ & _ & Hne & _).
  split; assumption.
Defined.

(** ** Flowering *)

Lemma init_cls (k : BunchComponent.kind) (cpm : option Q) (a : Q)
    (pm : option Q) (T : Q) (x : BunchComponent.t) :
  BunchComponent.init k cpm a pm T = Some x -> BunchComponent.cls x = k.
Proof.
  unfold BunchComponent.init.
  destruct (match pm with Some _ => _ | None => _ end) as [pm' |];
    [| discriminate].
  cbv zeta.
  destruct (Quadratic.make_quadratic_function _ _ _) as [q |];
    [| discriminate].
  match goal with
  | |- match ?e with _ => _ end = _ -> _ => destruct e as [p0 |]
  end; [| discriminate].
  intros [= <-]. reflexivity.
Qed.

Lemma same_class_heap_refl (h : Heap) : Forall2 same_class h h.
Proof. induction h; constructor; [reflexivity | assumption]. Qed.

Lemma same_class_heap_trans (h1 h2 h3 : Heap) :
  Forall2 same_class h1 h2 -> Forall2 same_class h2 h3 ->
  Forall2 same_class h1 h3.
Proof.
  intros H12. revert h3.
  induction H12 as [| x y l k Hxy _ IH]; intros h3 H23;
    inversion H23; subst; constructor.
  - unfold same_class in *. congruence.
  - apply IH. assumption.
Qed.

(** Assigning to an object an object of its class. *)
Lemma same_class_store (h : Heap) (r : ref) (x y : BunchComponent.t) :
  h !! r = Some x -> same_class x y -> Forall2 same_class h (<[r := y]> h).
Proof.
  intros Ex Hxy. rewrite <- (list_insert_id h r x Ex) at 1.
  apply Forall2_insert; [apply same_class_heap_refl | exact Hxy].
Qed.

Lemma for_each_same_class {A} (f : A -> M unit) (xs : list A) :
  (forall a h h' u, f a h = Some (u, h') -> Forall2 same_class h h') ->
  forall h h' u,
    for_each f xs h = Some (u, h') -> Forall2 same_class h h'.
Proof.
  intros Hf. induction xs as [| a xs IH]; intros h h' u Hloop.
  - simpl in Hloop. apply ret_Some in Hloop. destruct Hloop as [_ ->].
    apply same_class_heap_refl.
  - apply for_each_cons in Hloop. destruct Hloop as (h1 & E1 & E2).
    eapply same_class_heap_trans; [eapply Hf; exact E1 | eapply IH; exact E2].
Qed.

(** [_update] allocates nothing and leaves every object in its class. *)
Lemma _update_same_class (af : Cohort.container -> Cohort.t -> option Q)
    (ctr : Cohort.container) (dt : Q) (self self' : Cohort.t) (h h' : Heap) :
  Cohort._update af ctr dt self h = Some (self', h') ->
  Forall2 same_class h h'.
Proof.
  intros H0. apply _update_Some in H0.
  destruct H0 as (h1 & a & Hm & Ha & _ & _).
  apply same_class_heap_trans with h1.
  - revert Hm. unfold Cohort.update_masses. apply for_each_same_class.
    intros r h0 h0' u E. apply component_update_mass_Some in E.
    destruct E as (x & g & Ex & _ & ->).
    eapply same_class_store; [exact Ex | reflexivity].
  - revert Ha. unfold Cohort.update_ages. apply for_each_same_class.
    intros r h0 h0' u E. apply component_update_age_Some in E.
    destruct E as (x & x' & Ex & Eu & ->).
    eapply same_class_store; [exact Ex |].
    unfold BunchComponent.update_age in Eu.
    match type of Eu with
    | match ?e with _ => _ end = _ => destruct e
    end; [| discriminate].
    injection Eu as <-. reflexivity.
Qed.

Section Flowering.

Context `{MathLib}.

Lemma flowered_no_trigger (self : Cohort.t) :
  Cohort.has_flowered self = true ->
  Female.should_trigger_flowering self = false.
Proof.
  intros Hf. unfold Female.should_trigger_flowering. rewrite Hf.
  apply andb_false_r.
Qed.

(** An update of a female cohort that has flowered: no component is
    added, to the cohort or to the heap. *)
Lemma flowered_update (ctr : Cohort.container) (dt : Q)
    (self self' : Cohort.t) (h h' : Heap) :
  Cohort.has_flowered self = true ->
  Female.update ctr dt self h = Some (self', h') ->
  Cohort.has_flowered self' = true /\
  Cohort.sex self' = Cohort.sex self /\
  Cohort.components self' = Cohort.components self /\
  Forall2 same_class h h'.
Proof.
  intros Hf Hup. apply female_update_Some in Hup.
  destruct Hup as (c1 & h1 & Hup & Hfl).
  pose proof (_update_same_class _ _ _ _ _ _ _ Hup) as Hcls.
  apply _update_Some in Hup. destruct Hup as (h2 & a & _ & _ & _ & ->).
  rewrite flowered_no_trigger in Hfl by exact Hf.
  destruct Hfl as [-> ->].
  repeat split; [exact Hf | exact Hcls].
Qed.

(** And so for the rest of its life. *)
Lemma flowered_life (steps : list life_step) :
  forall (self self' : Cohort.t) (h h' : Heap),
    Cohort.has_flowered self = true ->
    life Female.update steps self h = Some (self', h') ->
    Cohort.has_flowered self' = true /\
    Cohort.sex self' = Cohort.sex self /\
    Cohort.components self' = Cohort.components self /\
    Forall2 same_class h h'.
Proof.
  induction steps as [| [[ctr dt] ctr'] steps IH];
    intros self self' h h' Hf Hlife.
  - simpl in Hlife. apply ret_Some in Hlife. destruct Hlife as [-> ->].
    repeat split; [exact Hf | apply same_class_heap_refl].
  - simpl in Hlife. inv_M Hlife.
    apply (flowered_update _ _ _ _ _ _ Hf) in E.
    destruct E as (Hf1 & Hs1 & Hc1 & Hh1).
    apply set_relative_sink_strength_Some in E0.
    destruct E0 as (res & _ & -> & ->).
    destruct (IH (Cohort.set_relative_sink_strength_attr res a) _ _ _
                Hf1 Hlife) as (Hf2 & Hs2 & Hc2 & Hh2).
    split; [exact Hf2 |].
    split; [rewrite Hs2; exact Hs1 |].
    split; [rewrite Hc2; exact Hc1 |].
    eapply same_class_heap_trans; eassumption.
Qed.

(** The classes of the components of a cohort. *)
Lemma component_classes_same_class (h h' : Heap) (rs : list ref)
    (xs : list BunchComponent.t) :
  Forall2 same_class h h' ->
  map_opt (deref h) rs = Some xs ->
  exists xs',
    map_opt (deref h') rs = Some xs' /\
    map BunchComponent.cls xs' = map BunchComponent.cls xs.
Proof.
  intros Hh. revert xs. induction rs as [| r rs IH]; intros xs; simpl.
  - intros [= <-]. exists []. split; reflexivity.
  - unfold deref at 1 3.
    destruct (h !! r) as [x |] eqn:Ex; [| discriminate].
    destruct (map_opt (deref h) rs) as [xs0 |]; [| discriminate].
    intros [= <-].
    destruct (Forall2_lookup_l _ _ _ _ _ Hh Ex) as (y & Ey & Hxy).
    destruct (IH xs0 eq_refl) as (ys & Eys & Hcls).
    rewrite Ey, Eys. exists (y :: ys). split; [reflexivity |].
    simpl. rewrite Hcls. unfold same_class in Hxy. now rewrite Hxy.
Qed.

(** The update in which a female cohort flowers. *)
Lemma flowering_update (ctr : Cohort.container) (dt : Q)
    (self self' : Cohort.t) (h h' : Heap) (xs : BunchComponent.t) :
  Cohort.sex self = Cohort.female ->
  h !! Cohort.stalk self = Some xs ->
  Cohort.has_flowered self = false ->
  Female.update ctr dt self h = Some (self', h') ->
  Cohort.has_flowered self' = true ->
  length h' = (length h + 3)%nat /\
  exists objs,
    Cohort.component_objects h' self' = Some objs /\
    map BunchComponent.cls objs
    = [BunchComponent.cls xs; BunchComponent.MesocarpFibers;
       BunchComponent.MesocarpOil; BunchComponent.Kernels].
Proof.
  intros Hsex Hxs Hnf Hup Hf'. apply female_update_Some in Hup.
  destruct Hup as (c1 & h1 & Hup & Hfl).
  pose proof (_update_same_class _ _ _ _ _ _ _ Hup) as Hcls.
  apply _update_Some in Hup. destruct Hup as (h2 & a & _ & _ & _ & ->).
  destruct (Female.should_trigger_flowering _) eqn:Etr.
  2:{ destruct Hfl as [-> _]. simpl in Hf'. congruence. }
  apply set_fruit_Some in Hfl.
  destruct Hfl as (oil & fib & ker & Eoil & Efib & Eker & -> & ->).
  apply init_cls in Eoil, Efib, Eker.
  pose proof (Forall2_length _ _ _ Hcls) as Hlen.
  split; [rewrite length_app; simpl; lia |].
  destruct (Forall2_lookup_l _ _ _ _ _ Hcls Hxs) as (xs1 & Exs1 & Hxs1).
  unfold Cohort.component_objects, Cohort.components. simpl.
  rewrite Hsex. simpl. unfold deref.
  pose proof (lookup_lt_Some _ _ _ Exs1) as Hlt.
  rewrite (lookup_app_l h1 _ _ Hlt), Exs1.
  rewrite (lookup_app_r h1) by lia.
  replace (S (length h1) - length h1)%nat with 1%nat by lia.
  rewrite (lookup_app_r h1) by lia.
  replace (length h1 - length h1)%nat with 0%nat by lia.
  rewrite (lookup_app_r h1) by lia.
  replace (S (S (length h1)) - length h1)%nat with 2%nat by lia.
  simpl. eexists. split; [reflexivity |].
  simpl. unfold same_class in Hxs1. now rewrite <- Hxs1, Eoil, Efib, Eker.
Qed.

End Flowering.

(** ** The claims on abortion and on flowering *)

Section CohortClaims.

Context `{MathLib}.

(** C6.  An update of a female cohort multiplies its count by
    [max(0, 1 - abortion_fraction * dt)], where [abortion_fraction] is
    not negative and is zero unless the age of the cohort is in the
    inflorescence-abortion window [[t0, t1)] or in the bunch-failure
    window; so, for [dt >= 0] and a count that is not negative, the
    count does not increase, in an update and over the life of the
    cohort.  A male cohort comes out of [to_male] with an abortion
    fraction of 0 and keeps it: its count stays what it is. *)
Theorem abortion_only_removes :
  (forall (ctr : Cohort.container) (dt : Q) (self self' : Cohort.t)
          (h h' : Heap),
      Female.update ctr dt self h = Some (self', h') ->
      exists a,
        Female.abortion_fraction ctr self = Some a /\
        0 <= a /\
        (~ a == 0 ->
         in_inflorescence_abortion_window self \/
         in_bunch_failure_window self) /\
        Cohort.num_inflorescences self'
        = Cohort.num_inflorescences self * Py.max 0 (1 - a * dt) /\
        (0 <= dt -> 0 <= Cohort.num_inflorescences self ->
         0 <= Cohort.num_inflorescences self'
           <= Cohort.num_inflorescences self)) /\
  (forall (steps : list life_step) (self self' : Cohort.t) (h h' : Heap),
      Forall (fun s => 0 <= step_dt s) steps ->
      0 <= Cohort.num_inflorescences self ->
      life Female.update steps self h = Some (self', h') ->
      0 <= Cohort.num_inflorescences self'
        <= Cohort.num_inflorescences self) /\
  (forall (ctr ctr' : Cohort.container) (self m : Cohort.t) (h h' : Heap),
      Indeterminate.to_male ctr self h = Some (m, h') ->
      Cohort.abortion_fraction ctr' m = Some 0) /\
  (forall (steps : list life_step) (ctr : Cohort.container)
          (m m' : Cohort.t) (h h' : Heap),
      Cohort.abortion_fraction ctr m = Some 0 ->
      life Cohort.update steps m h = Some (m', h') ->
      Cohort.num_inflorescences m' == Cohort.num_inflorescences m /\
      Cohort.abortion_fraction ctr m' = Some 0).
Proof.
  split; [| split; [| split]].
  - intros ctr dt self self' h h' Hup.
    destruct (female_update_count _ _ _ _ _ _ Hup) as (a & Ea & En).
    destruct (female_abortion_fraction_Some _ _ _ Ea) as [Ha Hw].
    exists a. split; [exact Ea |]. split; [exact Ha |].
    split; [exact Hw |]. split; [exact En |].
    intros Hdt Hn. rewrite En.
    apply scaled_count_bounds; [exact Hn |].
    apply survival_fraction_bounds; assumption.
  - intros steps self self' h h'. apply female_life_count.
  - intros ctr ctr' self m h h' Hm. apply to_male_Some in Hm.
    destruct Hm as (x0 & x & d & ff & _ & _ & _ & _ & _ & _ & _ & _ & _ & _
                    & Ha).
    unfold Cohort.abortion_fraction. now rewrite Ha.
  - intros steps ctr m m' h h' Ha Hlife.
    unfold Cohort.abortion_fraction in *. injection Ha as Ha.
    destruct (male_life_count steps _ _ _ _ Ha Hlife) as [Hn Ha'].
    split; [exact Hn | now rewrite Ha'].
Qed.

(** C7.  [set_fruit] is one-shot.  A female cohort that has flowered
    does not trigger flowering; an update of it, and any number of them,
    leaves [has_flowered] set and the list of components as it is, and
    adds no object to the heap.  The update in which a female cohort
    flowers adds three objects, and the components of the cohort are
    then its stalk, one [MesocarpFibers], one [MesocarpOil] and one
    [Kernels], in this order. *)
Theorem flowering_is_one_shot :
  (forall self : Cohort.t,
      Cohort.has_flowered self = true ->
      Female.should_trigger_flowering self = false) /\
  (forall (steps : list life_step) (self self' : Cohort.t) (h h' : Heap),
      Cohort.has_flowered self = true ->
      life Female.update steps self h = Some (self', h') ->
      Cohort.has_flowered self' = true /\
      Cohort.components self' = Cohort.components self /\
      length h' = length h /\
      forall objs,
        Cohort.component_objects h self = Some objs ->
        exists objs',
          Cohort.component_objects h' self' = Some objs' /\
          map BunchComponent.cls objs' = map BunchComponent.cls objs) /\
  (forall (ctr : Cohort.container) (dt : Q) (self self' : Cohort.t)
          (h h' : Heap) (x : BunchComponent.t),
      Cohort.sex self = Cohort.female ->
      h !! Cohort.stalk self = Some x ->
      BunchComponent.cls x = BunchComponent.Stalk ->
      Cohort.has_flowered self = false ->
      Female.update ctr dt self h = Some (self', h') ->
      Cohort.has_flowered self' = true ->
      length h' = (length h + 3)%nat /\
      exists objs,
        Cohort.component_objects h' self' = Some objs /\
        map BunchComponent.cls objs
        = [BunchComponent.Stalk; BunchComponent.MesocarpFibers;
           BunchComponent.MesocarpOil; BunchComponent.Kernels]).
Proof.
  split; [exact flowered_no_trigger |]. split.
  - intros steps self self' h h' Hf Hlife.
    destruct (flowered_life steps _ _ _ _ Hf Hlife) as (Hf' & _ & Hc & Hh).
    split; [exact Hf' |]. split; [exact Hc |].
    split; [symmetry; exact (Forall2_length _ _ _ Hh) |].
    intros objs Eobjs. unfold Cohort.component_objects in *. rewrite Hc.
    exact (component_classes_same_class _ _ _ _ Hh Eobjs).
  - intros ctr dt self self' h h' x Hsex Hx Hcls Hnf Hup Hf'.
    rewrite <- Hcls.
    exact (flowering_update _ _ _ _ _ _ _ Hsex Hx Hnf Hup Hf').
Qed.

End CohortClaims.

Lemma abortion_only_removes_witness :
  exists self' h',
    @Female.update approx_lib None 1 aborting_female_cohort
      aborting_female_heap = Some (self', h') /\
    in_inflorescence_abortion_window aborting_female_cohort /\
    Cohort.num_inflorescences aborting_female_cohort == 1 /\
    0 <= Cohort.num_inflorescences self' < 1.
Proof.
  destruct (@Female.update approx_lib None 1 aborting_female_cohort
              aborting_female_heap) as [[self' h'] |] eqn:E;
    [| vm_compute in E; discriminate].
  exists self', h'. split; [reflexivity |].
  split; [split; vm_compute; [discriminate | reflexivity] |].
  split; [vm_compute; reflexivity |].
  destruct (proj1 (@abortion_only_removes approx_lib) _ _ _ _ _ _ E)
    as (a & _ & _ & _ & _ & Hle).
  split.
  - apply Hle; vm_compute; discriminate.
  - vm_compute in E. injection E as <- _. vm_compute. reflexivity.
Defined.

Lemma flowering_is_one_shot_witness :
  exists self' h' self'' h'',
    @Female.update approx_lib None 985 flowering_female_cohort
      flowering_female_heap = Some (self', h') /\
    Cohort.has_flowered self' = true /\
    length h' = 4%nat /\
    @Female.update approx_lib None 5 self' h' = Some (self'', h'') /\
    Cohort.components self'' = Cohort.components self' /\
    length h'' = 4%nat.
Proof.
  destruct (@Female.update approx_lib None 985 flowering_female_cohort
              flowering_female_heap) as [[self' h'] |] eqn:E;
    [| vm_compute in E; discriminate].
  destruct (@Female.update approx_lib None 5 self' h')
    as [[self'' h''] |] eqn:E'.
  2:{ vm_compute in E. injection E as <- <-. vm_compute in E'.
      discriminate. }
  assert (Hf : Cohort.has_flowered self' = true)
    by (vm_compute in E; injection E as <- _; reflexivity).
  exists self', h', self'', h''.
  split; [reflexivity |]. split; [exact Hf |].
  destruct (@flowering_is_one_shot approx_lib) as (_ & Hlife & Hflower).
  destruct (flowering_female_heap !! Cohort.stalk flowering_female_cohort)
    as [x |] eqn:Ex; [| vm_compute in Ex; discriminate].
  assert (Hcls : BunchComponent.cls x = BunchComponent.Stalk)
    by (vm_compute in Ex; injection Ex as <-; reflexivity).
  destruct (Hflower None 985 flowering_female_cohort self'
              flowering_female_heap h' x)
    as [Hlen _]; try reflexivity; try assumption.
  split; [exact Hlen |]. split; [exact E' |].
  destruct (Hlife [(None, 5, None)] self'
              (Cohort.set_relative_sink_strength_attr 1 self'') h' h'' Hf)
    as (_ & Hc & Hlen' & _).
  { simpl. unfold bind. rewrite E'. reflexivity. }
  split; [exact Hc |]. rewrite Hlen'. exact Hlen.
Defined.

(** ** The harvest *)

Section Harvest.

Context `{MathLib}.

(** The harvest that is recorded: the first of the harvestible female
    cohorts, in the order of the population, alone. *)
Lemma record_harvest_bunches (self : Cohorts.t) :
  Container._bunches (Cohorts.record_harvest self)
  = match Cohorts.harvest self with
    | x :: _ => [x]
    | [] => Container._bunches self
    end.
Proof.
  unfold Cohorts.record_harvest. destruct (Cohorts.harvest self); reflexivity.
Qed.

(** [update] records the harvest on the population as it is before the
    deletable cohorts are removed, and does not touch the record
    afterwards. *)
Lemma update_records_harvest (dt : Q) (self self' : Cohorts.t) (h h' : Heap) :
  Cohorts.update dt self h = Some (self', h') ->
  exists pop h1,
    Cohorts.update_population dt self h = Some (pop, h1) /\
    Container._bunches self'
    = match Cohorts.harvest pop with
      | x :: _ => [x]
      | [] => Container._bunches self
      end /\
    (forall x, In x (Cohorts.harvest pop) ->
       In x (Container.cohorts pop) /\ Cohort.sex x = Cohort.female /\
       Female.is_harvestible x = true /\ Cohorts.cohort_is_deletable x = true).
Proof.
  unfold Cohorts.update. intros H0. inv_M H0.
  apply get_Some in E0. destruct E0 as [Epss ->].
  unfold Cohorts.set_relative_sink_strengths in H0. inv_M H0.
  apply ret_Some in H0. destruct H0 as [-> ->].
  exists a, h0. split; [exact E |]. split.
  - simpl. rewrite record_harvest_bunches.
    destruct (Cohorts.harvest a); [| reflexivity].
    clear - E. unfold Cohorts.update_population in E. inv_M E.
    unfold Cohorts.update_new_cohorts in E. inv_M E.
    apply ret_Some in E. destruct E as [-> _].
    unfold Cohorts.update_sex in E1. inv_M E1.
    apply ret_Some in E1. destruct E1 as [-> _].
    unfold Cohorts.update_existing_cohorts in E0. inv_M E0.
    apply ret_Some in E0. destruct E0 as [-> _]. reflexivity.
  - intros x Hx. unfold Cohorts.harvest, Cohorts._females in Hx.
    apply filter_In in Hx. destruct Hx as [Hx Hh].
    apply filter_In in Hx. destruct Hx as [Hx Hs].
    assert (Hsex : Cohort.sex x = Cohort.female)
      by (destruct (Cohort.sex x); simpl in Hs; congruence).
    repeat split; try assumption.
    unfold Cohorts.cohort_is_deletable. rewrite Hsex. exact Hh.
Qed.

End Harvest.

(** C2 on the population of [ripening]: after a step of 10 days its two
    female cohorts are harvestible, 1205 and 1201 days old, and both
    are removed from the population; the harvest recorded is the one of
    1205 days, the first in the population and the older of the two,
    alone. *)
Lemma harvest_is_first_not_youngest :
  exists pop h1 self' h',
    @Cohorts.update_population approx_lib 10 ripening_container ripening_heap
    = Some (pop, h1) /\
    Forall2 Qeq (map Cohort.age (Cohorts.harvest pop)) [1205; 1201] /\
    @Cohorts.update approx_lib 10 ripening_container ripening_heap
    = Some (self', h') /\
    Container._bunches self' = firstn 1 (Cohorts.harvest pop) /\
    Forall2 Qeq (map Cohort.age (Container._bunches self')) [1205] /\
    Cohorts._females self' = [].
Proof.
  eexists. eexists. eexists. eexists.
  split; [vm_compute; reflexivity |].
  split; [vm_compute; repeat (constructor; [reflexivity |]); constructor |].
  split; [vm_compute; reflexivity |].
  split; [vm_compute; reflexivity |].
  split; [vm_compute; repeat (constructor; [reflexivity |]); constructor |].
  vm_compute. reflexivity.
Qed.

(** ** More on the partitioning functions *)

Lemma Forall2_map_l {A B} (P : B -> A -> Prop) (f : A -> B) (xs : list A) :
  (forall x, In x xs -> P (f x) x) -> Forall2 P (map f xs) xs.
Proof.
  induction xs as [| x xs IH]; intros Hf; simpl; constructor.
  - apply Hf. left. reflexivity.
  - apply IH. intros y Hy. apply Hf. right. exact Hy.
Qed.

(** [proportionate_partitioning]: with a total demand that is not zero,
    one share per demand, each [S * D / sum(Ds)], and the shares add up
    to the supply. *)
Theorem proportionate_partitioning_shares (S0 : Q) (Ds : list Q) :
  ~ Py.sum Ds == 0 ->
  exists Ss,
    proportionate_partitioning S0 Ds = Some Ss /\
    length Ss = length Ds /\
    Forall2 (fun s D => s == S0 * D / Py.sum Ds) Ss Ds /\
    Py.sum Ss == S0.
Proof.
  intros Hnz. rewrite (proportionate_partitioning_Some S0 Ds Hnz).
  eexists. split; [reflexivity |].
  split; [apply length_map |].
  split.
  - apply Forall2_map_l. intros D _. field. exact Hnz.
  - rewrite sum_map_scale. field. exact Hnz.
Qed.

Lemma proportionate_partitioning_shares_witness :
  exists Ss,
    proportionate_partitioning 6 [2; 1] = Some Ss /\
    length Ss = length [2; 1] /\
    Forall2 (fun s D => s == 6 * D / Py.sum [2; 1]) Ss [2; 1] /\
    Py.sum Ss == 6.
Proof.
  apply (proportionate_partitioning_shares 6 [2; 1]).
  vm_compute. discriminate.
Defined.

Lemma prioritized_loop_length (Ds acc : list Q) (S0 : Q) :
  length (fst (fold_left prioritized_step Ds (acc, S0)))
  = (length acc + length Ds)%nat.
Proof.
  revert acc S0. induction Ds as [| D Ds IH]; intros acc S0;
    simpl fold_left; [simpl; lia |].
  rewrite prioritized_step_eq.
  destruct (Py.ltb D S0); rewrite IH, length_app; simpl; lia.
Qed.

Lemma clamp_negative_Forall (Ss : list Q) : Forall (Qle 0) (clamp_negative Ss).
Proof.
  induction Ss as [| s Ss IH]; simpl; constructor; [| exact IH].
  destruct (Py.ltb s 0) eqn:E; [lra |]. apply ltb_false in E. exact E.
Qed.

(** [prioritized_partitioning], whatever the supply and the demands:
    no share is negative, there is one share per demand, and for an
    empty list of demands the one share is the supply, or 0 for a
    negative supply. *)
Theorem prioritized_partitioning_shape (S0 : Q) (Ds : list Q) :
  Forall (Qle 0) (prioritized_partitioning S0 Ds) /\
  length (prioritized_partitioning S0 Ds) = Nat.max 1 (length Ds) /\
  prioritized_partitioning S0 [] = [if Py.ltb S0 0 then 0 else S0].
Proof.
  split; [apply clamp_negative_Forall |]. split; [| reflexivity].
  unfold prioritized_partitioning, clamp_negative.
  rewrite length_map, length_app, prioritized_loop_length. simpl.
  destruct Ds as [| D Ds]; [reflexivity |].
  pose proof (length_removelast (D :: Ds)) as Hl.
  specialize (Hl ltac:(discriminate)). simpl length in *. lia.
Qed.

(** The loop hands out no more than is asked for. *)
Lemma prioritized_loop_bounded (Ds : list Q) :
  forall (acc pre : list Q) (S0 : Q),
    Forall2 Qle acc pre ->
    Forall2 Qle (fst (fold_left prioritized_step Ds (acc, S0))) (pre ++ Ds).
Proof.
  induction Ds as [| D Ds IH]; intros acc pre S0 Hacc; simpl fold_left.
  - simpl. rewrite app_nil_r. exact Hacc.
  - rewrite prioritized_step_eq.
    replace (pre ++ D :: Ds) with ((pre ++ [D]) ++ Ds)
      by (rewrite <- app_assoc; reflexivity).
    destruct (Py.ltb D S0) eqn:E; apply IH; apply Forall2_app;
      try exact Hacc; repeat constructor.
    + apply Qle_refl.
    + apply ltb_false in E. exact E.
Qed.

(** [prioritized_partitioning] for a supply and demands that are not
    negative: every share but the last is at most its demand; the last
    share is what is left of the supply, whatever the last demand. *)
Theorem prioritized_partitioning_bounded (S0 : Q) (Ds : list Q) :
  0 <= S0 -> Forall (Qle 0) Ds ->
  Forall2 Qle (removelast (prioritized_partitioning S0 Ds)) (removelast Ds) /\
  Py.sum (prioritized_partitioning S0 Ds) == S0.
Proof.
  intros HS HDs.
  split; [| exact (proj1 (prioritized_partitioning_sum S0 Ds HS HDs))].
  pose proof (proj2 (prioritized_partitioning_sum S0 Ds HS HDs)) as Hnn.
  unfold prioritized_partitioning in *.
  set (st := fold_left prioritized_step (removelast Ds) ([], S0)) in *.
  assert (E : clamp_negative (fst st ++ [snd st]) = fst st ++ [snd st]).
  { pose proof (prioritized_loop_inv (removelast Ds) [] S0
                  (Forall_removelast _ _ HDs) (List.Forall_nil _) HS) as H.
    cbv zeta in H. destruct H as (H1 & H2 & _).
    apply clamp_negative_nonneg. apply Forall_app.
    split; [exact H1 | repeat constructor; exact H2]. }
  rewrite E, removelast_last.
  exact (prioritized_loop_bounded (removelast Ds) [] [] S0 (List.Forall2_nil _)).
Qed.

Lemma prioritized_partitioning_bounded_witness :
  Forall2 Qle (removelast (prioritized_partitioning 4 [2; 1])) (removelast [2; 1]) /\
  Py.sum (prioritized_partitioning 4 [2; 1]) == 4.
Proof.
  apply (prioritized_partitioning_bounded 4 [2; 1]).
  - vm_compute. discriminate.
  - repeat constructor; vm_compute; discriminate.
Defined.

Lemma array_scale_nonneg (k : Q) (xs : list Q) :
  0 <= k -> Forall (Qle 0) xs -> Forall (Qle 0) (array_scale k xs).
Proof.
  intros Hk Hxs. unfold array_scale.
  induction Hxs as [| x xs Hx _ IH]; simpl; constructor; [| exact IH].
  apply Qmult_le_0_compat; assumption.
Qed.

Lemma array_add_nonneg (xs ys : list Q) :
  Forall (Qle 0) xs -> Forall (Qle 0) ys -> Forall (Qle 0) (array_add xs ys).
Proof.
  intros Hxs. revert ys.
  induction Hxs as [| x xs Hx _ IH]; intros ys Hys; simpl; [constructor |].
  destruct Hys as [| y ys Hy Hys]; constructor; [lra | apply IH; exact Hys].
Qed.

Lemma array_add_length (xs ys : list Q) :
  length xs = length ys -> length (array_add xs ys) = length xs.
Proof.
  revert ys. induction xs as [| x xs IHx]; intros [| y ys] Hl; simpl in *;
    try discriminate; [reflexivity |].
  f_equal. apply IHx. congruence.
Qed.

Lemma parametrized_partitioning_length (S0 : Q) (Ds : list Q) (k : Q)
    (Ss : list Q) :
  parametrized_partitioning S0 Ds k = Some Ss -> length Ss = length Ds.
Proof.
  unfold parametrized_partitioning.
  destruct (proportionate_partitioning S0 Ds) as [prop |] eqn:Eprop;
    [| discriminate].
  intros [= <-].
  pose proof (partitionings_same_length S0 Ds prop Eprop) as Hlen.
  unfold proportionate_partitioning in Eprop.
  destruct (Py.div S0 (Py.sum Ds)) as [scalar |] eqn:Ediv; [| discriminate].
  injection Eprop as <-.
  rewrite length_map in Hlen.
  rewrite array_add_length; unfold array_scale; rewrite !length_map;
    exact Hlen.
Qed.

Lemma parametrized_partitioning_shares_nonneg (S0 : Q) (Ds : list Q) (k : Q)
    (Ss : list Q) :
  0 <= S0 -> Forall (Qle 0) Ds -> 0 <= k <= 1 ->
  parametrized_partitioning S0 Ds k = Some Ss -> Forall (Qle 0) Ss.
Proof.
  intros HS HDs [Hk0 Hk1]. unfold parametrized_partitioning.
  destruct (proportionate_partitioning S0 Ds) as [prop |] eqn:Eprop;
    [| discriminate].
  intros [= <-].
  unfold proportionate_partitioning in Eprop.
  destruct (Py.div S0 (Py.sum Ds)) as [scalar |] eqn:Ediv; [| discriminate].
  injection Eprop as <-.
  apply div_Some in Ediv. destruct Ediv as [Hnz ->].
  pose proof (sum_nonneg Ds HDs) as Hsum.
  assert (Hpos : 0 < Py.sum Ds).
  { destruct (Qlt_le_dec 0 (Py.sum Ds)) as [Hlt | Hle]; [exact Hlt |].
    exfalso. apply Hnz. lra. }
  assert (Hscalar : 0 <= S0 / Py.sum Ds)
    by (apply Qle_shift_div_l; [exact Hpos | lra]).
  apply array_add_nonneg; apply array_scale_nonneg; try lra.
  - exact (proj2 (prioritized_partitioning_sum S0 Ds HS HDs)).
  - exact (array_scale_nonneg _ _ Hscalar HDs).
Qed.

(** [parametrized_partitioning] for a supply and demands that are not
    negative and [k] in [[0, 1]]: no share is negative, and there is
    one share for each demand. *)
Theorem parametrized_partitioning_nonneg (S0 : Q) (Ds : list Q) (k : Q)
    (Ss : list Q) :
  0 <= S0 -> Forall (Qle 0) Ds -> 0 <= k <= 1 ->
  parametrized_partitioning S0 Ds k = Some Ss ->
  Forall (Qle 0) Ss /\ length Ss = length Ds.
Proof.
  intros HS HDs Hk E. split.
  - exact (parametrized_partitioning_shares_nonneg S0 Ds k Ss HS HDs Hk E).
  - exact (parametrized_partitioning_length S0 Ds k Ss E).
Qed.

Lemma parametrized_partitioning_nonneg_witness :
  exists Ss,
    parametrized_partitioning 4 [2; 1] 0.8 = Some Ss /\
    Forall (Qle 0) Ss /\ length Ss = 2%nat.
Proof.
  destruct (parametrized_partitioning 4 [2; 1] 0.8) as [Ss |] eqn:E;
    [| vm_compute in E; discriminate].
  exists Ss. split; [reflexivity |].
  apply (parametrized_partitioning_nonneg 4 [2; 1] 0.8 Ss).
  - vm_compute. discriminate.
  - repeat constructor; vm_compute; discriminate.
  - split; vm_compute; discriminate.
  - exact E.
Defined.

(** The two allocations of [Assimilates], to the vegetative and to the
    generative sink, for growth assimilates and demands that are not
    negative: neither is negative, the generative one is at most its
    demand, and together they are at most the growth assimilates. *)
Theorem growth_allocations_within_supply
    (assim_growth_total veg gen a_veg a_gen : Q) :
  0 <= assim_growth_total -> 0 <= veg -> 0 <= gen ->
  get_assim_growth_vegetative assim_growth_total veg gen = Some a_veg ->
  get_assim_growth_generative assim_growth_total veg gen = Some a_gen ->
  0 <= a_veg /\ 0 <= a_gen <= gen /\ a_veg + a_gen <= assim_growth_total.
Proof.
  intros HS Hv Hg.
  unfold get_assim_growth_vegetative, get_assim_growth_generative.
  destruct (parametrized_partitioning assim_growth_total [veg; gen]
              vegetative_priority) as [Ss |] eqn:E; [| discriminate].
  assert (HDs : Forall (Qle 0) [veg; gen]) by (repeat constructor; assumption).
  assert (Hk : 0 <= vegetative_priority <= 1)
    by (split; vm_compute; discriminate).
  pose proof (parametrized_partitioning_shares_nonneg _ _ _ _ HS HDs Hk E)
    as Hnn.
  pose proof (parametrized_partitioning_length _ _ _ _ E) as Hlen.
  assert (Hpos : 0 < Py.sum [veg; gen]).
  { unfold parametrized_partitioning, proportionate_partitioning in E.
    destruct (Py.div assim_growth_total (Py.sum [veg; gen])) eqn:Ediv;
      [| discriminate].
    apply div_Some in Ediv. destruct Ediv as [Hnz _].
    pose proof (sum_nonneg _ HDs) as Hsum.
    destruct (Qlt_le_dec 0 (Py.sum [veg; gen])) as [Hlt | Hle]; [exact Hlt |].
    exfalso. apply Hnz. lra. }
  destruct (parametrized_partitioning_sum assim_growth_total [veg; gen]
              vegetative_priority HS HDs Hpos) as (Ss' & E' & Hsum).
  rewrite E in E'. injection E' as <-.
  destruct Ss as [| x0 [| x1 [| x2 Ss]]]; simpl in Hlen; try discriminate.
  rewrite !sum_cons, sum_nil in Hsum.
  inversion Hnn as [| ? ? H0 Hnn']; subst.
  inversion Hnn' as [| ? ? H1 _]; subst.
  unfold item. simpl.
  intros Ea Eb.
  assert (Ha : a_veg == x0).
  { destruct (Py.leb x0 0) eqn:El; injection Ea as <-; [| reflexivity].
    apply leb_true in El. lra. }
  injection Eb as <-.
  destruct (min_spec x1 gen) as [[Hm ->] | [Hm ->]]; rewrite Ha; lra.
Qed.

Lemma growth_allocations_within_supply_witness :
  exists a_veg a_gen,
    get_assim_growth_vegetative 6 5 10 = Some a_veg /\
    get_assim_growth_generative 6 5 10 = Some a_gen /\
    0 <= a_veg /\ 0 <= a_gen <= 10 /\ a_veg + a_gen <= 6.
Proof.
  destruct (get_assim_growth_vegetative 6 5 10) as [a_veg |] eqn:Ea;
    [| vm_compute in Ea; discriminate].
  destruct (get_assim_growth_generative 6 5 10) as [a_gen |] eqn:Eb;
    [| vm_compute in Eb; discriminate].
  exists a_veg, a_gen. split; [reflexivity |]. split; [reflexivity |].
  apply (growth_allocations_within_supply 6 5 10 a_veg a_gen);
    try assumption; vm_compute; discriminate.
Defined.

(** ** The curve of potential growth *)

Lemma sq_nonneg (x : Q) : 0 <= Py.sq x.
Proof.
  unfold Py.sq. destruct (Qlt_le_dec x 0) as [H | H].
  - assert (E : x * x == (- x) * (- x)) by ring.
    rewrite E. apply Qmult_le_0_compat; lra.
  - apply Qmult_le_0_compat; assumption.
Qed.

Lemma sq_pos (x : Q) : ~ x == 0 -> 0 < Py.sq x.
Proof.
  intros Hx. unfold Py.sq. destruct (Qlt_le_dec x 0) as [H | H].
  - assert (E : x * x == (- x) * (- x)) by ring.
    rewrite E. apply Qmult_lt_0_compat; lra.
  - apply Qmult_lt_0_compat; destruct (Qeq_dec x 0); try contradiction;
      destruct (Qlt_le_dec 0 x); try assumption; exfalso; apply Hx; lra.
Qed.

Lemma make_quadratic_function_Some (x1 x2 A : Q) (f : Quadratic.t) :
  Quadratic.make_quadratic_function x1 x2 A = Some f ->
  ~ x2 - x1 == 0 /\
  f = {| Quadratic.x1 := x1; Quadratic.x2 := x2;
         Quadratic.h := 1.5 * A / (x2 - x1);
         Quadratic.hw := 0.5 * (x2 - x1) |}.
Proof.
  unfold Quadratic.make_quadratic_function. cbv zeta.
  destruct (Py.div (1.5 * A) (x2 - x1)) as [h |] eqn:E; [| discriminate].
  intros [= <-]. apply div_Some in E. destruct E as [Hnz ->].
  split; [exact Hnz | reflexivity].
Qed.

(** A value of the curve, when there is one, is not negative, and it is
    0 at and outside the two ends. *)
Lemma func_Some (f : Quadratic.t) (x y : Q) :
  Quadratic.func f x = Some y ->
  0 <= y /\ (x <= Quadratic.x1 f \/ Quadratic.x2 f <= x -> y == 0).
Proof.
  unfold Quadratic.func.
  destruct (Py.leb x (Quadratic.x1 f)) eqn:E1.
  - intros [= <-]. split; [lra | reflexivity].
  - destruct (Py.geb x (Quadratic.x2 f)) eqn:E2.
    + intros [= <-]. split; [lra | reflexivity].
    + destruct (Py.div _ _) as [q |]; [| discriminate].
      intros [= <-]. apply leb_false in E1. apply geb_false in E2.
      split.
      * destruct (max_spec 0 q) as [[H ->] | [H ->]]; lra.
      * intros [H | H]; lra.
Qed.

Lemma make_quadratic_function_None (x1 x2 A : Q) :
  x2 - x1 == 0 -> Quadratic.make_quadratic_function x1 x2 A = None.
Proof.
  intros Hz. unfold Quadratic.make_quadratic_function. cbv zeta.
  now rewrite (div_zero _ _ Hz).
Qed.

Lemma make_quadratic_function_returns (x1 x2 A : Q) :
  ~ x2 - x1 == 0 ->
  Quadratic.make_quadratic_function x1 x2 A
  = Some {| Quadratic.x1 := x1; Quadratic.x2 := x2;
            Quadratic.h := 1.5 * A / (x2 - x1);
            Quadratic.hw := 0.5 * (x2 - x1) |}.
Proof.
  intros Hnz. unfold Quadratic.make_quadratic_function. cbv zeta.
  now rewrite (div_nonzero _ _ Hnz).
Qed.

Lemma half_width_sq_pos (x1 x2 : Q) :
  ~ x2 - x1 == 0 -> 0 < Py.sq (0.5 * (x2 - x1)).
Proof. intros Hnz. apply sq_pos. intros E. apply Hnz. lra. Qed.

(** The values of a curve that [make_quadratic_function] returned. *)
Lemma quadratic_func_values (x1 x2 A : Q) (f : Quadratic.t) (x : Q) :
  Quadratic.make_quadratic_function x1 x2 A = Some f ->
  exists y,
    Quadratic.func f x = Some y /\ 0 <= y /\
    (x <= x1 \/ x2 <= x -> y == 0) /\
    (x1 < x2 -> 0 <= A -> y <= 1.5 * A / (x2 - x1)).
Proof.
  intros Ef. apply make_quadratic_function_Some in Ef.
  destruct Ef as [Hnz ->].
  pose proof (half_width_sq_pos x1 x2 Hnz) as Hsq.
  set (W := x2 - x1) in *. set (h := 1.5 * A / W).
  assert (Hsqnz : ~ Py.sq (0.5 * W) == 0) by lra.
  assert (Hh : x1 < x2 -> 0 <= A -> 0 <= h).
  { intros Hlt HA. unfold h. apply Qle_shift_div_l; [unfold W; lra | lra]. }
  unfold Quadratic.func. simpl.
  destruct (Py.leb x x1) eqn:E1.
  { apply leb_true in E1. exists 0. split; [reflexivity |].
    split; [lra |]. split; [reflexivity |]. intros Hlt HA.
    specialize (Hh Hlt HA). lra. }
  destruct (Py.geb x x2) eqn:E2.
  { apply geb_true in E2. exists 0. split; [reflexivity |].
    split; [lra |]. split; [reflexivity |]. intros Hlt HA.
    specialize (Hh Hlt HA). lra. }
  apply leb_false in E1. apply geb_false in E2.
  rewrite (div_nonzero _ _ Hsqnz). eexists. split; [reflexivity |].
  set (q := - h * (x - x1) * (x - x2) / Py.sq (0.5 * W)).
  split; [destruct (max_spec 0 q) as [[H ->] | [H ->]]; lra |].
  split; [intros [H | H]; lra |].
  intros Hlt HA. specialize (Hh Hlt HA).
  assert (Hq : q <= h).
  { unfold q. apply Qle_shift_div_r; [exact Hsq |].
    unfold Py.sq.
    assert (Hsquare : 0 <= Py.sq (x - (x1 + x2) / 2)) by apply sq_nonneg.
    unfold Py.sq in Hsquare.
    assert (E : h * (0.5 * W * (0.5 * W)) - - h * (x - x1) * (x - x2)
                == h * ((x - (x1 + x2) / 2) * (x - (x1 + x2) / 2)))
      by (unfold W; field).
    assert (0 <= h * ((x - (x1 + x2) / 2) * (x - (x1 + x2) / 2)))
      by (apply Qmult_le_0_compat; assumption).
    lra. }
  destruct (max_spec 0 q) as [[H ->] | [H ->]]; lra.
Qed.

(** The value half way is the height. *)
Lemma quadratic_func_midpoint (x1 x2 A : Q) (f : Quadratic.t) :
  Quadratic.make_quadratic_function x1 x2 A = Some f ->
  x1 < x2 -> 0 <= A ->
  exists y,
    Quadratic.func f ((x1 + x2) / 2) = Some y /\ y == 1.5 * A / (x2 - x1).
Proof.
  intros Ef Hlt HA. apply make_quadratic_function_Some in Ef.
  destruct Ef as [Hnz ->].
  pose proof (half_width_sq_pos x1 x2 Hnz) as Hsq.
  set (W := x2 - x1) in *. set (h := 1.5 * A / W).
  assert (Hsqnz : ~ Py.sq (0.5 * W) == 0) by lra.
  assert (Hh : 0 <= h).
  { unfold h. apply Qle_shift_div_l; [unfold W; lra | lra]. }
  unfold Quadratic.func. simpl.
  assert (Em : (x1 + x2) / 2 == (x1 + x2) * (1 # 2)) by field.
  assert (E1 : Py.leb ((x1 + x2) / 2) x1 = false)
    by (apply leb_false; rewrite Em; clear - Hlt; lra).
  assert (E2 : Py.geb ((x1 + x2) / 2) x2 = false)
    by (apply geb_false; rewrite Em; clear - Hlt; lra).
  rewrite E1, E2, (div_nonzero _ _ Hsqnz).
  eexists. split; [reflexivity |].
  set (q := - h * ((x1 + x2) / 2 - x1) * ((x1 + x2) / 2 - x2)
            / Py.sq (0.5 * W)).
  assert (Eq : q == h).
  { unfold q, Py.sq, W. field. unfold W in Hnz. lra. }
  destruct (max_spec 0 q) as [[H ->] | [H ->]]; lra.
Qed.



(** ** Bunch components *)

Lemma conversion_efficiency_pos (k : BunchComponent.kind) :
  0 < BunchComponent.conversion_efficiency (BunchComponent.parameters k).
Proof. destruct k; vm_compute; reflexivity. Qed.

Lemma growth_window_width (k : BunchComponent.kind) :
  BunchComponent.t_growth_start (BunchComponent.parameters k)
  < BunchComponent.t_growth_end (BunchComponent.parameters k).
Proof. destruct k; vm_compute; reflexivity. Qed.

(** A potential sink strength, when there is one, is not negative. *)
Lemma get_potential_sink_strength_nonneg (x : BunchComponent.t) (p : Q) :
  BunchComponent.get_potential_sink_strength x = Some p -> 0 <= p.
Proof.
  unfold BunchComponent.get_potential_sink_strength,
    BunchComponent.mass_growth_rate_potential. cbv zeta.
  destruct (Quadratic.func _ _) as [r |] eqn:Er; [| discriminate].
  intros E. apply div_Some in E. destruct E as [_ ->].
  apply func_Some in Er. destruct Er as [Hr _].
  apply Qle_shift_div_l; [apply conversion_efficiency_pos | lra].
Qed.

(** The curve of a well-formed component has a value at every age. *)
Lemma well_formed_potential (x : BunchComponent.t) (a : Q) :
  well_formed x ->
  exists r,
    Quadratic.func (BunchComponent._potential_growth_function x) a = Some r /\
    0 <= r.
Proof.
  intros (Hf & _).
  destruct (quadratic_func_values _ _ _ _ a Hf) as (y & Ey & Hy & _). eauto.
Qed.

Lemma well_formed_sink (x : BunchComponent.t) (a : Q) :
  well_formed x ->
  exists p,
    BunchComponent.get_potential_sink_strength (BunchComponent.set_age a x)
    = Some p /\ 0 <= p.
Proof.
  intros Hwf. destruct (well_formed_potential x a Hwf) as (r & Er & Hr).
  unfold BunchComponent.get_potential_sink_strength,
    BunchComponent.mass_growth_rate_potential. simpl. rewrite Er.
  pose proof (conversion_efficiency_pos (BunchComponent.cls x)) as Hc.
  rewrite div_nonzero by lra.
  eexists. split; [reflexivity |].
  apply Qle_shift_div_l; [exact Hc | lra].
Qed.

Lemma growth_window_zero (k : BunchComponent.kind) (T : Q) :
  T * BunchComponent.t_growth_end (BunchComponent.parameters k)
  - T * BunchComponent.t_growth_start (BunchComponent.parameters k) == 0
  <-> T == 0.
Proof.
  pose proof (growth_window_width k) as Hw.
  set (start := BunchComponent.t_growth_start (BunchComponent.parameters k))
    in *.
  set (stop := BunchComponent.t_growth_end (BunchComponent.parameters k)) in *.
  split; intros E.
  - assert (E' : T * (stop - start) == 0) by (rewrite <- E; ring).
    apply Qmult_integral in E'. destruct E' as [E' | E']; [exact E' | lra].
  - rewrite E. ring.
Qed.

Lemma component_init_zero_maturity (k : BunchComponent.kind)
    (cpm : option Q) (a : Q) (pm0 : option Q) (T : Q) :
  T == 0 -> BunchComponent.init k cpm a pm0 T = None.
Proof.
  intros HT. unfold BunchComponent.init.
  destruct (match pm0 with Some _ => _ | None => _ end) as [pm |];
    [| reflexivity].
  cbv zeta.
  now rewrite (make_quadratic_function_None _ _ pm
                 (proj2 (growth_window_zero k T) HT)).
Qed.

Lemma component_init_returns (k : BunchComponent.kind)
    (cpm : option Q) (a : Q) (pm0 : option Q) (T : Q) :
  ~ T == 0 -> pm0 <> None \/ cpm <> None ->
  exists x, BunchComponent.init k cpm a pm0 T = Some x.
Proof.
  intros HT Hpm. unfold BunchComponent.init.
  assert (Epm : exists pm,
             match pm0 with
             | Some pm => Some pm
             | None => BunchComponent.get_potential_mass k cpm
             end = Some pm).
  { destruct pm0 as [pm |]; [eauto |].
    destruct cpm as [total |]; [| destruct Hpm; congruence].
    unfold BunchComponent.get_potential_mass. eauto. }
  destruct Epm as [pm ->]. cbv zeta.
  assert (Hnz : ~ T * BunchComponent.t_growth_end (BunchComponent.parameters k)
                  - T * BunchComponent.t_growth_start
                          (BunchComponent.parameters k) == 0)
    by (intros E; apply HT, (growth_window_zero k T), E).
  pose proof (make_quadratic_function_returns _ _ pm Hnz) as Ef.
  rewrite Ef.
  destruct (quadratic_func_values _ _ _ _ a Ef) as (y & Ey & _).
  unfold BunchComponent.get_potential_sink_strength,
    BunchComponent.mass_growth_rate_potential. simpl. rewrite Ey.
  pose proof (conversion_efficiency_pos k) as Hc.
  rewrite div_nonzero by lra. eauto.
Qed.



Lemma init_well_formed (k : BunchComponent.kind) (cpm : option Q) (a : Q)
    (pm : option Q) (T : Q) (x : BunchComponent.t) :
  BunchComponent.init k cpm a pm T = Some x -> well_formed x.
Proof.
  unfold BunchComponent.init.
  destruct (match pm with Some _ => _ | None => _ end) as [pm' |];
    [| discriminate].
  cbv zeta.
  destruct (Quadratic.make_quadratic_function _ _ _) as [q |] eqn:Eq;
    [| discriminate].
  match goal with
  | |- match ?e with _ => _ end = _ -> _ => destruct e as [p0 |] eqn:Ep
  end; [| discriminate].
  intros [= <-]. unfold well_formed. simpl.
  split; [exact Eq |]. split; [exact Ep |]. split; reflexivity.
Qed.

Lemma copy_result_well_formed (x d : BunchComponent.t) :
  BunchComponent.copy x = Some d -> well_formed d.
Proof.
  unfold BunchComponent.copy. cbv zeta.
  destruct (BunchComponent.init _ _ _ _ _) as [d0 |] eqn:E0; [| discriminate].
  apply init_well_formed in E0. destruct E0 as (Hf & _ & Ha & Ht).
  match goal with
  | |- match ?e with _ => _ end = _ -> _ => destruct e as [p |] eqn:Ep
  end; [| discriminate].
  intros [= <-]. unfold well_formed. simpl.
  split; [exact Hf |]. split; [exact Ep |]. split; assumption.
Qed.

Lemma update_mass_well_formed (o : option BunchComponent.owner) (dt : Q)
    (x x' : BunchComponent.t) :
  well_formed x -> BunchComponent.update_mass o dt x = Some x' ->
  well_formed x'.
Proof.
  intros (Hf & Hp & Ha & Ht).
  unfold BunchComponent.update_mass.
  destruct (BunchComponent.mass_growth_rate o x) as [r |]; [| discriminate].
  intros [= <-]. unfold well_formed. simpl.
  split; [exact Hf |]. split; [exact Hp |]. split; assumption.
Qed.

Lemma update_age_well_formed (dt : Q) (x x' : BunchComponent.t) :
  well_formed x -> BunchComponent.update_age dt x = Some x' ->
  well_formed x'.
Proof.
  intros (Hf & Hp & Ha & Ht).
  unfold BunchComponent.update_age.
  match goal with
  | |- match ?e with _ => _ end = _ -> _ => destruct e as [p |] eqn:Ep
  end; [| discriminate].
  intros [= <-]. unfold well_formed. simpl.
  split; [exact Hf |]. split; [exact Ep |]. split; assumption.
Qed.

(** The invariant of the components: every component that [__init__]
    or [copy] returns is well formed, [update_mass] and [update_age]
    keep it so, and the potential sink strength of a well-formed
    component is not negative. *)
Theorem components_stay_well_formed :
  (forall k cpm a pm T x,
      BunchComponent.init k cpm a pm T = Some x -> well_formed x) /\
  (forall x d, BunchComponent.copy x = Some d -> well_formed d) /\
  (forall o dt x x',
      well_formed x -> BunchComponent.update_mass o dt x = Some x' ->
      well_formed x') /\
  (forall dt x x',
      well_formed x -> BunchComponent.update_age dt x = Some x' ->
      well_formed x') /\
  (forall x, well_formed x -> 0 <= BunchComponent.potential_sink_strength x).
Proof.
  split; [exact init_well_formed |].
  split; [exact copy_result_well_formed |].
  split; [exact update_mass_well_formed |].
  split; [exact update_age_well_formed |].
  intros x (_ & Hp & _).
  exact (get_potential_sink_strength_nonneg x _ Hp).
Qed.

Lemma components_stay_well_formed_witness :
  exists x, young_female_heap !! 0%nat = Some x /\
            0 <= BunchComponent.potential_sink_strength x.
Proof.
  destruct (young_female_heap !! 0%nat) as [x |] eqn:Ex;
    [| vm_compute in Ex; discriminate].
  exists x. split; [reflexivity |].
  apply (proj2 (proj2 (proj2 (proj2 components_stay_well_formed)))).
  vm_compute in Ex. injection Ex as <-.
  unfold well_formed. repeat split; vm_compute; reflexivity.
Defined.


(** [copy] on a well-formed component returns a component equal to it,
    attribute by attribute. *)
Theorem copy_well_formed (x : BunchComponent.t) :
  well_formed x -> BunchComponent.copy x = Some x.
Proof.
  intros Hwf. pose proof Hwf as (Hf & Hp & Ha & Ht).
  destruct (well_formed_sink x 0 Hwf) as (p0 & Ep0 & _).
  unfold BunchComponent.copy, BunchComponent.init. cbv zeta.
  rewrite Hf.
  unfold BunchComponent.get_potential_sink_strength,
    BunchComponent.mass_growth_rate_potential in *. simpl in *.
  rewrite Ep0. simpl. rewrite Hp.
  destruct x. simpl in *. subst. reflexivity.
Qed.

Lemma copy_well_formed_witness :
  exists x, young_female_heap !! 0%nat = Some x /\
            BunchComponent.copy x = Some x.
Proof.
  destruct (young_female_heap !! 0%nat) as [x |] eqn:Ex;
    [| vm_compute in Ex; discriminate].
  exists x. split; [reflexivity |].
  apply copy_well_formed.
  vm_compute in Ex. injection Ex as <-.
  unfold well_formed. repeat split; vm_compute; reflexivity.
Defined.


(** ** The trunk: when a step raises, and what a run adds to the mass *)

(** [Trunk.update] raises exactly when the trunk stands alone, when a
    divisor is 0 (the density, or the days of the month), or when one
    of the two assertions fails: the mass after the step is negative,
    or the lignified mass after the step is not positive. *)
Theorem trunk_update_raises (palm : option Palm.t) (dt : Q) (self : Trunk.t) :
  Trunk.update palm dt self = None <->
  match palm with
  | None => True
  | Some p =>
      Trunk.density palm == 0 \/ Palm._days_in_month p == 0 \/
      Trunk.mass self
      + (Trunk.conversion_efficiency * Palm.assim_growth_trunk p
         - Trunk.mass_loss_rate) * dt < 0 \/
      Trunk.lignified_mass self + lignification p self * dt <= 0
  end.
Proof.
  split.
  - intros E. destruct palm as [p |]; [| exact I].
    destruct (Qeq_dec (Trunk.density (Some p)) 0) as [Hd | Hd];
      [left; exact Hd |].
    destruct (Qeq_dec (Palm._days_in_month p) 0) as [Hm | Hm];
      [right; left; exact Hm |].
    destruct (Qlt_le_dec
                (Trunk.mass self
                 + (Trunk.conversion_efficiency * Palm.assim_growth_trunk p
                    - Trunk.mass_loss_rate) * dt) 0) as [Hlt | Hge];
      [right; right; left; exact Hlt |].
    destruct (Qlt_le_dec 0 (Trunk.lignified_mass self
                            + lignification p self * dt)) as [Hpos | Hle];
      [| right; right; right; exact Hle].
    destruct (trunk_update_returns p dt self Hd Hm Hge Hpos) as [s' Es].
    congruence.
  - intros Hc. destruct (Trunk.update palm dt self) as [s' |] eqn:E;
      [| reflexivity].
    exfalso. apply trunk_update_Some in E.
    destruct E as (p & -> & Hd & Hm & El & Em & Hmass & Hlig).
    rewrite Em in Hmass. rewrite El in Hlig.
    destruct Hc as [Hc | [Hc | [Hc | Hc]]]; [contradiction.. | lra | lra].
Qed.

Lemma trunk_update_raises_witness :
  exists s0,
    Trunk.init (Some (zero_light_palm 0)) = Some s0 /\
    Trunk.update (Some (zero_light_palm 0)) 0 s0 = None.
Proof.
  eexists. split; [reflexivity |].
  apply (proj2 (trunk_update_raises (Some (zero_light_palm 0)) 0 _)).
  right. right. right. vm_compute. discriminate.
Defined.

Lemma trunk_growth_cons (p : Palm.t) (dt : Q) (steps : list (Palm.t * Q)) :
  trunk_growth ((p, dt) :: steps)
  == Trunk.conversion_efficiency * Palm.assim_growth_trunk p * dt
     + trunk_growth steps.
Proof. unfold trunk_growth. simpl map. apply sum_cons. Qed.

(** Over a run the mass of the trunk is the mass at the start plus the
    converted growth assimilates of the steps: nothing else enters it
    and nothing leaves it.  It does not decrease when no step has
    negative assimilates or a negative length. *)
Theorem trunk_run_mass (steps : list (Palm.t * Q)) (s s' : Trunk.t) :
  Trunk.run steps s = Some s' ->
  Trunk.mass s' == Trunk.mass s + trunk_growth steps /\
  (Forall (fun st => 0 <= Palm.assim_growth_trunk (fst st) /\ 0 <= snd st)
     steps ->
   Trunk.mass s <= Trunk.mass s').
Proof.
  revert s. induction steps as [| [p dt] steps IH]; intros s Hrun.
  - simpl in Hrun. injection Hrun as <-. unfold trunk_growth. simpl.
    rewrite sum_nil. split; [ring | intros _; lra].
  - simpl in Hrun.
    destruct (Trunk.update (Some p) dt s) as [s1 |] eqn:E1; [| discriminate].
    apply trunk_update_Some in E1.
    destruct E1 as (p0 & [= <-] & _ & _ & _ & Em & _).
    destruct (IH s1 Hrun) as [Hsum Hmono].
    assert (Estep : Trunk.mass s1
                    == Trunk.mass s
                       + Trunk.conversion_efficiency
                         * Palm.assim_growth_trunk p * dt).
    { rewrite Em. unfold Trunk.mass_loss_rate, Trunk.mass_loss_rate_value.
      ring. }
    split.
    + rewrite Hsum, Estep, trunk_growth_cons. ring.
    + intros Hall. inversion Hall as [| st sts [Ha Hdt] Hall']; subst.
      simpl in Ha, Hdt. specialize (Hmono Hall').
      assert (0 <= Trunk.conversion_efficiency * Palm.assim_growth_trunk p * dt).
      { apply Qmult_le_0_compat; [| exact Hdt].
        apply Qmult_le_0_compat; [| exact Ha].
        unfold Trunk.conversion_efficiency. lra. }
      lra.
Qed.

Lemma trunk_run_mass_witness :
  exists s0 s',
    Trunk.init (Some ripening_palm) = Some s0 /\
    Trunk.run [(ripening_palm, 10)] s0 = Some s' /\
    Trunk.mass s' == Trunk.mass s0 + trunk_growth [(ripening_palm, 10)].
Proof.
  destruct (Trunk.init (Some ripening_palm)) as [s0 |] eqn:E0;
    [| vm_compute in E0; discriminate].
  destruct (Trunk.run [(ripening_palm, 10)] s0) as [s' |] eqn:E;
    [| vm_compute in E0; injection E0 as <-; vm_compute in E; discriminate].
  exists s0, s'. split; [reflexivity |]. split; [exact E |].
  exact (proj1 (trunk_run_mass [(ripening_palm, 10)] s0 s' E)).
Defined.

(** ** The container: onset, initiation rate, time to maturity *)

Lemma pow4_nonneg (x : Q) : 0 <= Py.pow4 x.
Proof. unfold Py.pow4. apply sq_nonneg. Qed.

Lemma inv_of_at_least_one (d : Q) : 1 <= d -> 0 < 1 / d <= 1.
Proof.
  intros Hd. split.
  - apply Qlt_shift_div_l; lra.
  - apply Qle_shift_div_r; lra.
Qed.

Lemma inv_of_more_than_one (d : Q) : 1 < d -> 0 < 1 / d < 1.
Proof.
  intros Hd. split.
  - apply Qlt_shift_div_l; lra.
  - apply Qlt_shift_div_r; lra.
Qed.

Lemma calc_onset_multiplicity_Some {C : Type} `{MathLib}
    (self : Container.t C) (MAP k r : Q) :
  0 <= k -> Container.calc_onset_multiplicity self MAP k = Some r ->
  0 <= r < 1.
Proof.
  intros Hk. unfold Container.calc_onset_multiplicity.
  destruct (Container.t_maturity self) as [T |]; [| discriminate].
  destruct (Container._palm self) as [p |]; [| discriminate].
  destruct (Py.div T (Palm._days_in_month p)) as [m |]; [| discriminate].
  cbv zeta.
  destruct (Py.ltb MAP (Container.onset_time - m)).
  - intros [= <-]. lra.
  - destruct (Py.div 1 _) as [q |] eqn:Eq; [| discriminate].
    intros [= <-]. apply div_Some in Eq. destruct Eq as [_ ->].
    pose proof (pow4_nonneg (MAP - (Container.onset_time - m))) as Hp.
    assert (Hd : 1 <= 1 + k * Py.pow4 (MAP - (Container.onset_time - m))).
    { assert (0 <= k * Py.pow4 (MAP - (Container.onset_time - m)))
        by (apply Qmult_le_0_compat; assumption).
      lra. }
    pose proof (inv_of_at_least_one _ Hd). lra.
Qed.

(** The rate at which a container in a field initiates cohorts is the
    initiation rate of the fronds times the planting density times the
    onset factor; the factor lies in [[0, 1)], so the rate is never
    negative and never more than the fronds' rate times the density. *)
Theorem initiation_rate_bounds {C : Type} `{MathLib}
    (self : Container.t C) (p : Palm.t) (r : Q) :
  Container._palm self = Some p ->
  0 <= Palm.fronds_initiation_rate p -> 0 <= Palm.planting_density p ->
  Container.initiation_rate self = Some r ->
  exists o,
    Container.onset_multiplicity_factor self = Some o /\ 0 <= o < 1 /\
    r = Palm.fronds_initiation_rate p * Palm.planting_density p * o /\
    0 <= r <= Palm.fronds_initiation_rate p * Palm.planting_density p.
Proof.
  intros Hp Hf Hd. unfold Container.initiation_rate,
    Container.frond_initiation_rate, Container._planting_density.
  rewrite Hp.
  destruct (Container.onset_multiplicity_factor self) as [o |] eqn:Eo;
    [| discriminate].
  intros [= <-]. exists o. split; [reflexivity |].
  unfold Container.onset_multiplicity_factor in Eo.
  apply calc_onset_multiplicity_Some in Eo;
    [| unfold Container.onset_steepness; lra].
  split; [exact Eo |]. split; [reflexivity |].
  assert (Hfd : 0 <= Palm.fronds_initiation_rate p * Palm.planting_density p)
    by (apply Qmult_le_0_compat; assumption).
  split.
  - apply Qmult_le_0_compat; [exact Hfd | lra].
  - assert (Hle : Palm.fronds_initiation_rate p * Palm.planting_density p * o
                  <= Palm.fronds_initiation_rate p * Palm.planting_density p * 1).
    { rewrite !(Qmult_comm (Palm.fronds_initiation_rate p
                            * Palm.planting_density p)).
      apply Qmult_le_compat_r; [lra | exact Hfd]. }
    lra.
Qed.

Lemma initiation_rate_bounds_witness :
  exists r,
    @Container.initiation_rate unit approx_lib
      (Container.init (Some ripening_palm)) = Some r /\
    0 <= r <= 0.06 * 143.
Proof.
  destruct (@Container.initiation_rate unit approx_lib
              (Container.init (Some ripening_palm))) as [r |] eqn:E;
    [| vm_compute in E; discriminate].
  exists r. split; [reflexivity |].
  destruct (@initiation_rate_bounds unit approx_lib
              (Container.init (Some ripening_palm)) ripening_palm r)
    as (o & _ & _ & _ & Hr).
  - reflexivity.
  - vm_compute. discriminate.
  - vm_compute. discriminate.
  - exact E.
  - exact Hr.
Defined.

(** The assertion of [t_maturity]. *)
Lemma t_maturity_Some_pos {C : Type} `{MathLib} (self : Container.t C)
    (T : Q) :
  Container.t_maturity self = Some T -> 0 < T.
Proof.
  unfold Container.t_maturity.
  destruct (Container._palm self) as [p |]; [| discriminate].
  destruct (Py.div (Container._DAP self) (Palm._days_in_year p)) as [t |];
    [| discriminate].
  cbv zeta.
  destruct (Py.div _ Container.bunch_development_asymptote_t0) as [e |];
    [| discriminate].
  destruct (Py.div 1 (1 + exp e)) as [r |]; [| discriminate].
  destruct (Py.assert _) eqn:Ea; [| discriminate].
  intros [= <-]. apply assert_Some in Ea. apply gtb_true in Ea. exact Ea.
Qed.

Lemma exp_approx_pos (x : Q) : 0 < exp_approx x.
Proof.
  unfold exp_approx. pose proof (sq_nonneg x) as Hsq. unfold Py.sq in Hsq.
  assert (Eh : x * x / 2 == x * x * (1 # 2)) by field.
  destruct (Py.leb 0 x) eqn:E.
  - apply leb_true in E. rewrite Eh. lra.
  - apply leb_false in E.
    apply Qlt_shift_div_l; rewrite Eh; lra.
Qed.

Lemma exp_approx_le_1 (x : Q) : x <= 0 -> exp_approx x <= 1.
Proof.
  intros Hx. unfold exp_approx.
  pose proof (sq_nonneg x) as Hsq. unfold Py.sq in Hsq.
  assert (Eh : x * x / 2 == x * x * (1 # 2)) by field.
  destruct (Py.leb 0 x) eqn:E.
  - apply leb_true in E. assert (E0 : x == 0) by lra.
    rewrite Eh, E0. lra.
  - apply Qle_shift_div_r; rewrite Eh; lra.
Qed.

Section Exponential.

Context {C : Type} `{MathLib}.

(** What the proofs of this section use of [math.exp]. *)
Hypothesis exp_pos : forall x, 0 < exp x.
Hypothesis exp_le_1 : forall x, x <= 0 -> exp x <= 1.


(** The stress index of a container is never negative, whatever its
    attributes; so the female fraction, when it is defined, is
    positive and at most its baseline. *)
Theorem female_fraction_bounds (self : Container.t C) (ff : Q) :
  Container.female_fraction self = Some ff ->
  0 <= Container.stress_index self /\
  exists baseline,
    Container.female_fraction_baseline self = Some baseline /\
    0 < ff <= baseline.
Proof.
  assert (Hs : 0 <= Container.stress_index self).
  { unfold Container.stress_index, Container.Ic. cbv zeta.
    match goal with
    | |- context [Py.min 1 ?r] =>
        destruct (min_spec 1 r) as [[Hm ->] | [Hm ->]]
    end; lra. }
  unfold Container.female_fraction. cbv zeta.
  destruct (Container.female_fraction_baseline self) as [b |] eqn:Eb;
    [| discriminate].
  intros [= <-]. split; [exact Hs |]. exists b. split; [reflexivity |].
  unfold Container.female_fraction_baseline in Eb.
  destruct (Container._palm self) as [p |]; [| discriminate].
  destruct (Py.div (Container._DAP self) (Palm._days_in_year p)) as [t |];
    [| discriminate].
  cbv zeta in Eb. apply div_Some in Eb. destruct Eb as [_ Eb].
  assert (Hb : 0 < b).
  { rewrite Eb.
    pose proof (exp_pos (- Container.female_fraction_k * t)) as H1.
    pose proof (exp_pos (-0.24 * t)) as H2.
    apply Qlt_shift_div_l.
    - assert (0 <= 1.56 * exp (-0.24 * t))
        by (apply Qmult_le_0_compat; lra).
      assert (0 < 21.28 * (1 + 1.56 * exp (-0.24 * t)))
        by (apply Qmult_lt_0_compat; lra).
      assumption.
    - rewrite Qmult_0_l.
      apply Qmult_lt_0_compat;
        [unfold Container.female_fraction_a; lra |].
      assert (0 <= Container.female_fraction_b
                   * exp (- Container.female_fraction_k * t)).
      { apply Qmult_le_0_compat;
          [unfold Container.female_fraction_b; lra | lra]. }
      lra. }
  unfold Container.calc_female_fraction_decrease. cbv zeta.
  set (x := - Container.stress_female_fraction_asymptote
            * Container.stress_index self).
  assert (Hx : x <= 0).
  { unfold x.
    assert (0 <= Container.stress_female_fraction_asymptote
                 * Container.stress_index self)
      by (apply Qmult_le_0_compat;
          [unfold Container.stress_female_fraction_asymptote; lra
          | exact Hs]).
    lra. }
  pose proof (exp_pos x) as Hx0. pose proof (exp_le_1 x Hx) as Hx1.
  split.
  - apply Qmult_lt_0_compat; assumption.
  - assert (Hle : b * exp x <= b * 1).
    { rewrite !(Qmult_comm b). apply Qmult_le_compat_r; lra. }
    lra.
Qed.

End Exponential.


Lemma female_fraction_bounds_witness :
  exists ff baseline,
    @Container.female_fraction unit approx_lib
      (Container.init (Some ripening_palm)) = Some ff /\
    @Container.female_fraction_baseline unit approx_lib
      (Container.init (Some ripening_palm)) = Some baseline /\
    0 < ff <= baseline.
Proof.
  destruct (@Container.female_fraction unit approx_lib
              (Container.init (Some ripening_palm))) as [ff |] eqn:E;
    [| vm_compute in E; discriminate].
  destruct (@female_fraction_bounds unit approx_lib exp_approx_pos
              exp_approx_le_1 (Container.init (Some ripening_palm)) ff E)
    as (_ & b & Eb & Hb).
  exists ff, b. split; [reflexivity |]. split; [exact Eb | exact Hb].
Defined.

(** ** Female cohorts: where abortion can happen *)

Section Windows.

Context `{MathLib}.

(** A female cohort made with [t_maturity = T > 0] has its two windows
    apart: inflorescence abortion between [0.75 T] and [0.78 T], before
    anthesis at [0.82 T], bunch failure between [0.92 T] and [0.95 T],
    after it.  So at any age its abortion fraction is the fraction of
    one window at most: it lies in [[0, 1)], it is 0 outside the two
    windows, and it is 0 from maturity on. *)
Theorem female_abortion_windows (ctr ctr' : Cohort.container) (pm T : Q)
    (f : Cohort.t) (h h' : Heap) (a0 frac : Q) :
  0 < T ->
  Female.init ctr pm T h = Some (f, h') ->
  Female.abortion_fraction ctr' (Cohort.set_age a0 f) = Some frac ->
  0 <= frac < 1 /\
  (~ frac == 0 ->
   T * 0.75 <= a0 < T * 0.78 \/ T * 0.92 <= a0 < T * 0.95) /\
  (a0 < T * 0.75 \/ T <= a0 -> frac == 0).
Proof.
  intros HT Hinit. unfold Female.init in Hinit. inv_M Hinit.
  apply lift_Some in E. destruct E as [_ ->].
  apply alloc_Some in E0. destruct E0 as [-> ->].
  apply ret_Some in Hinit. destruct Hinit as [-> ->].
  unfold Female.abortion_fraction.
  destruct (Female.inflorescence_abortion_fraction ctr' _) as [i |] eqn:Ei;
    [| discriminate].
  destruct (Female.bunch_failure_fraction ctr' _) as [b |] eqn:Eb;
    [| discriminate].
  intros [= <-].
  apply inflorescence_abortion_fraction_Some in Ei.
  apply bunch_failure_fraction_Some in Eb.
  destruct Ei as [Hi Hwi], Eb as [Hb Hwb].
  unfold in_inflorescence_abortion_window in Hwi.
  unfold in_bunch_failure_window in Hwb.
  simpl in Hwi, Hwb.
  unfold Female.p_inflorescence_abortion_t0, Female.p_inflorescence_abortion_dt
    in Hwi.
  unfold Female.p_bunch_failure_t0, Female.p_bunch_failure_dt in Hwb.
  destruct (Qeq_dec i 0) as [Hi0 | Hi0];
    destruct (Qeq_dec b 0) as [Hb0 | Hb0].
  - split; [lra |]. split; [intros Hn; exfalso; apply Hn; lra | intros _; lra].
  - specialize (Hwb Hb0).
    split; [lra |]. split; [intros _; right; lra | intros [Ha | Ha]; lra].
  - specialize (Hwi Hi0).
    split; [lra |]. split; [intros _; left; lra | intros [Ha | Ha]; lra].
  - specialize (Hwi Hi0). specialize (Hwb Hb0). lra.
Qed.

End Windows.

Lemma female_abortion_windows_witness :
  exists f h' frac,
    Female.init None 10 1200 [] = Some (f, h') /\
    @Female.abortion_fraction approx_lib None (Cohort.set_age 910 f)
    = Some frac /\
    0 <= frac < 1.
Proof.
  destruct (Female.init None 10 1200 []) as [[f h'] |] eqn:Ef;
    [| vm_compute in Ef; discriminate].
  destruct (@Female.abortion_fraction approx_lib None (Cohort.set_age 910 f))
    as [frac |] eqn:Ea;
    [| vm_compute in Ef; injection Ef as <- <-; vm_compute in Ea;
       discriminate].
  exists f, h', frac. split; [reflexivity |]. split; [exact Ea |].
  refine (proj1 (@female_abortion_windows approx_lib None None 10 1200 f []
                   h' 910 frac _ Ef Ea)).
  vm_compute. reflexivity.
Defined.

(** ** A cohort's assimilates among its components *)

Lemma sum_map_shares (p total : Q) (xs : list BunchComponent.t) :
  Py.sum (map (fun x => BunchComponent.potential_sink_strength x / p * total)
            xs)
  == Py.sum (map BunchComponent.potential_sink_strength xs) / p * total.
Proof.
  induction xs as [| x xs IH]; simpl.
  - rewrite sum_nil. unfold Qdiv. ring.
  - rewrite !sum_cons, IH. unfold Qdiv. ring.
Qed.

(** The components of a cohort read the cohort's potential sink
    strength, which is the sum of theirs.  When it is positive their
    shares of the assimilates for an organ add up to these assimilates;
    when it is not, every component gets 0. *)
Theorem component_assimilates_sum (ctr : Cohort.container) (h : Heap)
    (self : Cohort.t) (o : BunchComponent.owner)
    (xs : list BunchComponent.t) :
  Cohort.owner ctr h self = Some o ->
  Cohort.component_objects h self = Some xs ->
  BunchComponent.owner_potential_sink_strength o
  = Py.sum (map BunchComponent.potential_sink_strength xs) /\
  (0 < BunchComponent.owner_potential_sink_strength o ->
   Py.sum (map (BunchComponent.assim_growth (Some o)) xs)
   == BunchComponent.owner_assim_growth_organ o) /\
  (BunchComponent.owner_potential_sink_strength o <= 0 ->
   Forall (fun x => BunchComponent.assim_growth (Some o) x == 0) xs).
Proof.
  unfold Cohort.owner, Cohort.potential_sink_strength.
  destruct (Cohort.assim_growth_organ ctr h self) as [total |];
    [| discriminate].
  intros Ho Hxs. rewrite Hxs in Ho. injection Ho as <-. simpl.
  set (p := Py.sum (map BunchComponent.potential_sink_strength xs)).
  split; [reflexivity |]. split.
  - intros Hp. apply gtb_true in Hp.
    unfold BunchComponent.assim_growth, BunchComponent.relative_sink_strength.
    simpl. fold p. rewrite Hp. rewrite sum_map_shares. fold p.
    apply gtb_true in Hp. field. lra.
  - intros Hp. apply gtb_false in Hp.
    apply List.Forall_forall. intros x _.
    unfold BunchComponent.assim_growth, BunchComponent.relative_sink_strength.
    simpl. fold p. rewrite Hp. ring.
Qed.

Lemma component_assimilates_sum_witness :
  exists o xs,
    Cohort.owner None young_female_heap young_female_cohort = Some o /\
    Cohort.component_objects young_female_heap young_female_cohort = Some xs /\
    BunchComponent.owner_potential_sink_strength o
    = Py.sum (map BunchComponent.potential_sink_strength xs).
Proof.
  destruct (Cohort.owner None young_female_heap young_female_cohort)
    as [o |] eqn:Eo; [| vm_compute in Eo; discriminate].
  destruct (Cohort.component_objects young_female_heap young_female_cohort)
    as [xs |] eqn:Ex; [| vm_compute in Ex; discriminate].
  exists o, xs. split; [reflexivity |]. split; [reflexivity |].
  exact (proj1 (component_assimilates_sum None young_female_heap
                  young_female_cohort o xs Eo Ex)).
Defined.

(** ** The heap under the methods of the cohorts and of the container *)

Lemma heap_kept_refl (h : Heap) : heap_kept h h.
Proof. split; [intros r x Hx; eauto | trivial]. Qed.

Lemma heap_kept_trans (h1 h2 h3 : Heap) :
  heap_kept h1 h2 -> heap_kept h2 h3 -> heap_kept h1 h3.
Proof.
  intros [H12 W12] [H23 W23]. split; [| auto].
  intros r x Hx. destruct (H12 r x Hx) as (x2 & E2 & C2).
  destruct (H23 r x2 E2) as (x3 & E3 & C3).
  exists x3. split; [exact E3 | congruence].
Qed.

Lemma heap_kept_store (h : Heap) (r : ref) (x x' : BunchComponent.t) :
  h !! r = Some x ->
  BunchComponent.cls x' = BunchComponent.cls x ->
  (well_formed x -> well_formed x') ->
  heap_kept h (<[r := x']> h).
Proof.
  intros Ex Hc Hw. split.
  - intros r0 x0 E0. destruct (Nat.eq_dec r0 r) as [-> | Hne].
    + exists x'. split.
      * apply list_lookup_insert_eq. apply (lookup_lt_Some _ _ _ Ex).
      * congruence.
    + exists x0. split; [| reflexivity].
      rewrite list_lookup_insert_ne by congruence. exact E0.
  - intros Hall. apply Forall_insert; [exact Hall |].
    apply Hw. exact (Forall_lookup_1 _ _ _ _ Hall Ex).
Qed.

Lemma heap_kept_app (h new : Heap) :
  Forall well_formed new -> heap_kept h (h ++ new).
Proof.
  intros Hnew. split.
  - intros r x Ex. exists x. split; [| reflexivity].
    apply lookup_app_l_Some. exact Ex.
  - intros Hall. apply Forall_app. split; assumption.
Qed.

Lemma for_each_kept {A} (f : A -> M unit) (xs : list A) :
  (forall a h h' u, f a h = Some (u, h') -> heap_kept h h') ->
  forall h h' u, for_each f xs h = Some (u, h') -> heap_kept h h'.
Proof.
  intros Hf. induction xs as [| a xs IH]; intros h h' u Hloop.
  - simpl in Hloop. apply ret_Some in Hloop. destruct Hloop as [_ ->].
    apply heap_kept_refl.
  - apply for_each_cons in Hloop. destruct Hloop as (h1 & E1 & E2).
    apply heap_kept_trans with h1; [exact (Hf _ _ _ _ E1) | exact (IH _ _ _ E2)].
Qed.

Lemma map_M_cons {A B} (f : A -> M B) (x : A) (xs : list A) (ys : list B)
    (h h' : Heap) :
  map_M f (x :: xs) h = Some (ys, h') <->
  exists y ys' h1,
    f x h = Some (y, h1) /\ map_M f xs h1 = Some (ys', h') /\ ys = y :: ys'.
Proof.
  simpl. rewrite bind_Some. split.
  - intros (y & h1 & E1 & E2). apply bind_Some in E2.
    destruct E2 as (ys' & h2 & E2 & E3). apply ret_Some in E3.
    destruct E3 as [-> ->]. eauto 6.
  - intros (y & ys' & h1 & E1 & E2 & ->). exists y, h1.
    split; [exact E1 |]. apply bind_Some. exists ys', h'.
    split; [exact E2 | reflexivity].
Qed.

Lemma map_M_kept {A B} (f : A -> M B) (xs : list A) :
  (forall a h h' b, f a h = Some (b, h') -> heap_kept h h') ->
  forall h h' ys, map_M f xs h = Some (ys, h') -> heap_kept h h'.
Proof.
  intros Hf. induction xs as [| a xs IH]; intros h h' ys Hloop.
  - simpl in Hloop. apply ret_Some in Hloop. destruct Hloop as [_ ->].
    apply heap_kept_refl.
  - apply map_M_cons in Hloop. destruct Hloop as (y & ys' & h1 & E1 & E2 & _).
    apply heap_kept_trans with h1; [exact (Hf _ _ _ _ E1) | exact (IH _ _ _ E2)].
Qed.

Lemma well_formed_set_mass (v : Q) (x : BunchComponent.t) :
  well_formed x -> well_formed (BunchComponent.set_mass v x).
Proof. intros Hw. exact Hw. Qed.

Lemma update_age_cls (dt : Q) (x x' : BunchComponent.t) :
  BunchComponent.update_age dt x = Some x' ->
  BunchComponent.cls x' = BunchComponent.cls x.
Proof.
  unfold BunchComponent.update_age.
  match goal with
  | |- match ?e with _ => _ end = _ -> _ => destruct e as [p |]
  end; [| discriminate].
  intros [= <-]. reflexivity.
Qed.

Lemma component_update_mass_kept (ctr : Cohort.container) (self : Cohort.t)
    (dt : Q) (r : ref) (h h' : Heap) (u : unit) :
  Cohort.component_update_mass ctr self dt r h = Some (u, h') ->
  heap_kept h h'.
Proof.
  intros H0. apply component_update_mass_Some in H0.
  destruct H0 as (x & g & Ex & _ & ->).
  apply (heap_kept_store h r x); [exact Ex | reflexivity |].
  apply well_formed_set_mass.
Qed.

Lemma component_update_age_kept (dt : Q) (r : ref) (h h' : Heap) (u : unit) :
  Cohort.component_update_age dt r h = Some (u, h') -> heap_kept h h'.
Proof.
  intros H0. apply component_update_age_Some in H0.
  destruct H0 as (x & x' & Ex & Eu & ->).
  apply (heap_kept_store h r x); [exact Ex | |].
  - exact (update_age_cls dt x x' Eu).
  - intros Hw. exact (update_age_well_formed dt x x' Hw Eu).
Qed.

Lemma _update_kept (af : Cohort.container -> Cohort.t -> option Q)
    (ctr : Cohort.container) (dt : Q) (self self' : Cohort.t) (h h' : Heap) :
  Cohort._update af ctr dt self h = Some (self', h') -> heap_kept h h'.
Proof.
  intros H0. apply _update_Some in H0.
  destruct H0 as (h1 & a & Hm & Ha & _ & _).
  apply heap_kept_trans with h1.
  - revert Hm. unfold Cohort.update_masses. apply for_each_kept.
    intros r0 ha hb u. apply component_update_mass_kept.
  - revert Ha. unfold Cohort.update_ages. apply for_each_kept.
    intros r0 ha hb u. apply component_update_age_kept.
Qed.

Section HeapKept.

Context `{MathLib}.

Lemma set_fruit_kept (self self' : Cohort.t) (h h' : Heap) :
  Female.set_fruit self h = Some (self', h') -> heap_kept h h'.
Proof.
  intros H0. apply set_fruit_Some in H0.
  destruct H0 as (oil & fibers & kern & Eo & Ef & Ek & -> & _).
  apply heap_kept_app.
  repeat (apply List.Forall_cons; [eapply init_well_formed; eassumption |]).
  apply List.Forall_nil.
Qed.

Lemma female_update_kept (ctr : Cohort.container) (dt : Q)
    (self self' : Cohort.t) (h h' : Heap) :
  Female.update ctr dt self h = Some (self', h') -> heap_kept h h'.
Proof.
  intros H0. apply female_update_Some in H0.
  destruct H0 as (c1 & h1 & Hup & Hfl).
  apply _update_kept in Hup.
  destruct (Female.should_trigger_flowering c1).
  - apply heap_kept_trans with h1; [exact Hup |].
    exact (set_fruit_kept _ _ _ _ Hfl).
  - destruct Hfl as [_ ->]. exact Hup.
Qed.

Lemma cohort_update_kept (ctr : Cohort.container) (dt : Q)
    (c c' : Cohort.t) (h h' : Heap) :
  Cohorts.cohort_update ctr dt c h = Some (c', h') -> heap_kept h h'.
Proof.
  unfold Cohorts.cohort_update.
  destruct (Cohort.sex c);
    [apply _update_kept | apply female_update_kept | apply _update_kept].
Qed.

Lemma to_female_kept (ctr : Cohort.container) (self f : Cohort.t)
    (h h' : Heap) :
  Indeterminate.to_female ctr self h = Some (f, h') -> heap_kept h h'.
Proof.
  unfold Indeterminate.to_female. intros H0. inv_M H0.
  apply lift_Some in E. destruct E as [_ ->].
  apply lift_Some in E0. destruct E0 as [_ ->].
  apply female_init_Some in E1. destruct E1 as (x0 & Ex0 & -> & _).
  apply get_Some in E2. destruct E2 as [_ ->].
  apply lift_Some in E3. destruct E3 as [Ed ->].
  apply alloc_Some in E4. destruct E4 as [_ ->].
  apply lift_Some in E5. destruct E5 as [_ ->].
  apply ret_Some in H0. destruct H0 as [_ ->].
  apply heap_kept_trans with (h ++ [x0]); apply heap_kept_app;
    apply Forall_singleton.
  - exact (init_well_formed _ _ _ _ _ _ Ex0).
  - exact (copy_result_well_formed _ _ Ed).
Qed.

Lemma to_male_kept (ctr : Cohort.container) (self m : Cohort.t)
    (h h' : Heap) :
  Indeterminate.to_male ctr self h = Some (m, h') -> heap_kept h h'.
Proof.
  unfold Indeterminate.to_male. intros H0. inv_M H0.
  apply lift_Some in E. destruct E as [_ ->].
  apply lift_Some in E0. destruct E0 as [_ ->].
  apply male_init_Some in E1. destruct E1 as (x0 & Ex0 & -> & _).
  apply get_Some in E2. destruct E2 as [_ ->].
  apply lift_Some in E3. destruct E3 as [Ed ->].
  apply alloc_Some in E4. destruct E4 as [_ ->].
  apply lift_Some in E5. destruct E5 as [_ ->].
  apply ret_Some in H0. destruct H0 as [_ ->].
  apply heap_kept_trans with (h ++ [x0]); apply heap_kept_app;
    apply Forall_singleton.
  - exact (init_well_formed _ _ _ _ _ _ Ex0).
  - exact (copy_result_well_formed _ _ Ed).
Qed.

Lemma indeterminate_init_kept (ctr : Cohort.container) (c : Cohort.t)
    (h h' : Heap) :
  Indeterminate.init ctr h = Some (c, h') -> heap_kept h h'.
Proof.
  unfold Indeterminate.init. intros H0. cbv zeta in H0. inv_M H0.
  apply lift_Some in E. destruct E as [Ex ->].
  apply alloc_Some in E0. destruct E0 as [_ ->].
  apply lift_Some in E1. destruct E1 as [_ ->].
  apply ret_Some in H0. destruct H0 as [_ ->].
  apply heap_kept_app. apply Forall_singleton.
  exact (init_well_formed _ _ _ _ _ _ Ex).
Qed.

Lemma update_sex_loop_kept (ctr : Cohort.container) (cs : list Cohort.t) :
  forall (acc res : list Cohort.t) (h h' : Heap),
    Cohorts.update_sex_loop ctr cs acc h = Some (res, h') -> heap_kept h h'.
Proof.
  induction cs as [| c cs IH]; intros acc res h h' Hloop.
  - simpl in Hloop. apply ret_Some in Hloop. destruct Hloop as [_ ->].
    apply heap_kept_refl.
  - simpl in Hloop.
    destruct (Cohort.sex_eqb (Cohort.sex c) Cohort.indeterminate
              && Py.gtb (Cohort.age c) (Cohort.t_differentiation c)).
    + inv_M Hloop.
      apply heap_kept_trans with h0; [exact (to_female_kept _ _ _ _ _ E) |].
      apply heap_kept_trans with h1; [exact (to_male_kept _ _ _ _ _ E0) |].
      exact (IH _ _ _ _ Hloop).
    + exact (IH _ _ _ _ Hloop).
Qed.

Lemma update_population_kept (dt : Q) (self pop : Cohorts.t) (h h' : Heap) :
  Cohorts.update_population dt self h = Some (pop, h') -> heap_kept h h'.
Proof.
  unfold Cohorts.update_population. intros H0. inv_M H0.
  unfold Cohorts.update_existing_cohorts in E. inv_M E.
  unfold Cohorts.update_sex in E0. inv_M E0.
  unfold Cohorts.update_new_cohorts in H0. inv_M H0.
  repeat match goal with
  | E : lift _ _ = Some _ |- _ => apply lift_Some in E; destruct E as [_ ->]
  | E : ret _ _ = Some _ |- _ => apply ret_Some in E; destruct E as [_ ->]
  end.
  match goal with
  | E1 : map_M _ _ h = Some (_, ?h2),
    E2 : Cohorts.update_sex_loop _ _ _ ?h2 = Some (_, ?h0),
    E3 : Indeterminate.init _ ?h0 = Some _ |- _ =>
      apply heap_kept_trans with h2;
        [revert E1; apply map_M_kept; intros c ha hb c';
         apply cohort_update_kept
        | apply heap_kept_trans with h0;
          [exact (update_sex_loop_kept _ _ _ _ _ _ E2)
          | exact (indeterminate_init_kept _ _ _ _ E3)]]
  end.
Qed.

Lemma set_relative_sink_strengths_Some (self self' : Cohorts.t) (h h' : Heap) :
  Cohorts.set_relative_sink_strengths self h = Some (self', h') ->
  h' = h /\
  exists cs,
    self' = Container.set_cohorts cs self /\
    Forall2 (fun c c' =>
               exists res,
                 Cohort.get_relative_sink_strength (Some self) h c = Some res /\
                 c' = Cohort.set_relative_sink_strength_attr res c)
      (Container.cohorts self) cs.
Proof.
  unfold Cohorts.set_relative_sink_strengths. intros H0. inv_M H0.
  apply ret_Some in H0. destruct H0 as [-> ->].
  revert a h E. generalize (Container.cohorts self) as cs.
  induction cs as [| c cs IH]; intros a h E.
  - simpl in E. apply ret_Some in E. destruct E as [-> ->].
    split; [reflexivity |]. exists []. split; [reflexivity | constructor].
  - apply map_M_cons in E. destruct E as (y & ys' & h1 & E1 & E2 & ->).
    apply set_relative_sink_strength_Some in E1.
    destruct E1 as (res & Eres & -> & ->).
    destruct (IH _ _ E2) as (-> & cs' & Ecs & Hall).
    split; [reflexivity |]. eexists. split; [reflexivity |].
    injection Ecs as <-.
    constructor; [eauto | exact Hall].
Qed.

(** What [update] is made of. *)
Lemma cohorts_update_Some (dt : Q) (self self' : Cohorts.t) (h h' : Heap) :
  Cohorts.update dt self h = Some (self', h') ->
  exists pop pss cs,
    Cohorts.update_population dt self h = Some (pop, h') /\
    Cohorts.get_potential_sink_strength h'
      (Cohorts.delete_deletable (Cohorts.record_harvest pop)) = Some pss /\
    self' = Container.set_cohorts cs
              (Container.set_potential_sink_strength pss
                 (Cohorts.delete_deletable (Cohorts.record_harvest pop))) /\
    Forall2 (fun c c' =>
               exists res,
                 Cohort.get_relative_sink_strength
                   (Some (Container.set_potential_sink_strength pss
                            (Cohorts.delete_deletable
                               (Cohorts.record_harvest pop)))) h' c
                 = Some res /\
                 c' = Cohort.set_relative_sink_strength_attr res c)
      (Container.cohorts (Cohorts.delete_deletable (Cohorts.record_harvest pop)))
      cs.
Proof.
  unfold Cohorts.update. intros H0. inv_M H0.
  apply get_Some in E0. destruct E0 as [Epss ->].
  apply set_relative_sink_strengths_Some in H0.
  destruct H0 as (-> & cs & -> & Hall).
  exists a, a0, cs. repeat split; assumption.
Qed.


End HeapKept.


(** ** The population after an update *)

Lemma filter_none {A} (f : A -> bool) (l : list A) :
  Forall (fun x => f x = false) l -> List.filter f l = [].
Proof.
  induction 1 as [| x l Hx _ IH]; simpl; [reflexivity |].
  rewrite Hx. exact IH.
Qed.

Lemma Forall_filter_true {A} (f : A -> bool) (l : list A) :
  Forall (fun x => f x = true) (List.filter f l).
Proof.
  apply List.Forall_forall. intros x Hx. apply filter_In in Hx. tauto.
Qed.

Lemma sum_map_div (xs : list Q) (p : Q) :
  Py.sum (map (fun x => x / p) xs) == Py.sum xs / p.
Proof.
  induction xs as [| x xs IH]; simpl.
  - rewrite sum_nil. unfold Qdiv. ring.
  - rewrite !sum_cons, IH. unfold Qdiv. ring.
Qed.

(** Generic frame of a loop of assignments to the objects it names. *)
Lemma for_each_frame (f : ref -> M unit) (rs : list ref) :
  (forall r h h' u, f r h = Some (u, h') -> exists x, h' = <[r := x]> h) ->
  forall h h' u,
    for_each f rs h = Some (u, h') ->
    length h' = length h /\
    forall r, ~ In r rs -> h' !! r = h !! r.
Proof.
  intros Hf. induction rs as [| r0 rs IH]; intros h h' u Hloop.
  - simpl in Hloop. apply ret_Some in Hloop. destruct Hloop as [_ ->].
    split; reflexivity.
  - apply for_each_cons in Hloop. destruct Hloop as (h1 & E1 & E2).
    destruct (Hf _ _ _ _ E1) as [x ->].
    destruct (IH _ _ _ E2) as [Hlen Hout].
    split; [rewrite Hlen; apply length_insert |].
    intros r Hr. rewrite Hout by (intros Hin; apply Hr; right; exact Hin).
    apply list_lookup_insert_ne. intros ->. apply Hr. left. reflexivity.
Qed.

(** An update of a cohort, of whatever class, assigns to the components
    of the cohort and to nothing else: the heap keeps its size, every
    other object is left as it was, and of the cohort itself only the
    count and the age change. *)
Theorem cohort_update_frame (af : Cohort.container -> Cohort.t -> option Q)
    (ctr : Cohort.container) (dt : Q) (self self' : Cohort.t) (h h' : Heap) :
  Cohort._update af ctr dt self h = Some (self', h') ->
  length h' = length h /\
  (forall r, ~ In r (Cohort.components self) -> h' !! r = h !! r) /\
  Cohort.set_age (Cohort.age self)
    (Cohort.set_num_inflorescences (Cohort.num_inflorescences self) self')
  = Cohort.set_age (Cohort.age self)
      (Cohort.set_num_inflorescences (Cohort.num_inflorescences self) self) /\
  Cohort.age self' = Cohort.age self + dt.
Proof.
  intros H0. apply _update_Some in H0.
  destruct H0 as (h1 & a & Hm & Ha & _ & ->).
  assert (Fm : length h1 = length h /\
               forall r, ~ In r (Cohort.components self) -> h1 !! r = h !! r).
  { revert Hm. unfold Cohort.update_masses. apply for_each_frame.
    intros r ha hb u Hr. apply component_update_mass_Some in Hr.
    destruct Hr as (x & g & _ & _ & ->). eauto. }
  assert (Fa : length h' = length h1 /\
               forall r, ~ In r (Cohort.components self) -> h' !! r = h1 !! r).
  { revert Ha. unfold Cohort.update_ages. apply for_each_frame.
    intros r ha hb u Hr. apply component_update_age_Some in Hr.
    destruct Hr as (x & x' & _ & _ & ->). eauto. }
  destruct Fm as [Lm Om], Fa as [La Oa].
  split; [congruence |]. split.
  - intros r Hr. rewrite (Oa r Hr). exact (Om r Hr).
  - split; reflexivity.
Qed.

Lemma cohort_update_frame_witness :
  exists self' h',
    Cohort._update (@Female.abortion_fraction approx_lib) None 50
      young_female_cohort young_female_heap = Some (self', h') /\
    length h' = length young_female_heap.
Proof.
  destruct (Cohort._update (@Female.abortion_fraction approx_lib) None 50
              young_female_cohort young_female_heap)
    as [[self' h'] |] eqn:E; [| vm_compute in E; discriminate].
  exists self', h'. split; [reflexivity |].
  exact (proj1 (cohort_update_frame _ None 50 young_female_cohort self'
                  young_female_heap h' E)).
Defined.

Section Population.

Context `{MathLib}.

Lemma is_deletable_set_relative (res : Q) (c : Cohort.t) :
  Cohorts.cohort_is_deletable (Cohort.set_relative_sink_strength_attr res c)
  = Cohorts.cohort_is_deletable c.
Proof. reflexivity. Qed.


Lemma relative_strengths_sum (ctr : Cohorts.t) (h : Heap)
    (cs0 cs : list Cohort.t) :
  ~ Container.potential_sink_strength ctr == 0 ->
  Forall2 (fun c c' =>
             exists res,
               Cohort.get_relative_sink_strength (Some ctr) h c = Some res /\
               c' = Cohort.set_relative_sink_strength_attr res c) cs0 cs ->
  forall xs,
    map_opt (Cohort.cohort_sink_strength h) cs0 = Some xs ->
    Py.sum (map Cohort.relative_sink_strength cs)
    == Py.sum xs / Container.potential_sink_strength ctr.
Proof.
  intros Hnz Hall. apply eqb_false in Hnz.
  induction Hall as [| c c' l cs' (res & Eres & ->) _ IH]; intros xs Hxs.
  - simpl in Hxs. injection Hxs as <-. simpl. rewrite sum_nil.
    unfold Qdiv. ring.
  - simpl in Hxs.
    destruct (Cohort.cohort_sink_strength h c) as [s |] eqn:Es;
      [| discriminate].
    destruct (map_opt (Cohort.cohort_sink_strength h) l) as [ys |] eqn:Eys;
      [| discriminate].
    injection Hxs as <-.
    unfold Cohort.get_relative_sink_strength in Eres.
    rewrite Hnz, Es in Eres. injection Eres as <-.
    simpl map. rewrite !sum_cons, (IH ys eq_refl). simpl.
    unfold Qdiv. ring.
Qed.

Lemma relative_strengths_zero (ctr : Cohorts.t) (h : Heap)
    (cs0 cs : list Cohort.t) :
  Container.potential_sink_strength ctr == 0 ->
  Forall2 (fun c c' =>
             exists res,
               Cohort.get_relative_sink_strength (Some ctr) h c = Some res /\
               c' = Cohort.set_relative_sink_strength_attr res c) cs0 cs ->
  Forall (fun c => Cohort.relative_sink_strength c = 0) cs.
Proof.
  intros Hz Hall. apply eqb_true in Hz.
  induction Hall as [| c c' l cs' (res & Eres & ->) _ IH]; constructor;
    [| exact IH].
  unfold Cohort.get_relative_sink_strength in Eres. rewrite Hz in Eres.
  injection Eres as <-. reflexivity.
Qed.

Lemma sink_strengths_set_relative (ctr : Cohort.container) (h : Heap)
    (cs0 cs : list Cohort.t) :
  Forall2 (fun c c' =>
             exists res,
               Cohort.get_relative_sink_strength ctr h c = Some res /\
               c' = Cohort.set_relative_sink_strength_attr res c) cs0 cs ->
  map_opt (Cohort.cohort_sink_strength h) cs
  = map_opt (Cohort.cohort_sink_strength h) cs0.
Proof.
  induction 1 as [| c c' l cs' (res & _ & ->) _ IH]; [reflexivity |].
  simpl. rewrite IH. reflexivity.
Qed.


End Population.



(** ** Sex differentiation over the population *)

Section Differentiation.

Context `{MathLib}.

Lemma sum_map_snoc {A} (f : A -> Q) (l : list A) (x : A) :
  Py.sum (map f (l ++ [x])) == Py.sum (map f l) + f x.
Proof. rewrite map_app, sum_app. simpl. rewrite sum_cons, sum_nil. ring. Qed.

Lemma sum_map_snoc2 {A} (f : A -> Q) (l : list A) (x y : A) :
  Py.sum (map f (l ++ [x; y])) == Py.sum (map f l) + f x + f y.
Proof.
  rewrite map_app, sum_app. simpl. rewrite !sum_cons, sum_nil. ring.
Qed.

(** The loop of [update_sex]: what it has built so far plus what is
    left to visit keeps its totals, and a cohort it builds or keeps is
    not an indeterminate one past its differentiation. *)
Lemma update_sex_loop_sums (ctr : Cohort.container) (cs : list Cohort.t) :
  forall (acc res : list Cohort.t) (h h' : Heap),
    Cohorts.update_sex_loop ctr cs acc h = Some (res, h') ->
    Py.sum (map Cohort.num_inflorescences res)
    == Py.sum (map Cohort.num_inflorescences acc)
       + Py.sum (map Cohort.num_inflorescences cs) /\
    Py.sum (map Cohort.relative_sink_strength res)
    == Py.sum (map Cohort.relative_sink_strength acc)
       + Py.sum (map Cohort.relative_sink_strength cs) /\
    (Forall (fun c => Cohort.sex c = Cohort.indeterminate ->
                      Indeterminate.is_deletable c = false) acc ->
     Forall (fun c => Cohort.sex c = Cohort.indeterminate ->
                      Indeterminate.is_deletable c = false) res) /\
    (length acc + length cs <= length res)%nat.
Proof.
  induction cs as [| c cs IH]; intros acc res h h' Hloop.
  - simpl in Hloop. apply ret_Some in Hloop. destruct Hloop as [-> _].
    simpl. rewrite sum_nil.
    split; [ring |]. split; [ring |]. split; [trivial | lia].
  - simpl in Hloop. simpl map. rewrite !sum_cons.
    destruct (Cohort.sex_eqb (Cohort.sex c) Cohort.indeterminate
              && Py.gtb (Cohort.age c) (Cohort.t_differentiation c)) eqn:Ec.
    + inv_M Hloop.
      apply to_female_Some in E.
      destruct E as (x0 & x & d & ff & _ & _ & Eff & _ & Hsf & _ & _ & _
                     & Hnf & Hrf & _).
      apply to_male_Some in E0.
      destruct E0 as (x0' & x' & d' & ff' & _ & _ & Eff' & _ & Hsm & _ & _ & _
                      & Hnm & Hrm & _).
      rewrite Eff in Eff'. injection Eff' as <-.
      destruct (IH _ _ _ _ Hloop) as (Hn & Hr & Hd & Hl).
      rewrite length_app in Hl. simpl in Hl.
      split; [| split; [| split]].
      * rewrite Hn, sum_map_snoc2, Hnf, Hnm. ring.
      * rewrite Hr, sum_map_snoc2, Hrf, Hrm. ring.
      * intros Hacc. apply Hd. apply Forall_app. split; [exact Hacc |].
        repeat apply List.Forall_cons; try apply List.Forall_nil;
          intros Hs; congruence.
      * simpl. lia.
    + destruct (IH _ _ _ _ Hloop) as (Hn & Hr & Hd & Hl).
      rewrite length_app in Hl. simpl in Hl.
      split; [| split; [| split]].
      * rewrite Hn, sum_map_snoc. ring.
      * rewrite Hr, sum_map_snoc. ring.
      * intros Hacc. apply Hd. apply Forall_app. split; [exact Hacc |].
        apply Forall_singleton. intros Hs. rewrite Hs in Ec. simpl in Ec.
        unfold Indeterminate.is_deletable. exact Ec.
      * simpl. lia.
Qed.

(** [update_sex] keeps the number of inflorescences of the population
    and the sum of its relative sink strengths, whatever the female
    fractions are; it removes no cohort without putting two in its
    place; and it leaves no indeterminate cohort that is past its
    differentiation, so none that is deletable. *)
Theorem update_sex_conserves (self self' : Cohorts.t) (h h' : Heap) :
  Cohorts.update_sex self h = Some (self', h') ->
  Py.sum (map Cohort.num_inflorescences (Container.cohorts self'))
  == Py.sum (map Cohort.num_inflorescences (Container.cohorts self)) /\
  Py.sum (map Cohort.relative_sink_strength (Container.cohorts self'))
  == Py.sum (map Cohort.relative_sink_strength (Container.cohorts self)) /\
  Forall (fun c => Cohort.sex c = Cohort.indeterminate ->
                   Cohorts.cohort_is_deletable c = false)
    (Container.cohorts self') /\
  (length (Container.cohorts self) <= length (Container.cohorts self'))%nat.
Proof.
  unfold Cohorts.update_sex. intros H0. inv_M H0.
  apply ret_Some in H0. destruct H0 as [-> _]. simpl.
  apply update_sex_loop_sums in E. destruct E as (Hn & Hr & Hd & Hl).
  simpl in Hn, Hr, Hl. rewrite sum_nil in Hn, Hr.
  split; [rewrite Hn; ring |]. split; [rewrite Hr; ring |].
  split; [| exact Hl].
  specialize (Hd (List.Forall_nil _)).
  apply List.Forall_forall. intros c Hc Hs.
  unfold Cohorts.cohort_is_deletable. rewrite Hs.
  exact (proj1 (List.Forall_forall _ _) Hd c Hc Hs).
Qed.


End Differentiation.

Lemma update_sex_conserves_witness :
  exists self' h',
    @Cohorts.update_sex approx_lib
      (Container.set_cohorts [mature_indeterminate_cohort]
         (Container.init (Some ripening_palm))) mature_indeterminate_heap
    = Some (self', h') /\
    Py.sum (map Cohort.num_inflorescences (Container.cohorts self'))
    == Py.sum (map Cohort.num_inflorescences [mature_indeterminate_cohort]).
Proof.
  destruct (@Cohorts.update_sex approx_lib
              (Container.set_cohorts [mature_indeterminate_cohort]
                 (Container.init (Some ripening_palm))) mature_indeterminate_heap)
    as [[self' h'] |] eqn:E; [| vm_compute in E; discriminate].
  exists self', h'. split; [reflexivity |].
  exact (proj1 (@update_sex_conserves approx_lib _ self' _ h' E)).
Defined.


(** ** The vegetative assimilates among fronds, roots and trunk *)

(** With the attribute [potential_sink_strength_vegetative] as
    [set_attributes] sets it, the assimilates for the growth of the
    fronds, of the roots and of the trunk add up to the assimilates for
    vegetative growth, with a palm and without one. *)
Theorem vegetative_shares_sum (palm : option vegetative_sinks)
    (assim_growth_vegetative a_fronds a_roots a_trunk : Q) :
  get_assim_growth_fronds palm (get_potential_sink_strength_vegetative palm)
    assim_growth_vegetative = Some a_fronds ->
  get_assim_growth_roots palm (get_potential_sink_strength_vegetative palm)
    assim_growth_vegetative = Some a_roots ->
  get_assim_growth_trunk palm (get_potential_sink_strength_vegetative palm)
    assim_growth_vegetative = Some a_trunk ->
  a_fronds + a_roots + a_trunk == assim_growth_vegetative.
Proof.
  unfold get_assim_growth_fronds, get_assim_growth_roots,
    get_assim_growth_trunk, assim_veg_growth_fraction_fronds,
    assim_veg_growth_fraction_roots, assim_veg_growth_fraction_trunk.
  destruct palm as [p |]; simpl.
  - set (psv := fronds_potential_sink_strength p
                + trunk_potential_sink_strength p
                + roots_potential_sink_strength p).
    destruct (Py.div (fronds_potential_sink_strength p) psv) as [ff |] eqn:Ef;
      [| discriminate].
    destruct (Py.div (roots_potential_sink_strength p) psv) as [fr |] eqn:Er;
      [| discriminate].
    destruct (Py.div (trunk_potential_sink_strength p) psv) as [ft |] eqn:Et;
      [| discriminate].
    intros [= <-] [= <-] [= <-].
    apply div_Some in Ef, Er, Et.
    destruct Ef as [Hnz ->], Er as [_ ->], Et as [_ ->].
    assert (E : fronds_potential_sink_strength p / psv
                * assim_growth_vegetative
                + roots_potential_sink_strength p / psv
                  * assim_growth_vegetative
                + trunk_potential_sink_strength p / psv
                  * assim_growth_vegetative
                == psv / psv * assim_growth_vegetative)
      by (unfold psv at 4; unfold Qdiv; ring).
    rewrite E. field. exact Hnz.
  - intros [= <-] [= <-] [= <-]. ring.
Qed.

Lemma vegetative_shares_sum_witness :
  let palm := Some {| fronds_potential_sink_strength := 6;
                      trunk_potential_sink_strength := 3;
                      roots_potential_sink_strength := 1 |} in
  exists a_fronds a_roots a_trunk,
    get_assim_growth_fronds palm 10 5 = Some a_fronds /\
    get_assim_growth_roots palm 10 5 = Some a_roots /\
    get_assim_growth_trunk palm 10 5 = Some a_trunk /\
    a_fronds + a_roots + a_trunk == 5.
Proof.
  cbv zeta. eexists. eexists. eexists.
  split; [reflexivity |]. split; [reflexivity |]. split; [reflexivity |].
  refine (vegetative_shares_sum
            (Some {| fronds_potential_sink_strength := 6;
                     trunk_potential_sink_strength := 3;
                     roots_potential_sink_strength := 1 |}) 5 _ _ _ _ _ _);
    reflexivity.
Defined.

(** ** Cohorts do not share components *)

Lemma NoDup_app_In {A} (l k : list A) :
  List.NoDup (l ++ k) <->
  List.NoDup l /\ (forall x, In x l -> ~ In x k) /\ List.NoDup k.
Proof.
  split.
  - intros Hnd. split; [exact (NoDup_app_remove_r _ _ Hnd) |].
    split; [| exact (NoDup_app_remove_l _ _ Hnd)].
    induction l as [| a l IH]; simpl in *; [intros x [] |].
    inversion Hnd as [| ? ? Hna Hnd']; subst.
    intros x [<- | Hx] Hk.
    + apply Hna. apply in_app_iff. right. exact Hk.
    + exact (IH Hnd' x Hx Hk).
  - intros (Hl & Hd & Hk). apply List.NoDup_app; assumption.
Qed.

Lemma population_components_app (l k : list Cohort.t) :
  population_components (l ++ k)
  = population_components l ++ population_components k.
Proof. unfold population_components. now rewrite map_app, concat_app. Qed.

Lemma population_components_filter (p : Cohort.t -> bool)
    (cs : list Cohort.t) :
  (forall r, In r (population_components (List.filter p cs)) ->
             In r (population_components cs)) /\
  (List.NoDup (population_components cs) ->
   List.NoDup (population_components (List.filter p cs))).
Proof.
  induction cs as [| c cs [IHin IHnd]]; [split; trivial |].
  change (population_components (c :: cs))
    with (Cohort.components c ++ population_components cs).
  simpl List.filter. destruct (p c).
  - change (population_components (c :: List.filter p cs))
      with (Cohort.components c ++ population_components (List.filter p cs)).
    split.
    + intros r Hr. apply in_app_iff in Hr. apply in_app_iff.
      destruct Hr as [Hr | Hr]; [left; exact Hr | right; exact (IHin r Hr)].
    + intros Hnd. apply NoDup_app_In in Hnd. destruct Hnd as (Hc & Hd & Hcs).
      apply NoDup_app_In. split; [exact Hc |]. split; [| exact (IHnd Hcs)].
      intros x Hx Hx'. exact (Hd x Hx (IHin x Hx')).
  - split.
    + intros r Hr. apply in_app_iff. right. exact (IHin r Hr).
    + intros Hnd. apply NoDup_app_In in Hnd. exact (IHnd (proj2 (proj2 Hnd))).
Qed.

Lemma _update_length (af : Cohort.container -> Cohort.t -> option Q)
    (ctr : Cohort.container) (dt : Q) (self self' : Cohort.t) (h h' : Heap) :
  Cohort._update af ctr dt self h = Some (self', h') ->
  length h' = length h /\
  Cohort.stalk self' = Cohort.stalk self /\
  Cohort.components self' = Cohort.components self /\
  Cohort.sex self' = Cohort.sex self.
Proof.
  intros H0.
  pose proof (Forall2_length _ _ _ (_update_same_class _ _ _ _ _ _ _ H0))
    as Hlen.
  apply _update_Some in H0. destruct H0 as (h1 & a & _ & _ & _ & ->).
  repeat split; auto.
Qed.

Section Separate.

Context `{MathLib}.

(** What an update of a cohort does to its list of components: nothing,
    or, at flowering, it makes it the stalk and three new objects. *)
Lemma cohort_update_components (ctr : Cohort.container) (dt : Q)
    (c c' : Cohort.t) (h h' : Heap) :
  Cohorts.cohort_update ctr dt c h = Some (c', h') ->
  Cohort.stalk c' = Cohort.stalk c /\
  (Cohort.components c' = Cohort.components c /\ length h' = length h \/
   Cohort.components c'
   = [Cohort.stalk c; S (length h); length h; S (S (length h))] /\
   length h' = (length h + 3)%nat).
Proof.
  unfold Cohorts.cohort_update. destruct (Cohort.sex c) eqn:Es.
  - intros H0. apply _update_length in H0.
    destruct H0 as (Hl & Hs & Hc & _). split; [exact Hs | left; auto].
  - intros H0. apply female_update_Some in H0.
    destruct H0 as (c1 & h1 & Hup & Hfl).
    apply _update_length in Hup. destruct Hup as (Hl & Hs & Hc & Hsex).
    destruct (Female.should_trigger_flowering c1).
    + apply set_fruit_Some in Hfl.
      destruct Hfl as (oil & fib & ker & _ & _ & _ & -> & ->).
      split; [exact Hs |]. right.
      unfold Cohort.components. simpl. rewrite Hsex, Es, Hs, Hl.
      split; [reflexivity |]. rewrite length_app. simpl. lia.
    + destruct Hfl as [-> ->]. split; [exact Hs | left; auto].
  - intros H0. apply _update_length in H0.
    destruct H0 as (Hl & Hs & Hc & _). split; [exact Hs | left; auto].
Qed.

Lemma update_existing_components (ctr : Cohort.container) (dt : Q)
    (cs : list Cohort.t) :
  forall (cs' : list Cohort.t) (h h' : Heap),
    map_M (Cohorts.cohort_update ctr dt) cs h = Some (cs', h') ->
    Forall (fun c => In (Cohort.stalk c) (Cohort.components c)) cs ->
    Forall (fun r => (r < length h)%nat) (population_components cs) ->
    List.NoDup (population_components cs) ->
    (length h <= length h')%nat /\
    Forall (fun c => In (Cohort.stalk c) (Cohort.components c)) cs' /\
    (forall r, In r (population_components cs') ->
       (In r (population_components cs) \/ (length h <= r)%nat) /\
       (r < length h')%nat) /\
    List.NoDup (population_components cs').
Proof.
  induction cs as [| c cs IH]; intros cs' h h' Hm Hst Hlt Hnd.
  - simpl in Hm. apply ret_Some in Hm. destruct Hm as [-> ->].
    split; [lia |]. split; [constructor |]. split; [intros r [] |].
    constructor.
  - apply map_M_cons in Hm. destruct Hm as (y & ys & h1 & E1 & E2 & ->).
    change (population_components (c :: cs))
      with (Cohort.components c ++ population_components cs) in *.
    change (population_components (y :: ys))
      with (Cohort.components y ++ population_components ys).
    inversion Hst as [| ? ? Hc Hst']; subst.
    apply Forall_app in Hlt. destruct Hlt as [Hltc Hltcs].
    apply NoDup_app_In in Hnd. destruct Hnd as (Hndc & Hdis & Hndcs).
    apply cohort_update_components in E1. destruct E1 as [Hs Hcases].
    assert (Hh1 : (length h <= length h1)%nat)
      by (destruct Hcases as [[_ ->] | [_ ->]]; lia).
    assert (Hltcs1 : Forall (fun r => (r < length h1)%nat)
                       (population_components cs)).
    { eapply Forall_impl; [exact Hltcs |]. simpl. intros r Hr. lia. }
    destruct (IH _ _ _ E2 Hst' Hltcs1 Hndcs) as (Hl & Hst1 & Hin & Hnd1).
    assert (Hy : forall r, In r (Cohort.components y) ->
                   (In r (Cohort.components c) \/ (length h <= r)%nat) /\
                   (r < length h1)%nat).
    { intros r Hr. destruct Hcases as [[Ec El] | [Ec El]]; rewrite Ec in Hr.
      - split; [left; exact Hr |].
        pose proof (proj1 (List.Forall_forall _ _) Hltc r Hr). simpl in *. lia.
      - pose proof (proj1 (List.Forall_forall _ _) Hltc _ Hc) as Hsl.
        simpl in Hsl, Hr.
        destruct Hr as [<- | [<- | [<- | [<- | []]]]].
        + split; [left; exact Hc | lia].
        + split; [right; lia | lia].
        + split; [right; lia | lia].
        + split; [right; lia | lia]. }
    split; [lia |]. split.
    { constructor; [| exact Hst1]. rewrite Hs.
      destruct Hcases as [[-> _] | [-> _]]; [exact Hc | left; reflexivity]. }
    split.
    { intros r Hr. apply in_app_iff in Hr. destruct Hr as [Hr | Hr].
      - destruct (Hy r Hr) as [[Hi | Hi] Hb].
        + split; [left; apply in_app_iff; left; exact Hi | lia].
        + split; [right; exact Hi | lia].
      - destruct (Hin r Hr) as [[Hi | Hi] Hb].
        + split; [left; apply in_app_iff; right; exact Hi | exact Hb].
        + split; [right; lia | exact Hb]. }
    apply NoDup_app_In. split; [| split; [| exact Hnd1]].
    + destruct Hcases as [[-> _] | [-> _]]; [exact Hndc |].
      pose proof (proj1 (List.Forall_forall _ _) Hltc _ Hc) as Hsl.
      simpl in Hsl.
      repeat constructor; simpl; intros Hx;
        repeat (destruct Hx as [Hx | Hx]; [lia |]); exact Hx.
    + intros r Hr Hr'. destruct (Hy r Hr) as [Hor Hb].
      destruct (Hin r Hr') as [[Hi | Hi] _]; [| lia].
      destruct Hor as [Hrc | Hge].
      * exact (Hdis r Hrc Hi).
      * pose proof (proj1 (List.Forall_forall _ _) Hltcs r Hi). simpl in *.
        lia.
Qed.

Lemma lt_length_mono (l : list nat) (n m : nat) :
  (n <= m)%nat -> Forall (fun r => (r < n)%nat) l ->
  Forall (fun r => (r < m)%nat) l.
Proof.
  intros Hnm Hl. eapply Forall_impl; [exact Hl |]. simpl. intros r Hr. lia.
Qed.

(** The loop of [update_sex]: the two cohorts that replace a cohort
    have one new object each. *)
Lemma update_sex_loop_separate (ctr : Cohort.container) (cs : list Cohort.t) :
  forall (acc res : list Cohort.t) (h h' : Heap),
    Cohorts.update_sex_loop ctr cs acc h = Some (res, h') ->
    Forall (fun c => In (Cohort.stalk c) (Cohort.components c)) (acc ++ cs) ->
    Forall (fun r => (r < length h)%nat) (population_components (acc ++ cs)) ->
    List.NoDup (population_components (acc ++ cs)) ->
    (length h <= length h')%nat /\
    Forall (fun c => In (Cohort.stalk c) (Cohort.components c)) res /\
    Forall (fun r => (r < length h')%nat) (population_components res) /\
    List.NoDup (population_components res).
Proof.
  induction cs as [| c cs IH]; intros acc res h h' Hloop Hst Hlt Hnd.
  - simpl in Hloop. apply ret_Some in Hloop. destruct Hloop as [-> ->].
    rewrite app_nil_r in *. split; [lia | auto].
  - simpl in Hloop.
    destruct (Cohort.sex_eqb (Cohort.sex c) Cohort.indeterminate
              && Py.gtb (Cohort.age c) (Cohort.t_differentiation c)).
    + inv_M Hloop.
      apply to_female_Some in E.
      destruct E as (x0 & x & d & ff & _ & _ & _ & -> & _ & Hsf & Hcf & _).
      apply to_male_Some in E0.
      destruct E0 as (x0' & x' & d' & ff' & _ & _ & _ & -> & _ & Hsm & Hcm & _).
      rewrite length_app in Hsm, Hcm. simpl in Hsm, Hcm.
      set (l := length h) in *.
      assert (Hpc : population_components ((acc ++ [a; a0]) ++ cs)
                    = population_components acc
                      ++ [S l; S (l + 2)] ++ population_components cs).
      { rewrite !population_components_app.
        unfold population_components at 2. simpl. rewrite Hcf, Hcm.
        rewrite <- app_assoc. reflexivity. }
      rewrite !population_components_app in Hlt, Hnd.
      change (population_components (c :: cs))
        with (Cohort.components c ++ population_components cs) in Hlt, Hnd.
      apply Forall_app in Hlt. destruct Hlt as [Hlta Hlt].
      apply Forall_app in Hlt. destruct Hlt as [_ Hltcs].
      apply NoDup_app_In in Hnd. destruct Hnd as (Hnda & Hdis & Hnd).
      apply NoDup_app_In in Hnd. destruct Hnd as (_ & _ & Hndcs).
      apply Forall_app in Hst. destruct Hst as [Hsta Hst].
      inversion Hst as [| ? ? _ Hstcs]; subst.
      destruct (IH (acc ++ [a; a0]) res _ _ Hloop) as (Hl & Hres).
      * apply Forall_app. split; [| exact Hstcs].
        apply Forall_app. split; [exact Hsta |].
        repeat apply List.Forall_cons; try apply List.Forall_nil.
        -- rewrite Hcf, Hsf. left. reflexivity.
        -- rewrite Hcm, Hsm. left. reflexivity.
      * rewrite Hpc. rewrite !length_app. simpl length. fold l.
        apply Forall_app. split; [apply (lt_length_mono _ l); [lia | exact Hlta] |].
        apply Forall_app. split;
          [| apply (lt_length_mono _ l); [lia | exact Hltcs]].
        repeat apply List.Forall_cons; try apply List.Forall_nil; lia.
      * rewrite Hpc. apply NoDup_app_In. split; [exact Hnda |]. split.
        -- intros r Hr Hr'. apply in_app_iff in Hr'.
           pose proof (proj1 (List.Forall_forall _ _) Hlta r Hr) as Hrl.
           simpl in Hrl. destruct Hr' as [Hr' | Hr'].
           ++ simpl in Hr'. destruct Hr' as [<- | [<- | []]]; lia.
           ++ apply (Hdis r Hr). apply in_app_iff. right. exact Hr'.
        -- apply NoDup_app_In. split; [| split; [| exact Hndcs]].
           ++ repeat constructor; simpl; intros Hx;
                repeat (destruct Hx as [Hx | Hx]; [lia |]); exact Hx.
           ++ intros r Hr Hr'.
              pose proof (proj1 (List.Forall_forall _ _) Hltcs r Hr') as Hrl.
              simpl in Hrl, Hr. destruct Hr as [<- | [<- | []]]; lia.
      * rewrite !length_app in Hl. simpl in Hl. split; [lia | exact Hres].
    + apply (IH (acc ++ [c]) res h h' Hloop); rewrite <- app_assoc;
        assumption.
Qed.

Lemma indeterminate_init_Some (ctr : Cohort.container) (c : Cohort.t)
    (h h' : Heap) :
  Indeterminate.init ctr h = Some (c, h') ->
  exists x T,
    h' = h ++ [x] /\ c = Indeterminate.make (length h) T.
Proof.
  unfold Indeterminate.init. intros H0. cbv zeta in H0. inv_M H0.
  apply lift_Some in E. destruct E as [Ex ->].
  apply alloc_Some in E0. destruct E0 as [-> ->].
  apply lift_Some in E1. destruct E1 as [_ ->].
  apply ret_Some in H0. destruct H0 as [-> ->]. eauto.
Qed.

(** [update_population]: the three steps and what each starts from. *)
Lemma update_population_Some (dt : Q) (self pop : Cohorts.t) (h h' : Heap) :
  Cohorts.update_population dt self h = Some (pop, h') ->
  exists ctr1 ctr2 ctr3 cs1 h1 cs2 h2 new r,
    map_M (Cohorts.cohort_update ctr1 dt) (Container.cohorts self) h
    = Some (cs1, h1) /\
    Cohorts.update_sex_loop ctr2 cs1 [] h1 = Some (cs2, h2) /\
    Indeterminate.init ctr3 h2 = Some (new, h') /\
    Container.cohorts pop
    = cs2 ++ [Cohort.set_num_inflorescences r new].
Proof.
  unfold Cohorts.update_population. intros H0. inv_M H0.
  unfold Cohorts.update_existing_cohorts in E. inv_M E.
  unfold Cohorts.update_sex in E0. inv_M E0.
  unfold Cohorts.update_new_cohorts in H0. inv_M H0.
  repeat match goal with
  | E : lift _ _ = Some _ |- _ => apply lift_Some in E; destruct E as [_ ->]
  | E : ret _ _ = Some _ |- _ => apply ret_Some in E; destruct E as [-> ->]
  end.
  simpl in *.
  repeat eexists; eassumption.
Qed.

Lemma update_population_separate (dt : Q) (self pop : Cohorts.t)
    (h h' : Heap) :
  separate h (Container.cohorts self) ->
  Cohorts.update_population dt self h = Some (pop, h') ->
  separate h' (Container.cohorts pop).
Proof.
  intros (Hnd & Hlt & Hst) Hpop.
  apply update_population_Some in Hpop.
  destruct Hpop as (ctr1 & ctr2 & ctr3 & cs1 & h1 & cs2 & h2 & new & r
                    & E1 & E2 & E3 & Epop).
  destruct (update_existing_components _ _ _ _ _ _ E1 Hst Hlt Hnd)
    as (Hl1 & Hst1 & Hin1 & Hnd1).
  assert (Hlt1 : Forall (fun r => (r < length h1)%nat)
                   (population_components cs1)).
  { apply List.Forall_forall. intros x Hx. exact (proj2 (Hin1 x Hx)). }
  destruct (update_sex_loop_separate _ _ _ _ _ _ E2 Hst1 Hlt1 Hnd1)
    as (Hl2 & Hst2 & Hlt2 & Hnd2).
  apply indeterminate_init_Some in E3. destruct E3 as (x & T & -> & ->).
  rewrite Epop. unfold separate. rewrite population_components_app.
  change (population_components
            [Cohort.set_num_inflorescences r
               (Indeterminate.make (length h2) T)])
    with [length h2].
  rewrite length_app. simpl length.
  split; [| split].
  - apply NoDup_app_In. split; [exact Hnd2 |]. split.
    + intros y Hy [<- | []].
      pose proof (proj1 (List.Forall_forall _ _) Hlt2 _ Hy). simpl in *.
      lia.
    + repeat constructor. intros [].
  - apply Forall_app. split;
      [apply (lt_length_mono _ (length h2)); [lia | exact Hlt2] |].
    apply Forall_singleton. lia.
  - apply Forall_app. split; [exact Hst2 |].
    apply Forall_singleton. left. reflexivity.
Qed.

Lemma delete_deletable_cohorts (pop : Cohorts.t) :
  Container.cohorts (Cohorts.delete_deletable (Cohorts.record_harvest pop))
  = List.filter (fun c => negb (Cohorts.cohort_is_deletable c))
      (Container.cohorts pop).
Proof.
  unfold Cohorts.delete_deletable, Cohorts.record_harvest.
  destruct (Cohorts.harvest pop); reflexivity.
Qed.

(** Removing cohorts and setting relative sink strengths keeps the
    cohorts separate. *)
Lemma kept_separate (ctr : Cohort.container) (h : Heap) (pop : Cohorts.t)
    (cs : list Cohort.t) :
  separate h (Container.cohorts pop) ->
  Forall2 (fun c c' =>
             exists res,
               Cohort.get_relative_sink_strength ctr h c = Some res /\
               c' = Cohort.set_relative_sink_strength_attr res c)
    (Container.cohorts (Cohorts.delete_deletable (Cohorts.record_harvest pop)))
    cs ->
  separate h cs.
Proof.
  intros (Hnd & Hlt & Hst) Hall.
  rewrite delete_deletable_cohorts in Hall.
  set (kept := List.filter (fun c => negb (Cohorts.cohort_is_deletable c))
                 (Container.cohorts pop)) in *.
  assert (Hsame : map Cohort.components cs = map Cohort.components kept /\
                  (Forall (fun c => In (Cohort.stalk c) (Cohort.components c))
                     kept ->
                   Forall (fun c => In (Cohort.stalk c) (Cohort.components c))
                     cs)).
  { clear - Hall. induction Hall as [| c c' l l' (res & _ & ->) _ [IH1 IH2]];
      [split; trivial |].
    split; [simpl; f_equal; exact IH1 |].
    intros Hk. inversion Hk; subst. constructor; [assumption | auto]. }
  destruct Hsame as [Hmap Hstalk].
  unfold separate, population_components. rewrite Hmap.
  fold (population_components kept).
  destruct (population_components_filter
              (fun c => negb (Cohorts.cohort_is_deletable c))
              (Container.cohorts pop)) as [Hin Hndf].
  split; [exact (Hndf Hnd) |]. split.
  - apply List.Forall_forall. intros y Hy.
    exact (proj1 (List.Forall_forall _ _) Hlt y (Hin y Hy)).
  - apply Hstalk. apply List.Forall_forall. intros c Hc.
    apply filter_In in Hc.
    exact (proj1 (List.Forall_forall _ _) Hst c (proj1 Hc)).
Qed.


End Separate.


(** ** An update of a consistent population returns *)

Lemma heap_kept_length (h h' : Heap) :
  heap_kept h h' -> (length h <= length h')%nat.
Proof.
  intros [Hk _]. destruct (le_lt_dec (length h) (length h')) as [Hle | Hlt];
    [exact Hle |].
  destruct (lookup_lt_is_Some_2 h (length h') Hlt) as [x Ex].
  destruct (Hk _ _ Ex) as (x' & Ex' & _).
  apply lookup_lt_Some in Ex'. lia.
Qed.

Lemma component_objects_returns (h : Heap) (rs : list ref) :
  Forall (fun r => (r < length h)%nat) rs ->
  exists xs, map_opt (deref h) rs = Some xs.
Proof.
  induction 1 as [| r rs Hr _ [xs IH]]; simpl; [eauto |].
  destruct (lookup_lt_is_Some_2 h r Hr) as [x Ex].
  unfold deref at 1. rewrite Ex, IH. eauto.
Qed.

Lemma owner_returns (ctr : Cohort.container) (h : Heap) (c : Cohort.t) :
  Forall (fun r => (r < length h)%nat) (Cohort.components c) ->
  exists o, Cohort.owner ctr h c = Some o.
Proof.
  intros Hc. destruct (component_objects_returns h _ Hc) as [xs Exs].
  unfold Cohort.owner, Cohort.assim_growth_organ, Cohort.assim_growth_cohort,
    Cohort.cohort_sink_strength, Cohort.potential_sink_strength,
    Cohort.component_objects.
  rewrite Exs.
  destruct ctr; destruct (Py.gtb (Cohort.num_inflorescences c) 0); eauto.
Qed.

Lemma cohort_sink_strength_returns (h : Heap) (c : Cohort.t) :
  Forall (fun r => (r < length h)%nat) (Cohort.components c) ->
  exists s, Cohort.cohort_sink_strength h c = Some s.
Proof.
  intros Hc. destruct (component_objects_returns h _ Hc) as [xs Exs].
  unfold Cohort.cohort_sink_strength, Cohort.potential_sink_strength,
    Cohort.component_objects.
  rewrite Exs. eauto.
Qed.

(** A loop over objects returns when each of its steps does, on a heap
    that has the property the steps keep. *)
Lemma for_each_returns {A} (f : A -> M unit) (I : Heap -> Prop)
    (xs : list A) :
  (forall x h, In x xs -> I h -> exists h', f x h = Some (tt, h') /\ I h') ->
  forall h, I h -> exists h', for_each f xs h = Some (tt, h') /\ I h'.
Proof.
  induction xs as [| x xs IH]; intros Hf h Hh.
  - exists h. split; [reflexivity | exact Hh].
  - destruct (Hf x h (or_introl eq_refl) Hh) as (h1 & E1 & H1).
    destruct (IH (fun y k Hy => Hf y k (or_intror Hy)) h1 H1) as (h' & E & H').
    exists h'. split; [| exact H'].
    apply for_each_cons. eauto.
Qed.

Lemma bind_returns {A B} (m : M A) (f : A -> M B) (h h1 h' : Heap) (a : A)
    (b : B) :
  m h = Some (a, h1) -> f a h1 = Some (b, h') -> bind m f h = Some (b, h').
Proof. intros E1 E2. apply bind_Some. eauto. Qed.

Lemma component_update_mass_returns (ctr : Cohort.container) (c : Cohort.t)
    (dt : Q) (n : nat) (r : ref) (h : Heap) :
  Forall (fun r => (r < n)%nat) (Cohort.components c) ->
  (r < n)%nat ->
  Forall well_formed h /\ length h = n ->
  exists h',
    Cohort.component_update_mass ctr c dt r h = Some (tt, h') /\
    (Forall well_formed h' /\ length h' = n).
Proof.
  intros Hc Hr [Hw Hn]. subst n.
  destruct (lookup_lt_is_Some_2 h r Hr) as [x Ex].
  destruct (owner_returns ctr h c Hc) as [o Eo].
  pose proof (Forall_lookup_1 _ _ _ _ Hw Ex) as Hx.
  destruct (well_formed_potential x (BunchComponent.age x) Hx) as (g & Eg & _).
  eexists. split.
  - unfold Cohort.component_update_mass.
    eapply bind_returns; [apply get_Some; split; [exact Ex | reflexivity] |].
    eapply bind_returns; [apply get_Some; split; [exact Eo | reflexivity] |].
    eapply bind_returns.
    + apply lift_Some. split; [| reflexivity].
      unfold BunchComponent.update_mass, BunchComponent.mass_growth_rate,
        BunchComponent.mass_growth_rate_potential. cbv zeta.
      rewrite Eg. reflexivity.
    + apply store_Some. split; [eauto | reflexivity].
  - split; [| apply length_insert].
    apply Forall_insert; [exact Hw |]. apply well_formed_set_mass. exact Hx.
Qed.

Lemma component_update_age_returns (dt : Q) (n : nat) (r : ref) (h : Heap) :
  (r < n)%nat ->
  Forall well_formed h /\ length h = n ->
  exists h',
    Cohort.component_update_age dt r h = Some (tt, h') /\
    (Forall well_formed h' /\ length h' = n).
Proof.
  intros Hr [Hw Hn]. subst n.
  destruct (lookup_lt_is_Some_2 h r Hr) as [x Ex].
  pose proof (Forall_lookup_1 _ _ _ _ Hw Ex) as Hx.
  destruct (well_formed_sink x (BunchComponent.age x + dt) Hx) as (p & Ep & _).
  assert (Eu : BunchComponent.update_age dt x
               = Some (BunchComponent.set_potential_sink_strength p
                         (BunchComponent.set_age (BunchComponent.age x + dt) x))).
  { unfold BunchComponent.update_age. rewrite Ep. reflexivity. }
  eexists. split.
  - unfold Cohort.component_update_age.
    eapply bind_returns; [apply get_Some; split; [exact Ex | reflexivity] |].
    eapply bind_returns; [apply lift_Some; split; [exact Eu | reflexivity] |].
    apply store_Some. split; [eauto | reflexivity].
  - split; [| apply length_insert].
    apply Forall_insert; [exact Hw |].
    exact (update_age_well_formed dt x _ Hx Eu).
Qed.

Lemma _update_returns (af : Cohort.container -> Cohort.t -> option Q)
    (ctr : Cohort.container) (dt : Q) (c : Cohort.t) (h : Heap) :
  Forall well_formed h ->
  Forall (fun r => (r < length h)%nat) (Cohort.components c) ->
  (exists a, af ctr c = Some a) ->
  exists c' h', Cohort._update af ctr dt c h = Some (c', h').
Proof.
  intros Hw Hc [a Ea].
  destruct (for_each_returns (Cohort.component_update_mass ctr c dt)
              (fun k => Forall well_formed k /\ length k = length h)
              (Cohort.components c)) with (h := h) as (h1 & E1 & H1).
  { intros r k Hr Hk. apply component_update_mass_returns; [exact Hc | | exact Hk].
    exact (proj1 (List.Forall_forall _ _) Hc r Hr). }
  { auto. }
  destruct (for_each_returns (Cohort.component_update_age dt)
              (fun k => Forall well_formed k /\ length k = length h)
              (Cohort.components c)) with (h := h1) as (h2 & E2 & H2).
  { intros r k Hr Hk. apply component_update_age_returns; [| exact Hk].
    exact (proj1 (List.Forall_forall _ _) Hc r Hr). }
  { exact H1. }
  eexists. eexists. unfold Cohort._update.
  eapply bind_returns; [exact E1 |].
  eapply bind_returns; [exact E2 |].
  eapply bind_returns; [apply lift_Some; split; [exact Ea | reflexivity] |].
  reflexivity.
Qed.

Lemma stress_index_nonneg {C : Type} (c0 : Container.t C) :
  0 <= Container.stress_index c0.
Proof.
  unfold Container.stress_index, Container.Ic. cbv zeta.
  match goal with
  | |- context [Py.min 1 ?r] => destruct (min_spec 1 r) as [[Hm ->] | [Hm ->]]
  end; lra.
Qed.

Section Returns.

Context `{MathLib}.

(** What the proofs of this section use of [math.exp]. *)
Hypothesis exp_pos : forall x, 0 < exp x.
Hypothesis exp_le_1 : forall x, x <= 0 -> exp x <= 1.
Hypothesis exp_ge_1 : forall x, 0 <= x -> 1 <= exp x.

Lemma _inflorescence_abortion_fraction_returns (c0 : Cohorts.t)
    (c : Cohort.t) :
  exists a, Female._inflorescence_abortion_fraction (Some c0) c = Some a.
Proof.
  unfold Female._inflorescence_abortion_fraction, Female._stress_index.
  cbv zeta.
  pose proof (stress_index_nonneg c0) as Hs.
  set (e := exp (Female.stress_inflorescence_abortion_asymptote
                 * Container.stress_index c0)).
  assert (He : 1 <= e).
  { apply exp_ge_1. apply Qmult_le_0_compat; [| exact Hs].
    unfold Female.stress_inflorescence_abortion_asymptote. lra. }
  assert (Hnz : ~ e == 0) by lra.
  rewrite (div_nonzero _ _ Hnz).
  pose proof (inv_of_at_least_one e He) as [Hq0 Hq1].
  assert (A1 : Py.geb (1 - 1 / e) 0 = true) by (apply geb_true; lra).
  assert (A2 : Py.ltb (1 - 1 / e) 1 = true) by (apply ltb_true; lra).
  rewrite A1. simpl. rewrite A2. simpl. eauto.
Qed.

Lemma _bunch_failure_fraction_returns (c0 : Cohorts.t) (c : Cohort.t) :
  exists a, Female._bunch_failure_fraction (Some c0) c = Some a.
Proof.
  unfold Female._bunch_failure_fraction, Female._stress_index. cbv zeta.
  pose proof (stress_index_nonneg c0) as Hs.
  set (x := - Female.stress_bunch_failure_asymptote
            * Container.stress_index c0).
  assert (Hx : x <= 0).
  { unfold x.
    assert (0 <= Female.stress_bunch_failure_asymptote
                 * Container.stress_index c0)
      by (apply Qmult_le_0_compat;
          [unfold Female.stress_bunch_failure_asymptote; lra | exact Hs]).
    lra. }
  pose proof (exp_pos x) as H0. pose proof (exp_le_1 x Hx) as H1.
  assert (A1 : Py.geb (1 - exp x) 0 = true) by (apply geb_true; lra).
  assert (A2 : Py.ltb (1 - exp x) 1 = true) by (apply ltb_true; lra).
  rewrite A1. simpl. rewrite A2. simpl. eauto.
Qed.

Lemma female_abortion_fraction_returns (c0 : Cohorts.t) (c : Cohort.t) :
  exists a, Female.abortion_fraction (Some c0) c = Some a.
Proof.
  unfold Female.abortion_fraction.
  assert (Hi : exists i,
             Female.inflorescence_abortion_fraction (Some c0) c = Some i).
  { unfold Female.inflorescence_abortion_fraction. cbv zeta.
    change (negb (Py.eqb Female.stress_inflorescence_abortion 1)) with false.
    cbv iota.
    destruct (_ && _); [apply _inflorescence_abortion_fraction_returns | eauto]. }
  assert (Hb : exists b, Female.bunch_failure_fraction (Some c0) c = Some b).
  { unfold Female.bunch_failure_fraction. cbv zeta.
    change (negb (Py.eqb Female.stress_bunch_failure 1)) with false.
    cbv iota.
    destruct (_ && _); [apply _bunch_failure_fraction_returns | eauto]. }
  destruct Hi as [i ->], Hb as [b ->]. eauto.
Qed.

Lemma set_fruit_returns (c : Cohort.t) (h : Heap) :
  ~ Cohort.t_maturity c == 0 ->
  exists c' h', Female.set_fruit c h = Some (c', h').
Proof.
  intros HT. unfold Female.set_fruit. cbv zeta.
  destruct (component_init_returns BunchComponent.MesocarpOil
              (Some (Cohort._potential_mass c)) (Cohort.age c) None
              (Cohort.t_maturity c) HT) as [oil Eoil]; [right; discriminate |].
  destruct (component_init_returns BunchComponent.MesocarpFibers
              (Some (Cohort._potential_mass c)) (Cohort.age c) None
              (Cohort.t_maturity c) HT) as [fib Efib]; [right; discriminate |].
  destruct (component_init_returns BunchComponent.Kernels
              (Some (Cohort._potential_mass c)) (Cohort.age c) None
              (Cohort.t_maturity c) HT) as [ker Eker]; [right; discriminate |].
  eexists. eexists.
  eapply bind_returns; [apply lift_Some; split; [exact Eoil | reflexivity] |].
  eapply bind_returns; [apply alloc_Some; split; reflexivity |].
  eapply bind_returns; [apply lift_Some; split; [exact Efib | reflexivity] |].
  eapply bind_returns; [apply alloc_Some; split; reflexivity |].
  eapply bind_returns; [apply lift_Some; split; [exact Eker | reflexivity] |].
  eapply bind_returns; [apply alloc_Some; split; reflexivity |].
  reflexivity.
Qed.

(** The update of one cohort of a container returns. *)
Lemma cohort_update_returns (c0 : Cohorts.t) (dt : Q) (c : Cohort.t)
    (h : Heap) :
  Forall well_formed h ->
  Forall (fun r => (r < length h)%nat) (Cohort.components c) ->
  (Cohort.sex c = Cohort.female -> ~ Cohort.t_maturity c == 0) ->
  exists c' h', Cohorts.cohort_update (Some c0) dt c h = Some (c', h').
Proof.
  intros Hw Hc HT. unfold Cohorts.cohort_update.
  destruct (Cohort.sex c) eqn:Es.
  - apply _update_returns; [exact Hw | exact Hc |].
    unfold Cohort.abortion_fraction. eauto.
  - destruct (_update_returns Female.abortion_fraction (Some c0) dt c h Hw Hc
                (female_abortion_fraction_returns c0 c)) as (c1 & h1 & E1).
    unfold Female.update.
    destruct (Female.should_trigger_flowering c1) eqn:Etr.
    + destruct (set_fruit_returns c1 h1) as (c' & h' & E2).
      { apply _update_Some in E1. destruct E1 as (? & ? & _ & _ & _ & ->).
        simpl. exact (HT eq_refl). }
      exists c', h'. eapply bind_returns; [exact E1 |]. rewrite Etr. exact E2.
    + exists c1, h1. eapply bind_returns; [exact E1 |]. rewrite Etr.
      reflexivity.
  - apply _update_returns; [exact Hw | exact Hc |].
    unfold Cohort.abortion_fraction. eauto.
Qed.

Lemma cohort_update_keeps_maturity (ctr : Cohort.container) (dt : Q)
    (c c' : Cohort.t) (h h' : Heap) :
  Cohorts.cohort_update ctr dt c h = Some (c', h') ->
  Cohort.sex c' = Cohort.sex c /\ Cohort.t_maturity c' = Cohort.t_maturity c.
Proof.
  unfold Cohorts.cohort_update. destruct (Cohort.sex c) eqn:Es.
  - intros H0. apply _update_Some in H0.
    destruct H0 as (? & ? & _ & _ & _ & ->). split; [exact Es | reflexivity].
  - intros H0. apply female_update_Some in H0.
    destruct H0 as (c1 & h1 & Hup & Hfl).
    apply _update_Some in Hup. destruct Hup as (? & ? & _ & _ & _ & ->).
    destruct (Female.should_trigger_flowering _).
    + apply set_fruit_Some in Hfl.
      destruct Hfl as (? & ? & ? & _ & _ & _ & _ & ->).
      split; [exact Es | reflexivity].
    + destruct Hfl as [-> _]. split; [exact Es | reflexivity].
  - intros H0. apply _update_Some in H0.
    destruct H0 as (? & ? & _ & _ & _ & ->). split; [exact Es | reflexivity].
Qed.

(** The loop of [update_existing_cohorts] returns, and the female
    cohorts keep their times to maturity. *)
Lemma update_existing_returns (c0 : Cohorts.t) (dt : Q)
    (cs : list Cohort.t) :
  forall h,
    Forall well_formed h ->
    Forall (fun r => (r < length h)%nat) (population_components cs) ->
    Forall (fun c => Cohort.sex c = Cohort.female ->
                     ~ Cohort.t_maturity c == 0) cs ->
    exists cs' h',
      map_M (Cohorts.cohort_update (Some c0) dt) cs h = Some (cs', h') /\
      Forall (fun c => Cohort.sex c = Cohort.female ->
                       ~ Cohort.t_maturity c == 0) cs'.
Proof.
  induction cs as [| c cs IH]; intros h Hw Hlt HT.
  - exists [], h. split; [reflexivity | constructor].
  - change (population_components (c :: cs))
      with (Cohort.components c ++ population_components cs) in Hlt.
    apply Forall_app in Hlt. destruct Hlt as [Hltc Hltcs].
    inversion HT as [| ? ? HTc HTcs]; subst.
    destruct (cohort_update_returns c0 dt c h Hw Hltc HTc) as (y & h1 & E1).
    pose proof (cohort_update_kept _ _ _ _ _ _ E1) as Hk.
    pose proof (heap_kept_length _ _ Hk) as Hl.
    destruct (IH h1 (proj2 Hk Hw)
                (lt_length_mono _ _ _ Hl Hltcs) HTcs) as (ys & h' & E2 & HT').
    exists (y :: ys), h'. split.
    + apply map_M_cons. eauto 6.
    + constructor; [| exact HT'].
      destruct (cohort_update_keeps_maturity _ _ _ _ _ _ E1) as [-> ->].
      exact HTc.
Qed.

Lemma t_maturity_returns {C : Type} (c0 : Container.t C) (p : Palm.t) :
  Container._palm c0 = Some p -> ~ Palm._days_in_year p == 0 ->
  exists T, Container.t_maturity c0 = Some T /\ 0 < T.
Proof.
  intros Hp Hy. unfold Container.t_maturity. rewrite Hp.
  rewrite (div_nonzero _ _ Hy). cbv zeta.
  assert (Ha0 : ~ Container.bunch_development_asymptote_t0 == 0)
    by (unfold Container.bunch_development_asymptote_t0; lra).
  rewrite (div_nonzero _ _ Ha0).
  set (e := -4 * Container.bunch_development_slope
            * (Container._DAP c0 / Palm._days_in_year p)
            / Container.bunch_development_asymptote_t0).
  pose proof (exp_pos e) as He.
  assert (Hnz : ~ 1 + exp e == 0) by lra.
  rewrite (div_nonzero _ _ Hnz).
  assert (Hd : 1 < 1 + exp e) by lra.
  pose proof (inv_of_more_than_one _ Hd) as [Hq0 _].
  assert (Hpos : 0 < Container.bunch_development_asymptote_t0
                     * (1 / (1 + exp e))).
  { apply Qmult_lt_0_compat;
      [unfold Container.bunch_development_asymptote_t0; lra | exact Hq0]. }
  pose proof (proj2 (gtb_true _ _) Hpos) as Hb. rewrite Hb. simpl.
  eexists. split; [reflexivity | exact Hpos].
Qed.

Lemma potential_mass_returns (c0 : Cohorts.t) (p : Palm.t) (c : Cohort.t) :
  Container._palm c0 = Some p -> field_ok p ->
  exists pm, Indeterminate.potential_mass (Some c0) c = Some pm.
Proof.
  intros Hp (Hy & _ & HD).
  assert (Hynz : ~ Palm._days_in_year p == 0) by lra.
  destruct (t_maturity_returns c0 p Hp Hynz) as (T & ET & HT).
  unfold Indeterminate.potential_mass, Indeterminate._t_maturity,
    Indeterminate.days_in_year, Indeterminate._DAP,
    Indeterminate.bunch_FM_to_DM_ratio.
  cbv zeta. rewrite ET, Hp. simpl.
  rewrite (div_nonzero _ _ Hynz).
  set (x := (Palm.DAP p + T - T * Indeterminate.p_t_differentiation)
            / Palm._days_in_year p).
  assert (Hx : 0 <= x).
  { unfold x. apply Qle_shift_div_l; [exact Hy |].
    unfold Indeterminate.p_t_differentiation. lra. }
  assert (He : exp (- Indeterminate.potential_mass_b * x) <= 1).
  { apply exp_le_1.
    assert (0 <= Indeterminate.potential_mass_b * x)
      by (apply Qmult_le_0_compat;
          [unfold Indeterminate.potential_mass_b; lra | exact Hx]).
    lra. }
  assert (Hres : 0 <= Indeterminate.potential_mass_a
                      * (1 - exp (- Indeterminate.potential_mass_b * x))
                      / Container.bunch_FM_to_DM_ratio).
  { apply Qle_shift_div_l; [unfold Container.bunch_FM_to_DM_ratio; lra |].
    rewrite Qmult_0_l. apply Qmult_le_0_compat;
      [unfold Indeterminate.potential_mass_a; lra | lra]. }
  apply geb_true in Hres. rewrite Hres. simpl. eauto.
Qed.

Lemma female_fraction_returns (c0 : Cohorts.t) (p : Palm.t) (c : Cohort.t) :
  Container._palm c0 = Some p -> field_ok p ->
  exists ff, Indeterminate.female_fraction (Some c0) c = Some ff.
Proof.
  intros Hp (Hy & _ & _).
  assert (Hynz : ~ Palm._days_in_year p == 0) by lra.
  unfold Indeterminate.female_fraction, Container.female_fraction,
    Container.female_fraction_baseline.
  cbv zeta. rewrite Hp. rewrite (div_nonzero _ _ Hynz).
  set (t := Container._DAP c0 / Palm._days_in_year p).
  pose proof (exp_pos (-0.24 * t)) as He.
  assert (Hl : ~ 21.28 * (1 + 1.56 * exp (-0.24 * t)) == 0).
  { assert (0 <= 1.56 * exp (-0.24 * t)) by (apply Qmult_le_0_compat; lra).
    assert (0 < 21.28 * (1 + 1.56 * exp (-0.24 * t)))
      by (apply Qmult_lt_0_compat; lra).
    lra. }
  rewrite (div_nonzero _ _ Hl). eauto.
Qed.

Lemma well_formed_maturity (x : BunchComponent.t) :
  well_formed x -> ~ BunchComponent.t_maturity x == 0.
Proof.
  intros (Hf & _) HT. apply make_quadratic_function_Some in Hf.
  destruct Hf as [Hnz _]. apply Hnz. apply growth_window_zero. exact HT.
Qed.

Lemma copy_returns (x : BunchComponent.t) :
  well_formed x -> exists d, BunchComponent.copy x = Some d.
Proof.
  intros Hx. unfold BunchComponent.copy. cbv zeta.
  destruct (component_init_returns (BunchComponent.cls x) None 0
              (Some (BunchComponent.potential_mass x))
              (BunchComponent.t_maturity x) (well_formed_maturity x Hx))
    as [d0 Ed0]; [left; discriminate |].
  rewrite Ed0.
  apply init_well_formed in Ed0.
  destruct (well_formed_sink d0 (BunchComponent.age x) Ed0) as (q & Eq & _).
  change (BunchComponent.get_potential_sink_strength
            (BunchComponent.set_age (BunchComponent.age x)
               (BunchComponent.set_mass (BunchComponent.mass x) d0)))
    with (BunchComponent.get_potential_sink_strength
            (BunchComponent.set_age (BunchComponent.age x) d0)).
  rewrite Eq. eauto.
Qed.

Lemma stalk_init_returns (pm : Q) :
  exists x,
    BunchComponent.init BunchComponent.Stalk (Some pm) 0 None 1200 = Some x.
Proof.
  apply component_init_returns; [lra | right; discriminate].
Qed.

Lemma to_female_returns (c0 : Cohorts.t) (p : Palm.t) (c : Cohort.t)
    (h : Heap) :
  Container._palm c0 = Some p -> field_ok p ->
  Forall well_formed h -> (Cohort.stalk c < length h)%nat ->
  exists f h', Indeterminate.to_female (Some c0) c h = Some (f, h').
Proof.
  intros Hp Hfield Hw Hs.
  destruct (potential_mass_returns c0 p c Hp Hfield) as [pm Epm].
  destruct (t_maturity_returns c0 p Hp) as (T & ET & _);
    [destruct Hfield as (Hy & _); lra |].
  destruct (stalk_init_returns pm) as [x0 Ex0].
  destruct (lookup_lt_is_Some_2 h _ Hs) as [x Ex].
  destruct (copy_returns x (Forall_lookup_1 _ _ _ _ Hw Ex)) as [d Ed].
  destruct (female_fraction_returns c0 p c Hp Hfield) as [ff Eff].
  eexists. eexists. unfold Indeterminate.to_female.
  eapply bind_returns; [apply lift_Some; split; [exact Epm | reflexivity] |].
  eapply bind_returns; [apply lift_Some; split; [exact ET | reflexivity] |].
  eapply bind_returns.
  { unfold Female.init.
    eapply bind_returns; [apply lift_Some; split; [exact Ex0 | reflexivity] |].
    eapply bind_returns; [apply alloc_Some; split; reflexivity |].
    reflexivity. }
  eapply bind_returns.
  { apply get_Some. split; [| reflexivity]. unfold deref.
    rewrite lookup_app_l by exact Hs. exact Ex. }
  eapply bind_returns; [apply lift_Some; split; [exact Ed | reflexivity] |].
  eapply bind_returns; [apply alloc_Some; split; reflexivity |].
  eapply bind_returns; [apply lift_Some; split; [exact Eff | reflexivity] |].
  reflexivity.
Qed.

Lemma to_male_returns (c0 : Cohorts.t) (p : Palm.t) (c : Cohort.t)
    (h : Heap) :
  Container._palm c0 = Some p -> field_ok p ->
  Forall well_formed h -> (Cohort.stalk c < length h)%nat ->
  exists m h', Indeterminate.to_male (Some c0) c h = Some (m, h').
Proof.
  intros Hp Hfield Hw Hs.
  destruct (potential_mass_returns c0 p c Hp Hfield) as [pm Epm].
  destruct (t_maturity_returns c0 p Hp) as (T & ET & _);
    [destruct Hfield as (Hy & _); lra |].
  destruct (stalk_init_returns pm) as [x0 Ex0].
  destruct (lookup_lt_is_Some_2 h _ Hs) as [x Ex].
  destruct (copy_returns x (Forall_lookup_1 _ _ _ _ Hw Ex)) as [d Ed].
  destruct (female_fraction_returns c0 p c Hp Hfield) as [ff Eff].
  eexists. eexists. unfold Indeterminate.to_male.
  eapply bind_returns; [apply lift_Some; split; [exact Epm | reflexivity] |].
  eapply bind_returns; [apply lift_Some; split; [exact ET | reflexivity] |].
  eapply bind_returns.
  { unfold Male.init.
    eapply bind_returns; [apply lift_Some; split; [exact Ex0 | reflexivity] |].
    eapply bind_returns; [apply alloc_Some; split; reflexivity |].
    reflexivity. }
  eapply bind_returns.
  { apply get_Some. split; [| reflexivity]. unfold deref.
    rewrite lookup_app_l by exact Hs. exact Ex. }
  eapply bind_returns; [apply lift_Some; split; [exact Ed | reflexivity] |].
  eapply bind_returns; [apply alloc_Some; split; reflexivity |].
  eapply bind_returns; [apply lift_Some; split; [exact Eff | reflexivity] |].
  reflexivity.
Qed.

(** The female cohort that [to_female] makes has the time to maturity
    of the container. *)
Lemma to_female_maturity (ctr : Cohort.container) (c f : Cohort.t)
    (h h' : Heap) :
  Indeterminate.to_female ctr c h = Some (f, h') ->
  Indeterminate._t_maturity ctr c = Some (Cohort.t_maturity f).
Proof.
  unfold Indeterminate.to_female. intros H0. inv_M H0.
  apply lift_Some in E0. destruct E0 as [ET ->].
  apply female_init_Some in E1. destruct E1 as (x0 & _ & _ & _ & _ & HT & _).
  repeat match goal with
  | E : lift _ _ = Some _ |- _ => apply lift_Some in E; destruct E as [_ ->]
  | E : get _ _ = Some _ |- _ => apply get_Some in E; destruct E as [_ ->]
  | E : alloc _ _ = Some _ |- _ => apply alloc_Some in E; destruct E as [_ ->]
  | E : ret _ _ = Some _ |- _ => apply ret_Some in E; destruct E as [-> _]
  end.
  simpl. rewrite ET. f_equal. symmetry. exact HT.
Qed.

Lemma update_sex_loop_returns (c0 : Cohorts.t) (p : Palm.t)
    (cs : list Cohort.t) :
  Container._palm c0 = Some p -> field_ok p ->
  forall (acc : list Cohort.t) (h : Heap),
    Forall well_formed h ->
    Forall (fun c => (Cohort.stalk c < length h)%nat) cs ->
    Forall (fun c => Cohort.sex c = Cohort.female ->
                     ~ Cohort.t_maturity c == 0) (acc ++ cs) ->
    exists res h',
      Cohorts.update_sex_loop (Some c0) cs acc h = Some (res, h') /\
      Forall (fun c => Cohort.sex c = Cohort.female ->
                       ~ Cohort.t_maturity c == 0) res.
Proof.
  intros Hp Hfield.
  induction cs as [| c cs IH]; intros acc h Hw Hs HT.
  - exists acc, h. rewrite app_nil_r in HT. split; [reflexivity | exact HT].
  - inversion Hs as [| ? ? Hsc Hscs]; subst. simpl.
    destruct (Cohort.sex_eqb (Cohort.sex c) Cohort.indeterminate
              && Py.gtb (Cohort.age c) (Cohort.t_differentiation c)).
    + destruct (to_female_returns c0 p c h Hp Hfield Hw Hsc) as (f & h1 & Ef).
      pose proof (to_female_kept _ _ _ _ _ Ef) as Hk1.
      pose proof (heap_kept_length _ _ Hk1) as Hl1.
      destruct (to_male_returns c0 p c h1 Hp Hfield (proj2 Hk1 Hw))
        as (m & h2 & Em); [lia |].
      pose proof (to_male_kept _ _ _ _ _ Em) as Hk2.
      pose proof (heap_kept_length _ _ Hk2) as Hl2.
      destruct (IH (acc ++ [f; m]) h2) as (res & h' & E & HT').
      * exact (proj2 Hk2 (proj2 Hk1 Hw)).
      * eapply Forall_impl; [exact Hscs |]. simpl. intros y Hy. lia.
      * apply Forall_app in HT. destruct HT as [HTa HTcs].
        inversion HTcs as [| ? ? _ HTcs']; subst.
        apply Forall_app. split; [| exact HTcs'].
        apply Forall_app. split; [exact HTa |].
        apply List.Forall_cons; [| apply List.Forall_cons;
                                     [| apply List.Forall_nil]].
        -- intros _. pose proof (to_female_maturity _ _ _ _ _ Ef) as ETf.
           simpl in ETf. apply t_maturity_Some_pos in ETf. lra.
        -- intros Hsm. apply to_male_Some in Em.
           destruct Em as (? & ? & ? & ? & _ & _ & _ & _ & Hmale & _).
           congruence.
      * exists res, h'. split; [| exact HT'].
        eapply bind_returns; [exact Ef |].
        eapply bind_returns; [exact Em |]. exact E.
    + apply (IH (acc ++ [c]) h Hw Hscs). rewrite <- app_assoc. exact HT.
Qed.

Lemma indeterminate_init_returns (c0 : Cohorts.t) (p : Palm.t) (h : Heap) :
  Container._palm c0 = Some p -> field_ok p ->
  exists c h', Indeterminate.init (Some c0) h = Some (c, h').
Proof.
  intros Hp Hfield.
  destruct (potential_mass_returns c0 p (Indeterminate.make 0 0) Hp Hfield)
    as [pm Epm].
  destruct (t_maturity_returns c0 p Hp) as (T & ET & _);
    [destruct Hfield as (Hy & _); lra |].
  assert (Ex : exists x,
             BunchComponent.init BunchComponent.Stalk (Some pm) 0 None 1200
             = Some x)
    by apply stalk_init_returns.
  destruct Ex as [x Ex].
  eexists. eexists. unfold Indeterminate.init. cbv zeta.
  eapply bind_returns.
  { apply lift_Some. split; [| reflexivity]. rewrite Epm. exact Ex. }
  eapply bind_returns; [apply alloc_Some; split; reflexivity |].
  eapply bind_returns; [apply lift_Some; split; [exact ET | reflexivity] |].
  reflexivity.
Qed.

Lemma initiation_rate_returns (c0 : Cohorts.t) (p : Palm.t) :
  Container._palm c0 = Some p -> field_ok p ->
  exists r, Container.initiation_rate c0 = Some r.
Proof.
  intros Hp (Hy & Hm & _).
  destruct (t_maturity_returns c0 p Hp) as (T & ET & _); [lra |].
  unfold Container.initiation_rate, Container.onset_multiplicity_factor,
    Container.calc_onset_multiplicity.
  rewrite Hp, ET. simpl. rewrite (div_nonzero _ _ Hm). cbv zeta.
  destruct (Py.ltb _ _); [eauto |].
  match goal with
  | |- context [Py.div 1 ?d] =>
      assert (Hd : ~ d == 0)
  end.
  { match goal with
    | |- ~ 1 + ?k * Py.pow4 ?y == 0 =>
        pose proof (pow4_nonneg y) as Hp4;
        assert (0 <= k * Py.pow4 y)
          by (apply Qmult_le_0_compat;
              [unfold Container.onset_steepness; lra | exact Hp4])
    end.
    lra. }
  rewrite (div_nonzero _ _ Hd). eauto.
Qed.

Lemma in_population_components (cs : list Cohort.t) (c : Cohort.t)
    (r : ref) :
  In c cs -> In r (Cohort.components c) -> In r (population_components cs).
Proof.
  intros Hc Hr. unfold population_components. apply in_concat.
  exists (Cohort.components c). split; [apply in_map; exact Hc | exact Hr].
Qed.

Lemma stalks_in_heap (h : Heap) (cs : list Cohort.t) :
  Forall (fun c => In (Cohort.stalk c) (Cohort.components c)) cs ->
  Forall (fun r => (r < length h)%nat) (population_components cs) ->
  Forall (fun c => (Cohort.stalk c < length h)%nat) cs.
Proof.
  intros Hst Hlt. apply List.Forall_forall. intros c Hc.
  apply (proj1 (List.Forall_forall _ _) Hlt).
  apply (in_population_components cs c); [exact Hc |].
  exact (proj1 (List.Forall_forall _ _) Hst c Hc).
Qed.

Lemma sink_strengths_return (h : Heap) (cs : list Cohort.t) :
  Forall (fun r => (r < length h)%nat) (population_components cs) ->
  exists xs, map_opt (Cohort.cohort_sink_strength h) cs = Some xs.
Proof.
  induction cs as [| c cs IH]; intros Hlt; [simpl; eauto |].
  change (population_components (c :: cs))
    with (Cohort.components c ++ population_components cs) in Hlt.
  apply Forall_app in Hlt. destruct Hlt as [Hc Hcs].
  destruct (cohort_sink_strength_returns h c Hc) as [x Ex].
  destruct (IH Hcs) as [xs Exs]. simpl. rewrite Ex, Exs. eauto.
Qed.

Lemma set_relative_sink_strengths_returns (s : Cohorts.t) (h : Heap) :
  Forall (fun r => (r < length h)%nat)
    (population_components (Container.cohorts s)) ->
  exists s', Cohorts.set_relative_sink_strengths s h = Some (s', h).
Proof.
  intros Hlt. unfold Cohorts.set_relative_sink_strengths.
  assert (Hm : exists cs',
             map_M (Cohort.set_relative_sink_strength (Some s))
               (Container.cohorts s) h = Some (cs', h)).
  { revert Hlt. generalize (Container.cohorts s) as cs.
    induction cs as [| c cs IH]; intros Hlt; [exists []; reflexivity |].
    change (population_components (c :: cs))
      with (Cohort.components c ++ population_components cs) in Hlt.
    apply Forall_app in Hlt. destruct Hlt as [Hc Hcs].
    destruct (IH Hcs) as [cs' Ecs].
    destruct (cohort_sink_strength_returns h c Hc) as [x Ex].
    assert (Er : exists res,
               Cohort.get_relative_sink_strength (Some s) h c = Some res).
    { unfold Cohort.get_relative_sink_strength. rewrite Ex.
      destruct (Py.eqb _ 0); eauto. }
    destruct Er as [res Er].
    eexists. apply map_M_cons. eexists. eexists. eexists.
    split; [| split; [exact Ecs | reflexivity]].
    unfold Cohort.set_relative_sink_strength.
    eapply bind_returns; [apply get_Some; split; [exact Er | reflexivity] |].
    reflexivity. }
  destruct Hm as [cs' Ecs]. eexists.
  eapply bind_returns; [exact Ecs | reflexivity].
Qed.

Lemma record_harvest_palm (pop : Cohorts.t) :
  Container._palm (Cohorts.record_harvest pop) = Container._palm pop.
Proof.
  unfold Cohorts.record_harvest. destruct (Cohorts.harvest pop); reflexivity.
Qed.

(** [update_population] on a consistent population in a field. *)
Lemma update_population_returns (dt : Q) (self : Cohorts.t) (p : Palm.t)
    (h : Heap) :
  Container._palm self = Some p -> field_ok p ->
  consistent h (Container.cohorts self) ->
  exists pop h',
    Cohorts.update_population dt self h = Some (pop, h') /\
    Container._palm pop = Some p /\
    Forall (fun c => Cohort.sex c = Cohort.female ->
                     ~ Cohort.t_maturity c == 0) (Container.cohorts pop).
Proof.
  intros Hp Hfield ((Hnd & Hlt & Hst) & Hw & HT).
  set (s0 := Container.set_assim_growth (Container.get_assim_growth self) self).
  destruct (update_existing_returns s0 dt (Container.cohorts self) h Hw Hlt HT)
    as (cs1 & h1 & E1 & HT1).
  destruct (update_existing_components _ _ _ _ _ _ E1 Hst Hlt Hnd)
    as (Hl1 & Hst1 & Hin1 & Hnd1).
  assert (Hlt1 : Forall (fun r => (r < length h1)%nat)
                   (population_components cs1)).
  { apply List.Forall_forall. intros x Hx. exact (proj2 (Hin1 x Hx)). }
  assert (Hw1 : Forall well_formed h1).
  { refine (proj2 (map_M_kept _ _ _ _ _ _ E1) Hw).
    intros c ha hb c'. apply cohort_update_kept. }
  destruct (update_sex_loop_returns (Container.set_cohorts cs1 s0) p cs1
              Hp Hfield [] h1 Hw1 (stalks_in_heap h1 cs1 Hst1 Hlt1) HT1)
    as (cs2 & h2 & E2 & HT2).
  destruct (indeterminate_init_returns
              (Container.set_cohorts cs2 (Container.set_cohorts cs1 s0)) p h2
              Hp Hfield) as (new & h3 & E3).
  destruct (initiation_rate_returns
              (Container.set_cohorts cs2 (Container.set_cohorts cs1 s0)) p
              Hp Hfield) as [r Er].
  eexists. exists h3. split; [| split].
  - unfold Cohorts.update_population. fold s0.
    eapply bind_returns.
    { unfold Cohorts.update_existing_cohorts.
      eapply bind_returns; [exact E1 | reflexivity]. }
    eapply bind_returns.
    { unfold Cohorts.update_sex.
      eapply bind_returns; [exact E2 | reflexivity]. }
    unfold Cohorts.update_new_cohorts.
    eapply bind_returns; [exact E3 |].
    eapply bind_returns; [apply lift_Some; split; [exact Er | reflexivity] |].
    reflexivity.
  - exact Hp.
  - simpl. apply Forall_app. split; [exact HT2 |].
    apply Forall_singleton. intros Hs.
    apply indeterminate_init_Some in E3. destruct E3 as (x & T & _ & ->).
    discriminate.
Qed.


End Returns.

Lemma exp_approx_ge_1 (x : Q) : 0 <= x -> 1 <= exp_approx x.
Proof.
  intros Hx. unfold exp_approx. apply leb_true in Hx. rewrite Hx.
  apply leb_true in Hx.
  pose proof (sq_nonneg x) as Hsq. unfold Py.sq in Hsq.
  assert (Eh : x * x / 2 == x * x * (1 # 2)) by field.
  rewrite Eh. lra.
Qed.

